(** * Sequential scan of the orioledb B-tree (src/btree/scan.c)

    A shallow embedding of the scan state machine of [scan.c]: the
    historical page reconstruction, the internal page walker, the disk
    downlink batcher, the key-skip callback, the two get-next entry points
    and the registry of live scans with its checkpoint pin counters.

    Collaborators that live outside [scan.c] (page store, undo log, tuple
    resolver, fallback iterator, callbacks, checkpointer) are fields of
    the record [Externals]; every call to one of them threads an abstract
    world [W] and is recorded in an event log. *)

From Stdlib Require Import ZArith List Lia Bool Sorted Permutation.
From stdpp Require Import base list gmap.
Import ListNotations.
Open Scope Z_scope.

(** ** Keys, tuples and page images *)

Definition CommitSeqNo := Z.
Definition UndoLocation := Z.

(** A non-null [OTuple]: the key attributes and the rest of the tuple. *)
Record Tuple := mkTuple { t_key : Z; t_data : Z }.

(** [OTuple]: [None] is the tuple for which [O_TUPLE_IS_NULL] holds. *)
Definition OTuple := option Tuple.
Definition OFixedKey := OTuple.

Definition O_TUPLE_IS_NULL (t : OTuple) : bool :=
  match t with None => true | Some _ => false end.

(** Modelled from the spec: [o_btree_cmp] is declared in btree.h, which is
    not under src/; keys are totally ordered and the comparison of two
    tuples, whatever their kinds, is the comparison of their keys. *)
Definition o_btree_cmp (a b : Tuple) : Z :=
  match t_key a ?= t_key b with Lt => -1 | Eq => 0 | Gt => 1 end.

(** One item of a page.  A page is a byte buffer in the source and the
    item header is read as [BTreeLeafTuphdr] ([xactInfo], [deleted]) on a
    leaf and as [BTreeNonLeafTuphdr] ([downlink]) on an internal page. *)
Record PageItem := mkItem {
  it_tuple : Tuple;
  it_downlink : Z;
  it_xactInfo : Z;
  it_deleted : bool
}.

(** [header->chunkDesc[i]]: the chunk's high key and its items. *)
Record PageChunk := mkChunk {
  chunk_hikey : Tuple;
  chunk_items : list PageItem
}.

(** Modelled from the spec: the page layout (page_contents.h) is not under
    src/; a page image carries its commit marker, its undo pointer, its
    flags, its level, its high key (meaningful unless RIGHTMOST) and its
    chunks of items. *)
Record Page := mkPage {
  p_level : Z;
  p_leftmost : bool;
  p_rightmost : bool;
  p_csn : CommitSeqNo;
  p_undoLocation : UndoLocation;
  p_hikey : Tuple;
  p_chunks : list PageChunk
}.

Definition zero_tuple : Tuple := mkTuple 0 0.
Definition zero_item : PageItem := mkItem zero_tuple 0 0 false.
Definition zero_chunk : PageChunk := mkChunk zero_tuple [].
Definition zero_page : Page := mkPage 0 false false 0 0 zero_tuple [].

Definition chunksCount (p : Page) : nat := length (p_chunks p).
Definition page_chunk (p : Page) (i : nat) : PageChunk := nth i (p_chunks p) zero_chunk.

(** ** Page item locators

    Modelled from the spec: the locator macros of page_contents.h and
    page_chunks.c are not under src/; a locator is a position cursor
    (chunk, item within the chunk, number of items of that chunk) that is
    stepped item by item and moves to the next chunk at the end of one. *)

Record BTreePageItemLocator := mkLoc {
  chunkOffset : nat;
  itemOffset : nat;
  chunkItemsCount : nat
}.

Definition page_chunk_fill_locator (p : Page) (i : nat) : BTreePageItemLocator :=
  mkLoc i 0 (length (chunk_items (page_chunk p i))).

Definition BTREE_PAGE_LOCATOR_IS_VALID (p : Page) (loc : BTreePageItemLocator) : bool :=
  (itemOffset loc <? chunkItemsCount loc)%nat.

Definition BTREE_PAGE_LOCATOR_SET_INVALID : BTreePageItemLocator := mkLoc 0 0 0.

Definition page_locator_next_chunk (p : Page) (loc : BTreePageItemLocator)
  : bool * BTreePageItemLocator :=
  if (S (chunkOffset loc) <? chunksCount p)%nat
  then (true, page_chunk_fill_locator p (S (chunkOffset loc)))
  else (false, loc).

Fixpoint find_real_item_from (n : nat) (p : Page) (loc : BTreePageItemLocator)
  : BTreePageItemLocator :=
  if (itemOffset loc <? chunkItemsCount loc)%nat then loc
  else match n with
       | O => loc
       | S n' =>
           match page_locator_next_chunk p loc with
           | (true, loc') => find_real_item_from n' p loc'
           | (false, loc') => loc'
           end
       end.

Definition page_locator_find_real_item (p : Page) (loc : BTreePageItemLocator)
  : BTreePageItemLocator :=
  find_real_item_from (chunksCount p) p loc.

Definition BTREE_PAGE_LOCATOR_FIRST (p : Page) : BTreePageItemLocator :=
  page_locator_find_real_item p (page_chunk_fill_locator p 0).

Definition BTREE_PAGE_LOCATOR_NEXT (p : Page) (loc : BTreePageItemLocator)
  : BTreePageItemLocator :=
  page_locator_find_real_item p
    (mkLoc (chunkOffset loc) (S (itemOffset loc)) (chunkItemsCount loc)).

Definition items_before_chunk (p : Page) (c : nat) : nat :=
  length (concat (map chunk_items (firstn c (p_chunks p)))).

Definition BTREE_PAGE_LOCATOR_GET_OFFSET (p : Page) (loc : BTreePageItemLocator) : nat :=
  (items_before_chunk p (chunkOffset loc) + itemOffset loc)%nat.

(** Reading the item under a locator.  The source reads only under
    [BTREE_PAGE_LOCATOR_IS_VALID]; elsewhere the zero item stands for
    whatever bytes the buffer holds. *)
Definition page_read_item (p : Page) (loc : BTreePageItemLocator) : PageItem :=
  nth (itemOffset loc) (chunk_items (page_chunk p (chunkOffset loc))) zero_item.

Definition BTREE_PAGE_READ_LEAF_TUPLE (p : Page) (loc : BTreePageItemLocator) : Tuple :=
  it_tuple (page_read_item p loc).

Definition BTREE_PAGE_READ_INTERNAL_TUPLE (p : Page) (loc : BTreePageItemLocator) : Tuple :=
  it_tuple (page_read_item p loc).

(** The items a cursor still has in front of it, in page order; a cursor
    that is not valid has none (its page counts as exhausted). *)
Definition page_items (p : Page) : list PageItem := concat (map chunk_items (p_chunks p)).

Definition loc_remaining (p : Page) (loc : BTreePageItemLocator) : list PageItem :=
  if BTREE_PAGE_LOCATOR_IS_VALID p loc
  then skipn (BTREE_PAGE_LOCATOR_GET_OFFSET p loc) (page_items p)
  else [].

(** ** The scan descriptor *)

Inductive BTreeSeqScanStatus :=
| BTreeSeqScanInMemory
| BTreeSeqScanDisk
| BTreeSeqScanFinished.

Definition status_eqb (a b : BTreeSeqScanStatus) : bool :=
  match a, b with
  | BTreeSeqScanInMemory, BTreeSeqScanInMemory => true
  | BTreeSeqScanDisk, BTreeSeqScanDisk => true
  | BTreeSeqScanFinished, BTreeSeqScanFinished => true
  | _, _ => false
  end.

Record BTreeSeqScanDiskDownlink := mkDiskDownlink {
  downlink : Z;
  csn : CommitSeqNo
}.

Record BTreeLocationHint := mkHint {
  blkno : Z;
  pageChangeCount : Z
}.

(** [context.items[i]] of [OBTreeFindPageContext]. *)
Record PageFindItem := mkFindItem {
  fi_locator : BTreePageItemLocator;
  fi_blkno : Z;
  fi_pageChangeCount : Z
}.

Definition zero_find_item : PageFindItem := mkFindItem (mkLoc 0 0 0) 0 0.

Record OBTreeFindPageContext := mkContext {
  ctx_flags : Z;
  ctx_img : Page;
  ctx_index : nat;
  ctx_items : list PageFindItem;
  ctx_lokey : OFixedKey;
  ctx_imgReadCsn : CommitSeqNo
}.

(** Function pointers of [BTreeSeqScanCallbacks]: [None] is NULL, an
    address is resolved by the world. *)
Record BTreeSeqScanCallbacks := mkCallbacks {
  isRangeValid : option Z;
  getNextKey : option Z
}.

(** Modelled from the spec: [BlockSampler] (utils/sampling.h) is not under
    src/; a sampler supplies a deterministic sequence of downlink ordinal
    positions to retain. *)
Definition BlockSampler := list Z.

Definition BlockSampler_HasMore (bs : BlockSampler) : bool :=
  match bs with [] => false | _ :: _ => true end.

Definition BlockSampler_Next (bs : BlockSampler) : Z * BlockSampler :=
  match bs with [] => (0, []) | b :: bs' => (b, bs') end.

(** The part of the shared parallel descriptor the private scan reads. *)
Record ParallelOScanDesc := mkPoscan {
  flags : Z;
  worker_active : list bool
}.

Record BTreeSeqScan := mkScan {
  desc : Z;
  leafImg : Page;
  histImg : Page;
  snapshotCsn : CommitSeqNo;
  ctx : OBTreeFindPageContext;
  prevHikey : OFixedKey;
  hint : BTreeLocationHint;
  intLoc : BTreePageItemLocator;
  intStartOffset : nat;
  leafLoc : BTreePageItemLocator;
  haveHistImg : bool;
  histLoc : BTreePageItemLocator;
  status : BTreeSeqScanStatus;
  diskDownlinks : list BTreeSeqScanDiskDownlink;
  downlinksCount : Z;
  downlinkIndex : Z;
  allocatedDownlinks : Z;
  iter : option Z;
  iterEnd : OTuple;
  checkpointNumber : Z;
  listNode : Z;
  nextKey : OFixedKey;
  needSampling : bool;
  sampler : option BlockSampler;
  samplingNumber : Z;
  samplingNext : Z;
  cb : option BTreeSeqScanCallbacks;
  isSingleLeafPage : bool;
  keyRangeLow : OFixedKey;
  keyRangeHigh : OFixedKey;
  firstPageIsLoaded : bool;
  poscan : option ParallelOScanDesc;
  isLeader : bool;
  workerNumber : Z
}.

(** Field updates: [set_f v s] is the assignment [scan->f = v]. *)

Definition set_desc v (s : BTreeSeqScan) : BTreeSeqScan :=
  mkScan v (leafImg s) (histImg s) (snapshotCsn s) (ctx s) (prevHikey s) (hint s) (intLoc s) (intStartOffset s) (leafLoc s) (haveHistImg s) (histLoc s) (status s) (diskDownlinks s) (downlinksCount s) (downlinkIndex s) (allocatedDownlinks s) (iter s) (iterEnd s) (checkpointNumber s) (listNode s) (nextKey s) (needSampling s) (sampler s) (samplingNumber s) (samplingNext s) (cb s) (isSingleLeafPage s) (keyRangeLow s) (keyRangeHigh s) (firstPageIsLoaded s) (poscan s) (isLeader s) (workerNumber s).

Definition set_leafImg v (s : BTreeSeqScan) : BTreeSeqScan :=
  mkScan (desc s) v (histImg s) (snapshotCsn s) (ctx s) (prevHikey s) (hint s) (intLoc s) (intStartOffset s) (leafLoc s) (haveHistImg s) (histLoc s) (status s) (diskDownlinks s) (downlinksCount s) (downlinkIndex s) (allocatedDownlinks s) (iter s) (iterEnd s) (checkpointNumber s) (listNode s) (nextKey s) (needSampling s) (sampler s) (samplingNumber s) (samplingNext s) (cb s) (isSingleLeafPage s) (keyRangeLow s) (keyRangeHigh s) (firstPageIsLoaded s) (poscan s) (isLeader s) (workerNumber s).

Definition set_histImg v (s : BTreeSeqScan) : BTreeSeqScan :=
  mkScan (desc s) (leafImg s) v (snapshotCsn s) (ctx s) (prevHikey s) (hint s) (intLoc s) (intStartOffset s) (leafLoc s) (haveHistImg s) (histLoc s) (status s) (diskDownlinks s) (downlinksCount s) (downlinkIndex s) (allocatedDownlinks s) (iter s) (iterEnd s) (checkpointNumber s) (listNode s) (nextKey s) (needSampling s) (sampler s) (samplingNumber s) (samplingNext s) (cb s) (isSingleLeafPage s) (keyRangeLow s) (keyRangeHigh s) (firstPageIsLoaded s) (poscan s) (isLeader s) (workerNumber s).

Definition set_snapshotCsn v (s : BTreeSeqScan) : BTreeSeqScan :=
  mkScan (desc s) (leafImg s) (histImg s) v (ctx s) (prevHikey s) (hint s) (intLoc s) (intStartOffset s) (leafLoc s) (haveHistImg s) (histLoc s) (status s) (diskDownlinks s) (downlinksCount s) (downlinkIndex s) (allocatedDownlinks s) (iter s) (iterEnd s) (checkpointNumber s) (listNode s) (nextKey s) (needSampling s) (sampler s) (samplingNumber s) (samplingNext s) (cb s) (isSingleLeafPage s) (keyRangeLow s) (keyRangeHigh s) (firstPageIsLoaded s) (poscan s) (isLeader s) (workerNumber s).

Definition set_ctx v (s : BTreeSeqScan) : BTreeSeqScan :=
  mkScan (desc s) (leafImg s) (histImg s) (snapshotCsn s) v (prevHikey s) (hint s) (intLoc s) (intStartOffset s) (leafLoc s) (haveHistImg s) (histLoc s) (status s) (diskDownlinks s) (downlinksCount s) (downlinkIndex s) (allocatedDownlinks s) (iter s) (iterEnd s) (checkpointNumber s) (listNode s) (nextKey s) (needSampling s) (sampler s) (samplingNumber s) (samplingNext s) (cb s) (isSingleLeafPage s) (keyRangeLow s) (keyRangeHigh s) (firstPageIsLoaded s) (poscan s) (isLeader s) (workerNumber s).

Definition set_prevHikey v (s : BTreeSeqScan) : BTreeSeqScan :=
  mkScan (desc s) (leafImg s) (histImg s) (snapshotCsn s) (ctx s) v (hint s) (intLoc s) (intStartOffset s) (leafLoc s) (haveHistImg s) (histLoc s) (status s) (diskDownlinks s) (downlinksCount s) (downlinkIndex s) (allocatedDownlinks s) (iter s) (iterEnd s) (checkpointNumber s) (listNode s) (nextKey s) (needSampling s) (sampler s) (samplingNumber s) (samplingNext s) (cb s) (isSingleLeafPage s) (keyRangeLow s) (keyRangeHigh s) (firstPageIsLoaded s) (poscan s) (isLeader s) (workerNumber s).

Definition set_hint v (s : BTreeSeqScan) : BTreeSeqScan :=
  mkScan (desc s) (leafImg s) (histImg s) (snapshotCsn s) (ctx s) (prevHikey s) v (intLoc s) (intStartOffset s) (leafLoc s) (haveHistImg s) (histLoc s) (status s) (diskDownlinks s) (downlinksCount s) (downlinkIndex s) (allocatedDownlinks s) (iter s) (iterEnd s) (checkpointNumber s) (listNode s) (nextKey s) (needSampling s) (sampler s) (samplingNumber s) (samplingNext s) (cb s) (isSingleLeafPage s) (keyRangeLow s) (keyRangeHigh s) (firstPageIsLoaded s) (poscan s) (isLeader s) (workerNumber s).

Definition set_intLoc v (s : BTreeSeqScan) : BTreeSeqScan :=
  mkScan (desc s) (leafImg s) (histImg s) (snapshotCsn s) (ctx s) (prevHikey s) (hint s) v (intStartOffset s) (leafLoc s) (haveHistImg s) (histLoc s) (status s) (diskDownlinks s) (downlinksCount s) (downlinkIndex s) (allocatedDownlinks s) (iter s) (iterEnd s) (checkpointNumber s) (listNode s) (nextKey s) (needSampling s) (sampler s) (samplingNumber s) (samplingNext s) (cb s) (isSingleLeafPage s) (keyRangeLow s) (keyRangeHigh s) (firstPageIsLoaded s) (poscan s) (isLeader s) (workerNumber s).

Definition set_intStartOffset v (s : BTreeSeqScan) : BTreeSeqScan :=
  mkScan (desc s) (leafImg s) (histImg s) (snapshotCsn s) (ctx s) (prevHikey s) (hint s) (intLoc s) v (leafLoc s) (haveHistImg s) (histLoc s) (status s) (diskDownlinks s) (downlinksCount s) (downlinkIndex s) (allocatedDownlinks s) (iter s) (iterEnd s) (checkpointNumber s) (listNode s) (nextKey s) (needSampling s) (sampler s) (samplingNumber s) (samplingNext s) (cb s) (isSingleLeafPage s) (keyRangeLow s) (keyRangeHigh s) (firstPageIsLoaded s) (poscan s) (isLeader s) (workerNumber s).

Definition set_leafLoc v (s : BTreeSeqScan) : BTreeSeqScan :=
  mkScan (desc s) (leafImg s) (histImg s) (snapshotCsn s) (ctx s) (prevHikey s) (hint s) (intLoc s) (intStartOffset s) v (haveHistImg s) (histLoc s) (status s) (diskDownlinks s) (downlinksCount s) (downlinkIndex s) (allocatedDownlinks s) (iter s) (iterEnd s) (checkpointNumber s) (listNode s) (nextKey s) (needSampling s) (sampler s) (samplingNumber s) (samplingNext s) (cb s) (isSingleLeafPage s) (keyRangeLow s) (keyRangeHigh s) (firstPageIsLoaded s) (poscan s) (isLeader s) (workerNumber s).

Definition set_haveHistImg v (s : BTreeSeqScan) : BTreeSeqScan :=
  mkScan (desc s) (leafImg s) (histImg s) (snapshotCsn s) (ctx s) (prevHikey s) (hint s) (intLoc s) (intStartOffset s) (leafLoc s) v (histLoc s) (status s) (diskDownlinks s) (downlinksCount s) (downlinkIndex s) (allocatedDownlinks s) (iter s) (iterEnd s) (checkpointNumber s) (listNode s) (nextKey s) (needSampling s) (sampler s) (samplingNumber s) (samplingNext s) (cb s) (isSingleLeafPage s) (keyRangeLow s) (keyRangeHigh s) (firstPageIsLoaded s) (poscan s) (isLeader s) (workerNumber s).

Definition set_histLoc v (s : BTreeSeqScan) : BTreeSeqScan :=
  mkScan (desc s) (leafImg s) (histImg s) (snapshotCsn s) (ctx s) (prevHikey s) (hint s) (intLoc s) (intStartOffset s) (leafLoc s) (haveHistImg s) v (status s) (diskDownlinks s) (downlinksCount s) (downlinkIndex s) (allocatedDownlinks s) (iter s) (iterEnd s) (checkpointNumber s) (listNode s) (nextKey s) (needSampling s) (sampler s) (samplingNumber s) (samplingNext s) (cb s) (isSingleLeafPage s) (keyRangeLow s) (keyRangeHigh s) (firstPageIsLoaded s) (poscan s) (isLeader s) (workerNumber s).

Definition set_status v (s : BTreeSeqScan) : BTreeSeqScan :=
  mkScan (desc s) (leafImg s) (histImg s) (snapshotCsn s) (ctx s) (prevHikey s) (hint s) (intLoc s) (intStartOffset s) (leafLoc s) (haveHistImg s) (histLoc s) v (diskDownlinks s) (downlinksCount s) (downlinkIndex s) (allocatedDownlinks s) (iter s) (iterEnd s) (checkpointNumber s) (listNode s) (nextKey s) (needSampling s) (sampler s) (samplingNumber s) (samplingNext s) (cb s) (isSingleLeafPage s) (keyRangeLow s) (keyRangeHigh s) (firstPageIsLoaded s) (poscan s) (isLeader s) (workerNumber s).

Definition set_diskDownlinks v (s : BTreeSeqScan) : BTreeSeqScan :=
  mkScan (desc s) (leafImg s) (histImg s) (snapshotCsn s) (ctx s) (prevHikey s) (hint s) (intLoc s) (intStartOffset s) (leafLoc s) (haveHistImg s) (histLoc s) (status s) v (downlinksCount s) (downlinkIndex s) (allocatedDownlinks s) (iter s) (iterEnd s) (checkpointNumber s) (listNode s) (nextKey s) (needSampling s) (sampler s) (samplingNumber s) (samplingNext s) (cb s) (isSingleLeafPage s) (keyRangeLow s) (keyRangeHigh s) (firstPageIsLoaded s) (poscan s) (isLeader s) (workerNumber s).

Definition set_downlinksCount v (s : BTreeSeqScan) : BTreeSeqScan :=
  mkScan (desc s) (leafImg s) (histImg s) (snapshotCsn s) (ctx s) (prevHikey s) (hint s) (intLoc s) (intStartOffset s) (leafLoc s) (haveHistImg s) (histLoc s) (status s) (diskDownlinks s) v (downlinkIndex s) (allocatedDownlinks s) (iter s) (iterEnd s) (checkpointNumber s) (listNode s) (nextKey s) (needSampling s) (sampler s) (samplingNumber s) (samplingNext s) (cb s) (isSingleLeafPage s) (keyRangeLow s) (keyRangeHigh s) (firstPageIsLoaded s) (poscan s) (isLeader s) (workerNumber s).

Definition set_downlinkIndex v (s : BTreeSeqScan) : BTreeSeqScan :=
  mkScan (desc s) (leafImg s) (histImg s) (snapshotCsn s) (ctx s) (prevHikey s) (hint s) (intLoc s) (intStartOffset s) (leafLoc s) (haveHistImg s) (histLoc s) (status s) (diskDownlinks s) (downlinksCount s) v (allocatedDownlinks s) (iter s) (iterEnd s) (checkpointNumber s) (listNode s) (nextKey s) (needSampling s) (sampler s) (samplingNumber s) (samplingNext s) (cb s) (isSingleLeafPage s) (keyRangeLow s) (keyRangeHigh s) (firstPageIsLoaded s) (poscan s) (isLeader s) (workerNumber s).

Definition set_allocatedDownlinks v (s : BTreeSeqScan) : BTreeSeqScan :=
  mkScan (desc s) (leafImg s) (histImg s) (snapshotCsn s) (ctx s) (prevHikey s) (hint s) (intLoc s) (intStartOffset s) (leafLoc s) (haveHistImg s) (histLoc s) (status s) (diskDownlinks s) (downlinksCount s) (downlinkIndex s) v (iter s) (iterEnd s) (checkpointNumber s) (listNode s) (nextKey s) (needSampling s) (sampler s) (samplingNumber s) (samplingNext s) (cb s) (isSingleLeafPage s) (keyRangeLow s) (keyRangeHigh s) (firstPageIsLoaded s) (poscan s) (isLeader s) (workerNumber s).

Definition set_iter v (s : BTreeSeqScan) : BTreeSeqScan :=
  mkScan (desc s) (leafImg s) (histImg s) (snapshotCsn s) (ctx s) (prevHikey s) (hint s) (intLoc s) (intStartOffset s) (leafLoc s) (haveHistImg s) (histLoc s) (status s) (diskDownlinks s) (downlinksCount s) (downlinkIndex s) (allocatedDownlinks s) v (iterEnd s) (checkpointNumber s) (listNode s) (nextKey s) (needSampling s) (sampler s) (samplingNumber s) (samplingNext s) (cb s) (isSingleLeafPage s) (keyRangeLow s) (keyRangeHigh s) (firstPageIsLoaded s) (poscan s) (isLeader s) (workerNumber s).

Definition set_iterEnd v (s : BTreeSeqScan) : BTreeSeqScan :=
  mkScan (desc s) (leafImg s) (histImg s) (snapshotCsn s) (ctx s) (prevHikey s) (hint s) (intLoc s) (intStartOffset s) (leafLoc s) (haveHistImg s) (histLoc s) (status s) (diskDownlinks s) (downlinksCount s) (downlinkIndex s) (allocatedDownlinks s) (iter s) v (checkpointNumber s) (listNode s) (nextKey s) (needSampling s) (sampler s) (samplingNumber s) (samplingNext s) (cb s) (isSingleLeafPage s) (keyRangeLow s) (keyRangeHigh s) (firstPageIsLoaded s) (poscan s) (isLeader s) (workerNumber s).

Definition set_checkpointNumber v (s : BTreeSeqScan) : BTreeSeqScan :=
  mkScan (desc s) (leafImg s) (histImg s) (snapshotCsn s) (ctx s) (prevHikey s) (hint s) (intLoc s) (intStartOffset s) (leafLoc s) (haveHistImg s) (histLoc s) (status s) (diskDownlinks s) (downlinksCount s) (downlinkIndex s) (allocatedDownlinks s) (iter s) (iterEnd s) v (listNode s) (nextKey s) (needSampling s) (sampler s) (samplingNumber s) (samplingNext s) (cb s) (isSingleLeafPage s) (keyRangeLow s) (keyRangeHigh s) (firstPageIsLoaded s) (poscan s) (isLeader s) (workerNumber s).

Definition set_listNode v (s : BTreeSeqScan) : BTreeSeqScan :=
  mkScan (desc s) (leafImg s) (histImg s) (snapshotCsn s) (ctx s) (prevHikey s) (hint s) (intLoc s) (intStartOffset s) (leafLoc s) (haveHistImg s) (histLoc s) (status s) (diskDownlinks s) (downlinksCount s) (downlinkIndex s) (allocatedDownlinks s) (iter s) (iterEnd s) (checkpointNumber s) v (nextKey s) (needSampling s) (sampler s) (samplingNumber s) (samplingNext s) (cb s) (isSingleLeafPage s) (keyRangeLow s) (keyRangeHigh s) (firstPageIsLoaded s) (poscan s) (isLeader s) (workerNumber s).

Definition set_nextKey v (s : BTreeSeqScan) : BTreeSeqScan :=
  mkScan (desc s) (leafImg s) (histImg s) (snapshotCsn s) (ctx s) (prevHikey s) (hint s) (intLoc s) (intStartOffset s) (leafLoc s) (haveHistImg s) (histLoc s) (status s) (diskDownlinks s) (downlinksCount s) (downlinkIndex s) (allocatedDownlinks s) (iter s) (iterEnd s) (checkpointNumber s) (listNode s) v (needSampling s) (sampler s) (samplingNumber s) (samplingNext s) (cb s) (isSingleLeafPage s) (keyRangeLow s) (keyRangeHigh s) (firstPageIsLoaded s) (poscan s) (isLeader s) (workerNumber s).

Definition set_needSampling v (s : BTreeSeqScan) : BTreeSeqScan :=
  mkScan (desc s) (leafImg s) (histImg s) (snapshotCsn s) (ctx s) (prevHikey s) (hint s) (intLoc s) (intStartOffset s) (leafLoc s) (haveHistImg s) (histLoc s) (status s) (diskDownlinks s) (downlinksCount s) (downlinkIndex s) (allocatedDownlinks s) (iter s) (iterEnd s) (checkpointNumber s) (listNode s) (nextKey s) v (sampler s) (samplingNumber s) (samplingNext s) (cb s) (isSingleLeafPage s) (keyRangeLow s) (keyRangeHigh s) (firstPageIsLoaded s) (poscan s) (isLeader s) (workerNumber s).

Definition set_sampler v (s : BTreeSeqScan) : BTreeSeqScan :=
  mkScan (desc s) (leafImg s) (histImg s) (snapshotCsn s) (ctx s) (prevHikey s) (hint s) (intLoc s) (intStartOffset s) (leafLoc s) (haveHistImg s) (histLoc s) (status s) (diskDownlinks s) (downlinksCount s) (downlinkIndex s) (allocatedDownlinks s) (iter s) (iterEnd s) (checkpointNumber s) (listNode s) (nextKey s) (needSampling s) v (samplingNumber s) (samplingNext s) (cb s) (isSingleLeafPage s) (keyRangeLow s) (keyRangeHigh s) (firstPageIsLoaded s) (poscan s) (isLeader s) (workerNumber s).

Definition set_samplingNumber v (s : BTreeSeqScan) : BTreeSeqScan :=
  mkScan (desc s) (leafImg s) (histImg s) (snapshotCsn s) (ctx s) (prevHikey s) (hint s) (intLoc s) (intStartOffset s) (leafLoc s) (haveHistImg s) (histLoc s) (status s) (diskDownlinks s) (downlinksCount s) (downlinkIndex s) (allocatedDownlinks s) (iter s) (iterEnd s) (checkpointNumber s) (listNode s) (nextKey s) (needSampling s) (sampler s) v (samplingNext s) (cb s) (isSingleLeafPage s) (keyRangeLow s) (keyRangeHigh s) (firstPageIsLoaded s) (poscan s) (isLeader s) (workerNumber s).

Definition set_samplingNext v (s : BTreeSeqScan) : BTreeSeqScan :=
  mkScan (desc s) (leafImg s) (histImg s) (snapshotCsn s) (ctx s) (prevHikey s) (hint s) (intLoc s) (intStartOffset s) (leafLoc s) (haveHistImg s) (histLoc s) (status s) (diskDownlinks s) (downlinksCount s) (downlinkIndex s) (allocatedDownlinks s) (iter s) (iterEnd s) (checkpointNumber s) (listNode s) (nextKey s) (needSampling s) (sampler s) (samplingNumber s) v (cb s) (isSingleLeafPage s) (keyRangeLow s) (keyRangeHigh s) (firstPageIsLoaded s) (poscan s) (isLeader s) (workerNumber s).

Definition set_cb v (s : BTreeSeqScan) : BTreeSeqScan :=
  mkScan (desc s) (leafImg s) (histImg s) (snapshotCsn s) (ctx s) (prevHikey s) (hint s) (intLoc s) (intStartOffset s) (leafLoc s) (haveHistImg s) (histLoc s) (status s) (diskDownlinks s) (downlinksCount s) (downlinkIndex s) (allocatedDownlinks s) (iter s) (iterEnd s) (checkpointNumber s) (listNode s) (nextKey s) (needSampling s) (sampler s) (samplingNumber s) (samplingNext s) v (isSingleLeafPage s) (keyRangeLow s) (keyRangeHigh s) (firstPageIsLoaded s) (poscan s) (isLeader s) (workerNumber s).

Definition set_isSingleLeafPage v (s : BTreeSeqScan) : BTreeSeqScan :=
  mkScan (desc s) (leafImg s) (histImg s) (snapshotCsn s) (ctx s) (prevHikey s) (hint s) (intLoc s) (intStartOffset s) (leafLoc s) (haveHistImg s) (histLoc s) (status s) (diskDownlinks s) (downlinksCount s) (downlinkIndex s) (allocatedDownlinks s) (iter s) (iterEnd s) (checkpointNumber s) (listNode s) (nextKey s) (needSampling s) (sampler s) (samplingNumber s) (samplingNext s) (cb s) v (keyRangeLow s) (keyRangeHigh s) (firstPageIsLoaded s) (poscan s) (isLeader s) (workerNumber s).

Definition set_keyRangeLow v (s : BTreeSeqScan) : BTreeSeqScan :=
  mkScan (desc s) (leafImg s) (histImg s) (snapshotCsn s) (ctx s) (prevHikey s) (hint s) (intLoc s) (intStartOffset s) (leafLoc s) (haveHistImg s) (histLoc s) (status s) (diskDownlinks s) (downlinksCount s) (downlinkIndex s) (allocatedDownlinks s) (iter s) (iterEnd s) (checkpointNumber s) (listNode s) (nextKey s) (needSampling s) (sampler s) (samplingNumber s) (samplingNext s) (cb s) (isSingleLeafPage s) v (keyRangeHigh s) (firstPageIsLoaded s) (poscan s) (isLeader s) (workerNumber s).

Definition set_keyRangeHigh v (s : BTreeSeqScan) : BTreeSeqScan :=
  mkScan (desc s) (leafImg s) (histImg s) (snapshotCsn s) (ctx s) (prevHikey s) (hint s) (intLoc s) (intStartOffset s) (leafLoc s) (haveHistImg s) (histLoc s) (status s) (diskDownlinks s) (downlinksCount s) (downlinkIndex s) (allocatedDownlinks s) (iter s) (iterEnd s) (checkpointNumber s) (listNode s) (nextKey s) (needSampling s) (sampler s) (samplingNumber s) (samplingNext s) (cb s) (isSingleLeafPage s) (keyRangeLow s) v (firstPageIsLoaded s) (poscan s) (isLeader s) (workerNumber s).

Definition set_firstPageIsLoaded v (s : BTreeSeqScan) : BTreeSeqScan :=
  mkScan (desc s) (leafImg s) (histImg s) (snapshotCsn s) (ctx s) (prevHikey s) (hint s) (intLoc s) (intStartOffset s) (leafLoc s) (haveHistImg s) (histLoc s) (status s) (diskDownlinks s) (downlinksCount s) (downlinkIndex s) (allocatedDownlinks s) (iter s) (iterEnd s) (checkpointNumber s) (listNode s) (nextKey s) (needSampling s) (sampler s) (samplingNumber s) (samplingNext s) (cb s) (isSingleLeafPage s) (keyRangeLow s) (keyRangeHigh s) v (poscan s) (isLeader s) (workerNumber s).

Definition set_poscan v (s : BTreeSeqScan) : BTreeSeqScan :=
  mkScan (desc s) (leafImg s) (histImg s) (snapshotCsn s) (ctx s) (prevHikey s) (hint s) (intLoc s) (intStartOffset s) (leafLoc s) (haveHistImg s) (histLoc s) (status s) (diskDownlinks s) (downlinksCount s) (downlinkIndex s) (allocatedDownlinks s) (iter s) (iterEnd s) (checkpointNumber s) (listNode s) (nextKey s) (needSampling s) (sampler s) (samplingNumber s) (samplingNext s) (cb s) (isSingleLeafPage s) (keyRangeLow s) (keyRangeHigh s) (firstPageIsLoaded s) v (isLeader s) (workerNumber s).

Definition set_isLeader v (s : BTreeSeqScan) : BTreeSeqScan :=
  mkScan (desc s) (leafImg s) (histImg s) (snapshotCsn s) (ctx s) (prevHikey s) (hint s) (intLoc s) (intStartOffset s) (leafLoc s) (haveHistImg s) (histLoc s) (status s) (diskDownlinks s) (downlinksCount s) (downlinkIndex s) (allocatedDownlinks s) (iter s) (iterEnd s) (checkpointNumber s) (listNode s) (nextKey s) (needSampling s) (sampler s) (samplingNumber s) (samplingNext s) (cb s) (isSingleLeafPage s) (keyRangeLow s) (keyRangeHigh s) (firstPageIsLoaded s) (poscan s) v (workerNumber s).

Definition set_workerNumber v (s : BTreeSeqScan) : BTreeSeqScan :=
  mkScan (desc s) (leafImg s) (histImg s) (snapshotCsn s) (ctx s) (prevHikey s) (hint s) (intLoc s) (intStartOffset s) (leafLoc s) (haveHistImg s) (histLoc s) (status s) (diskDownlinks s) (downlinksCount s) (downlinkIndex s) (allocatedDownlinks s) (iter s) (iterEnd s) (checkpointNumber s) (listNode s) (nextKey s) (needSampling s) (sampler s) (samplingNumber s) (samplingNext s) (cb s) (isSingleLeafPage s) (keyRangeLow s) (keyRangeHigh s) (firstPageIsLoaded s) (poscan s) (isLeader s) v.

(** ** Outcomes and the state monad

    [ereport(ERROR)] and [elog(ERROR)] leave the function by a non-local
    exit; a loop of the source is run for a bounded number of iterations.
    All three outcomes keep the state that was reached. *)

Inductive ErrCode :=
| ERRCODE_SNAPSHOT_TOO_OLD     (* "snapshot too old" *)
| ERR_CAN_NOT_READ_LEAF_PAGE   (* "can not read leaf page from disk" *)
| ERR_NULL_TUPLE.              (* a null tuple handed to the key comparison *)

Inductive Outcome (T A : Type) : Type :=
| Ret (a : A) (s : T)
| Raise (e : ErrCode) (s : T)
| Timeout (s : T).

Arguments Ret {T A} a s.
Arguments Raise {T A} e s.
Arguments Timeout {T A} s.

Definition M (T A : Type) : Type := T -> Outcome T A.

Definition ret {T A} (a : A) : M T A := fun s => Ret a s.

Definition bind {T A B} (m : M T A) (k : A -> M T B) : M T B :=
  fun s => match m s with
           | Ret a s' => k a s'
           | Raise e s' => Raise e s'
           | Timeout s' => Timeout s'
           end.

Definition raise {T A} (e : ErrCode) : M T A := fun s => Raise e s.
Definition get {T} : M T T := fun s => Ret s s.
Definition modify {T} (f : T -> T) : M T unit := fun s => Ret tt (f s).

Definition outcome_state {T A} (o : Outcome T A) : T :=
  match o with Ret _ s => s | Raise _ s => s | Timeout s => s end.

Declare Scope scan_scope.
Delimit Scope scan_scope with scan.
Notation "x <- c ;; k" := (bind c (fun x => k))
  (at level 100, c at next level, right associativity) : scan_scope.
Notation "c ;;; k" := (bind c (fun _ => k))
  (at level 100, right associativity) : scan_scope.
Open Scope scan_scope.

(** What one iteration of a loop body asks for: [continue], [break] (both
    with the loop's local variables) or [return] from the function. *)
Inductive Ctl (L A : Type) : Type :=
| Continue (l : L)
| Break (l : L)
| Return (a : A).

Arguments Continue {L A} l.
Arguments Break {L A} l.
Arguments Return {L A} a.

(** [while_loop fuel body l]: [inl l'] when the loop was left by [break]
    (or its condition) with locals [l'], [inr a] when the body returned
    [a] from the function. *)
Fixpoint while_loop {T L A} (fuel : nat) (body : L -> M T (Ctl L A)) (l : L)
  : M T (L + A) :=
  match fuel with
  | O => fun s => Timeout s
  | S fuel' =>
      c <- body l ;;
      match c with
      | Continue l' => while_loop fuel' body l'
      | Break l' => ret (inl l')
      | Return a => ret (inr a)
      end
  end.

(** ** Collaborators *)

Inductive ReadPageResult :=
| ReadPageResultOK
| ReadPageResultFailed.

Inductive Event :=
| EvFindPage (key : OTuple)
| EvGetPageFromUndo (loc : UndoLocation) (key : OTuple)
| EvTryReadPage (blk changeCount : Z)
| EvReadPageFromDisk (dl : Z)
| EvReadPageFromUndo (loc : UndoLocation) (c : CommitSeqNo)
| EvFindTupleVersion (c : CommitSeqNo)
| EvIteratorCreate (low : OTuple) (c : CommitSeqNo)
| EvIteratorFetch (it : Z) (high : OTuple)
| EvIterateRaw (it : Z) (high : OTuple)
| EvWaitForIO (ionum : Z)
| EvIsRangeValid (low high : OTuple)
| EvGetNextKey (key : Tuple)
| EvGetCurCheckpointNumber (d : Z)
| EvParallelDownlink.

Record Externals (W : Type) := mkExternals {
  (* constants and macros of headers that are not under src/ *)
  COMMITSEQNO_IS_NORMAL : CommitSeqNo -> bool;
  COMMITSEQNO_INPROGRESS : CommitSeqNo;
  UNDO_REC_EXISTS : W -> UndoLocation -> bool;
  XACT_INFO_OXID_IS_CURRENT : W -> Z -> bool;
  DOWNLINK_IS_ON_DISK : Z -> bool;
  DOWNLINK_IS_IN_MEMORY : Z -> bool;
  DOWNLINK_IS_IN_IO : Z -> bool;
  DOWNLINK_GET_IN_MEMORY_BLKNO : Z -> Z;
  DOWNLINK_GET_IN_MEMORY_CHANGECOUNT : Z -> Z;
  DOWNLINK_GET_IO_LOCKNUM : Z -> Z;
  NUM_SEQ_SCANS_ARRAY_SIZE : Z;
  OInvalidInMemoryBlkno : Z;
  InvalidOPageChangeCount : Z;
  BTREE_PAGE_FIND_DOWNLINK_LOCATION : Z;
  BTREE_PAGE_FIND_IMAGE : Z;
  BTREE_PAGE_FIND_KEEP_LOKEY : Z;
  BTREE_PAGE_FIND_READ_CSN : Z;
  O_PARALLEL_LEADER_STARTED : Z;
  O_PARALLEL_FIRST_PAGE_LOADED : Z;
  O_PARALLEL_IS_SINGLE_LEAF_PAGE : Z;
  (* page store *)
  init_page_find_context : Z -> CommitSeqNo -> Z -> OBTreeFindPageContext;
  find_page : W -> OBTreeFindPageContext -> OTuple -> W * OBTreeFindPageContext;
  btree_page_search : Page -> Tuple -> BTreePageItemLocator;
  o_btree_try_read_page : W -> Z -> Z -> CommitSeqNo -> W * (ReadPageResult * Page);
  read_page_from_disk : W -> Z -> W * (bool * Page);
  wait_for_io_completion : W -> Z -> W;
  (* undo log: undo pointer, search key, whether the page low key is
     asked for, pointer to the page high key *)
  get_page_from_undo :
    W -> UndoLocation -> OTuple -> bool -> option OTuple -> W * (Page * OTuple);
  read_page_from_undo : W -> Page -> UndoLocation -> CommitSeqNo -> W * Page;
  (* tuple resolver *)
  o_find_tuple_version :
    W -> Page -> BTreePageItemLocator -> CommitSeqNo -> W * (OTuple * CommitSeqNo);
  (* fallback iterator *)
  o_btree_iterator_create : W -> Z -> OTuple -> CommitSeqNo -> W * Z;
  o_btree_iterator_fetch :
    W -> Z -> OTuple -> W * (OTuple * CommitSeqNo * BTreeLocationHint);
  btree_iterate_raw : W -> Z -> OTuple -> W * (OTuple * bool * BTreeLocationHint);
  (* callbacks, by function address *)
  call_isRangeValid : Z -> W -> OTuple -> OTuple -> W * bool;
  call_getNextKey : Z -> W -> Tuple -> bool -> W * (bool * Tuple);
  (* checkpointer *)
  get_cur_checkpoint_number : W -> Z -> W * Z;
  (* the branch of get_next_downlink taken by a parallel worker: it runs
     under the intpageAccess spinlock over slots shared with the other
     workers and is not part of this embedding *)
  get_next_downlink_parallel : W -> BTreeSeqScan -> W * (BTreeSeqScan * option Z)
}.

Arguments COMMITSEQNO_IS_NORMAL {W} _ _.
Arguments COMMITSEQNO_INPROGRESS {W} _.
Arguments UNDO_REC_EXISTS {W} _ _ _.
Arguments XACT_INFO_OXID_IS_CURRENT {W} _ _ _.
Arguments DOWNLINK_IS_ON_DISK {W} _ _.
Arguments DOWNLINK_IS_IN_MEMORY {W} _ _.
Arguments DOWNLINK_IS_IN_IO {W} _ _.
Arguments DOWNLINK_GET_IN_MEMORY_BLKNO {W} _ _.
Arguments DOWNLINK_GET_IN_MEMORY_CHANGECOUNT {W} _ _.
Arguments DOWNLINK_GET_IO_LOCKNUM {W} _ _.
Arguments NUM_SEQ_SCANS_ARRAY_SIZE {W} _.
Arguments OInvalidInMemoryBlkno {W} _.
Arguments InvalidOPageChangeCount {W} _.
Arguments BTREE_PAGE_FIND_DOWNLINK_LOCATION {W} _.
Arguments BTREE_PAGE_FIND_IMAGE {W} _.
Arguments BTREE_PAGE_FIND_KEEP_LOKEY {W} _.
Arguments BTREE_PAGE_FIND_READ_CSN {W} _.
Arguments O_PARALLEL_LEADER_STARTED {W} _.
Arguments O_PARALLEL_FIRST_PAGE_LOADED {W} _.
Arguments O_PARALLEL_IS_SINGLE_LEAF_PAGE {W} _.
Arguments init_page_find_context {W} _ _ _ _.
Arguments find_page {W} _ _ _ _.
Arguments btree_page_search {W} _ _ _.
Arguments o_btree_try_read_page {W} _ _ _ _ _.
Arguments read_page_from_disk {W} _ _ _.
Arguments wait_for_io_completion {W} _ _ _.
Arguments get_page_from_undo {W} _ _ _ _ _ _.
Arguments read_page_from_undo {W} _ _ _ _ _.
Arguments o_find_tuple_version {W} _ _ _ _ _.
Arguments o_btree_iterator_create {W} _ _ _ _ _.
Arguments o_btree_iterator_fetch {W} _ _ _ _.
Arguments btree_iterate_raw {W} _ _ _ _.
Arguments call_isRangeValid {W} _ _ _ _ _.
Arguments call_getNextKey {W} _ _ _ _ _.
Arguments get_cur_checkpoint_number {W} _ _ _.
Arguments get_next_downlink_parallel {W} _ _ _.

(** ** Process and shared memory outside the scan descriptor *)

(** [listOfScans] holds the addresses of the registered descriptors,
    [scanHeap] the descriptors the sweep reads through them (the fields it
    reads are fixed at creation), [numSeqScans] the pin counter of each
    (tree, [checkpointNumber % NUM_SEQ_SCANS_ARRAY_SIZE]) and [nextAddr]
    the next address of the allocator. *)
Record Globals := mkGlobals {
  listOfScans : list Z;
  scanHeap : gmap Z BTreeSeqScan;
  numSeqScans : gmap (Z * Z) Z;
  nextAddr : Z
}.

Definition InvalidBlockNumber : Z := 4294967295.
Definition wrap32 (x : Z) : Z := x mod 4294967296.

Definition read_numSeqScans (g : Globals) (d slot : Z) : Z :=
  default 0 (numSeqScans g !! (d, slot)).

(** [pg_atomic_fetch_add_u32] and [pg_atomic_fetch_sub_u32] on one counter. *)
Definition pg_atomic_fetch_add_u32 (d slot delta : Z) (g : Globals) : Globals :=
  mkGlobals (listOfScans g) (scanHeap g)
    (<[(d, slot) := wrap32 (read_numSeqScans g d slot + delta)]> (numSeqScans g))
    (nextAddr g).

Definition pg_atomic_fetch_sub_u32 (d slot delta : Z) (g : Globals) : Globals :=
  pg_atomic_fetch_add_u32 d slot (- delta) g.

Definition dlist_push_tail (a : Z) (g : Globals) : Globals :=
  mkGlobals (listOfScans g ++ [a]) (scanHeap g) (numSeqScans g) (nextAddr g).

Fixpoint remove_first (a : Z) (l : list Z) : list Z :=
  match l with
  | [] => []
  | x :: l' => if x =? a then l' else x :: remove_first a l'
  end.

Definition dlist_delete (a : Z) (g : Globals) : Globals :=
  mkGlobals (remove_first a (listOfScans g)) (scanHeap g) (numSeqScans g) (nextAddr g).

Definition heap_store (a : Z) (sc : BTreeSeqScan) (g : Globals) : Globals :=
  mkGlobals (listOfScans g) (<[a := sc]> (scanHeap g)) (numSeqScans g) (nextAddr g).

Definition pfree (a : Z) (g : Globals) : Globals :=
  mkGlobals (listOfScans g) (delete a (scanHeap g)) (numSeqScans g) (nextAddr g).

Definition MemoryContextAlloc (g : Globals) : Z * Globals :=
  (nextAddr g, mkGlobals (listOfScans g) (scanHeap g) (numSeqScans g) (nextAddr g + 1)).

(** The state a scan operation runs in. *)
Record St (W : Type) := mkSt {
  scan : BTreeSeqScan;
  world : W;
  log : list Event;
  glob : Globals
}.

Arguments mkSt {W} _ _ _ _.
Arguments scan {W} _.
Arguments world {W} _.
Arguments log {W} _.
Arguments glob {W} _.

(** Modelled from the spec: [qsort] is the C library's; it sorts the
    array ascending with respect to the comparator. *)
Fixpoint qsort_insert {A} (cmp : A -> A -> Z) (x : A) (l : list A) : list A :=
  match l with
  | [] => [x]
  | y :: l' => if cmp x y <=? 0 then x :: y :: l' else y :: qsort_insert cmp x l'
  end.

Definition qsort {A} (cmp : A -> A -> Z) (l : list A) : list A :=
  fold_right (qsort_insert cmp) [] l.

(** [a[i] = x] on the initialised prefix of a growable array. *)
Definition array_store {A} (zero : A) (i : nat) (x : A) (l : list A) : list A :=
  if (i <? length l)%nat then <[i := x]> l
  else l ++ repeat zero (i - length l) ++ [x].

Definition zero_disk_downlink : BTreeSeqScanDiskDownlink := mkDiskDownlink 0 0.

(** A pointer to one of the two page buffers of the descriptor. *)
Inductive ImgPtr := PtrLeafImg | PtrHistImg.

Definition deref_img (s : BTreeSeqScan) (p : ImgPtr) : Page :=
  match p with PtrLeafImg => leafImg s | PtrHistImg => histImg s end.

(** Local variables of [load_first_historical_page]. *)
Record HistLocals := mkHistLocals {
  hl_header : ImgPtr;
  hl_key : OTuple;         (* key, with kind BTreeKeyNone when null *)
  hl_lokey : OFixedKey;
  hl_lokeyPtr : bool;      (* lokeyPtr != NULL *)
  hl_hikey : OFixedKey
}.

(** What get-next hands back with a tuple: the tuple, [*tupleCsn] and
    [*hint]. *)
Definition TupleOut : Type := Tuple * CommitSeqNo * BTreeLocationHint.

Section Scan.

Context {W : Type} (ext : Externals W).

Definition get_scan : M (St W) BTreeSeqScan := fun st => Ret (scan st) st.

Definition upd (f : BTreeSeqScan -> BTreeSeqScan) : M (St W) unit :=
  fun st => Ret tt (mkSt (f (scan st)) (world st) (log st) (glob st)).

Definition upd_glob (f : Globals -> Globals) : M (St W) unit :=
  fun st => Ret tt (mkSt (scan st) (world st) (log st) (f (glob st))).

(** Reading a macro that looks at shared memory. *)
Definition ask {A} (f : W -> A) : M (St W) A := fun st => Ret (f (world st)) st.

(** Calling a collaborator: the world moves on and the call is logged. *)
Definition call {A} (ev : Event) (f : W -> W * A) : M (St W) A :=
  fun st => Ret (snd (f (world st)))
                (mkSt (scan st) (fst (f (world st))) (log st ++ [ev]) (glob st)).

(** Running a computation on one locator of the descriptor. *)
Definition zoom {A} (getl : BTreeSeqScan -> BTreePageItemLocator)
    (setl : BTreePageItemLocator -> BTreeSeqScan -> BTreeSeqScan)
    (m : M BTreePageItemLocator A) : M (St W) A :=
  fun st =>
    let put l := mkSt (setl l (scan st)) (world st) (log st) (glob st) in
    match m (getl (scan st)) with
    | Ret a l => Ret a (put l)
    | Raise e l => Raise e (put l)
    | Timeout l => Timeout (put l)
    end.

(** *** Historical page reconstruction *)

Definition load_first_historical_page_body (l : HistLocals)
  : M (St W) (Ctl HistLocals unit) :=
  s <- get_scan ;;
  let header := deref_img s (hl_header l) in
  if COMMITSEQNO_IS_NORMAL ext (p_csn header) && (p_csn header >=? snapshotCsn s) then
    ex <- ask (fun w => UNDO_REC_EXISTS ext w (p_undoLocation header)) ;;
    if negb ex then raise ERRCODE_SNAPSHOT_TOO_OLD
    else
      r <- call (EvGetPageFromUndo (p_undoLocation header) (hl_key l))
             (fun w => get_page_from_undo ext w (p_undoLocation header) (hl_key l)
                         (hl_lokeyPtr l) (Some (hl_hikey l))) ;;
      upd (set_histImg (fst r)) ;;;
      let lokey := if hl_lokeyPtr l then snd r else hl_lokey l in
      let hikey := if negb (p_rightmost (fst r)) then Some (p_hikey (fst r)) else None in
      upd (set_haveHistImg true) ;;;
      if negb (O_TUPLE_IS_NULL lokey)
      then ret (Continue (mkHistLocals PtrHistImg lokey lokey false hikey))
      else ret (Continue (mkHistLocals PtrHistImg (hl_key l) lokey (hl_lokeyPtr l) hikey))
  else ret (Break l).

Definition load_first_historical_page (fuel : nat) : M (St W) unit :=
  upd (set_haveHistImg false) ;;;
  s <- get_scan ;;
  if negb (COMMITSEQNO_IS_NORMAL ext (snapshotCsn s)) then ret tt
  else
    let hikey := if negb (p_rightmost (leafImg s)) then Some (p_hikey (leafImg s)) else None in
    r <- while_loop fuel load_first_historical_page_body
           (mkHistLocals PtrLeafImg None None true hikey) ;;
    s <- get_scan ;;
    if negb (haveHistImg s) then ret tt
    else
      match r with
      | inl l =>
          match hl_lokey l with
          | Some lokey =>
              upd (fun s => set_histLoc
                     (page_locator_find_real_item (histImg s)
                        (btree_page_search ext (histImg s) lokey)) s)
          | None => upd (fun s => set_histLoc (BTREE_PAGE_LOCATOR_FIRST (histImg s)) s)
          end
      | inr _ => ret tt
      end.

Definition load_next_historical_page_body (prevHikey : Tuple) (header : ImgPtr)
  : M (St W) (Ctl ImgPtr unit) :=
  s <- get_scan ;;
  let hdr := deref_img s header in
  if COMMITSEQNO_IS_NORMAL ext (p_csn hdr) && (p_csn hdr >=? snapshotCsn s) then
    ex <- ask (fun w => UNDO_REC_EXISTS ext w (p_undoLocation hdr)) ;;
    if negb ex then raise ERRCODE_SNAPSHOT_TOO_OLD
    else
      r <- call (EvGetPageFromUndo (p_undoLocation hdr) (Some prevHikey))
             (fun w => get_page_from_undo ext w (p_undoLocation hdr) (Some prevHikey)
                         false None) ;;
      upd (set_histImg (fst r)) ;;;
      ret (Continue PtrHistImg)
  else ret (Break header).

Definition load_next_historical_page (fuel : nat) : M (St W) unit :=
  s <- get_scan ;;
  let prevHikey := p_hikey (histImg s) in
  _ <- while_loop (A := unit) fuel (load_next_historical_page_body prevHikey) PtrLeafImg ;;
  upd (fun s => set_histLoc (BTREE_PAGE_LOCATOR_FIRST (histImg s)) s).

(** *** Internal page walker *)

Definition set_first_page_loaded (s : BTreeSeqScan) : BTreeSeqScan :=
  match poscan s with
  | Some p =>
      set_poscan (Some (mkPoscan (Z.lor (flags p) (O_PARALLEL_FIRST_PAGE_LOADED ext))
                                 (worker_active p))) s
  | None => set_firstPageIsLoaded true s
  end.

Definition is_first_page_loaded (s : BTreeSeqScan) : bool :=
  match poscan s with
  | Some p => negb (Z.land (flags p) (O_PARALLEL_FIRST_PAGE_LOADED ext) =? 0)
  | None => firstPageIsLoaded s
  end.

Definition int_page_hikey (s : BTreeSeqScan) (page : Page) : OTuple :=
  if is_first_page_loaded s && negb (p_rightmost page)
  then Some (p_hikey page)
  else None.

(** [get_next_key (scan, &scan->intLoc, nextKey, page)]: the new locator
    and the key written to [*nextKey]. *)
Definition get_next_key (page : Page) (s : BTreeSeqScan) : OFixedKey * BTreeSeqScan :=
  let s1 := set_intLoc (BTREE_PAGE_LOCATOR_NEXT page (intLoc s)) s in
  if BTREE_PAGE_LOCATOR_IS_VALID page (intLoc s1)
  then (Some (it_tuple (page_read_item page (intLoc s1))), s1)
  else if negb (p_rightmost page) then (Some (p_hikey page), s1)
  else (None, s1).

(** [get_current_downlink_key]: the key written to [*curKey] and the
    downlink written to [*downlink]. *)
Definition get_current_downlink_key (s : BTreeSeqScan) (page : Page) : OFixedKey * Z :=
  let item := page_read_item page (intLoc s) in
  let curKey :=
    if negb (BTREE_PAGE_LOCATOR_GET_OFFSET page (intLoc s) =? intStartOffset s)%nat
    then Some (it_tuple item)
    else if negb (p_leftmost page) then prevHikey s
    else None in
  (curKey, it_downlink item).

Definition scan_make_iterator (keyRangeLow keyRangeHigh : OTuple) : M (St W) unit :=
  s <- get_scan ;;
  it <- call (EvIteratorCreate keyRangeLow (snapshotCsn s))
          (fun w => o_btree_iterator_create ext w (desc s) keyRangeLow (snapshotCsn s)) ;;
  upd (set_iter (Some it)) ;;;
  upd (set_leafLoc BTREE_PAGE_LOCATOR_SET_INVALID) ;;;
  upd (set_haveHistImg false) ;;;
  upd (set_iterEnd keyRangeHigh).

(** [load_next_internal_page] as the plain scan calls it: [page_in] and
    [page_out] are both [scan->context.img]. *)
Definition load_next_internal_page (fuel : nat) : M (St W) bool :=
  upd (fun s => set_ctx (mkContext
                  (Z.lor (ctx_flags (ctx s)) (BTREE_PAGE_FIND_DOWNLINK_LOCATION ext))
                  (ctx_img (ctx s)) (ctx_index (ctx s)) (ctx_items (ctx s))
                  (ctx_lokey (ctx s)) (ctx_imgReadCsn (ctx s))) s) ;;;
  s <- get_scan ;;
  upd (set_prevHikey (int_page_hikey s (ctx_img (ctx s)))) ;;;
  s <- get_scan ;;
  c <- call (EvFindPage (prevHikey s)) (fun w => find_page ext w (ctx s) (prevHikey s)) ;;
  upd (set_ctx c) ;;;
  upd set_first_page_loaded ;;;
  s <- get_scan ;;
  let page_out := ctx_img (ctx s) in
  if p_level page_out =? 1 then
    let loc := fi_locator (nth (ctx_index (ctx s)) (ctx_items (ctx s)) zero_find_item) in
    upd (set_intLoc loc) ;;;
    upd (set_intStartOffset (BTREE_PAGE_LOCATOR_GET_OFFSET page_out loc)) ;;;
    s <- get_scan ;;
    (match prevHikey s with
     | Some pk =>
         let intTup :=
           if (0 <? intStartOffset s)%nat
           then Some (BTREE_PAGE_READ_INTERNAL_TUPLE page_out (intLoc s))
           else ctx_lokey (ctx s) in
         match intTup with
         | None => raise ERR_NULL_TUPLE
         | Some it =>
             if negb (o_btree_cmp pk it =? 0) then
               upd (fun s => set_keyRangeHigh (fst (get_next_key page_out s))
                               (snd (get_next_key page_out s))) ;;;
               s <- get_scan ;;
               scan_make_iterator (prevHikey s) (keyRangeHigh s)
             else ret tt
         end
     | None => ret tt
     end) ;;;
    ret true
  else
    upd (set_leafImg page_out) ;;;
    upd (fun s => set_leafLoc (BTREE_PAGE_LOCATOR_FIRST (leafImg s)) s) ;;;
    upd (fun s => set_hint
           (mkHint (fi_blkno (nth 0%nat (ctx_items (ctx s)) zero_find_item))
                   (fi_pageChangeCount (nth 0%nat (ctx_items (ctx s)) zero_find_item))) s) ;;;
    upd (set_intLoc BTREE_PAGE_LOCATOR_SET_INVALID) ;;;
    upd (set_nextKey None) ;;;
    load_first_historical_page fuel ;;;
    ret false.

(** *** Disk downlink batcher *)

Definition add_on_disk_downlink (dl : Z) (c : CommitSeqNo) (s : BTreeSeqScan) : BTreeSeqScan :=
  let s1 := if downlinksCount s >=? allocatedDownlinks s
            then set_allocatedDownlinks (allocatedDownlinks s * 2) s
            else s in
  let s2 := set_diskDownlinks
              (array_store zero_disk_downlink (Z.to_nat (downlinksCount s1))
                 (mkDiskDownlink dl c) (diskDownlinks s1)) s1 in
  set_downlinksCount (downlinksCount s2 + 1) s2.

Definition cmp_downlinks (p1 p2 : BTreeSeqScanDiskDownlink) : Z :=
  let d1 := downlink p1 in
  let d2 := downlink p2 in
  if d1 <? d2 then -1
  else if d1 =? d2 then 0
  else 1.

Definition switch_to_disk_scan (s : BTreeSeqScan) : BTreeSeqScan :=
  let s1 := set_status BTreeSeqScanDisk s in
  let s2 := set_leafLoc BTREE_PAGE_LOCATOR_SET_INVALID s1 in
  let n := Z.to_nat (downlinksCount s2) in
  set_diskDownlinks
    (qsort cmp_downlinks (firstn n (diskDownlinks s2)) ++ skipn n (diskDownlinks s2)) s2.

(** [get_next_downlink]: [Some d] is a [true] result with [*downlink = d];
    the key range goes to [scan->keyRangeLow] and [scan->keyRangeHigh],
    the only targets the source passes. *)
Definition get_next_downlink_body (fuel : nat) (pageIsLoaded : bool)
  : M (St W) (Ctl bool (option Z)) :=
  loaded <-
    (if negb pageIsLoaded then
       has_next <- load_next_internal_page fuel ;;
       if negb has_next then
         upd (set_isSingleLeafPage true) ;;;
         upd (set_keyRangeLow None) ;;;
         upd (set_keyRangeHigh None) ;;;
         ret (Some (None : option Z))
       else
         s <- get_scan ;;
         match iter s with
         | Some _ => ret (Some None)
         | None => ret None
         end
     else ret None) ;;
  match loaded with
  | Some r => ret (Return r)
  | None =>
      s <- get_scan ;;
      if BTREE_PAGE_LOCATOR_IS_VALID (ctx_img (ctx s)) (intLoc s) then
        let kd := get_current_downlink_key s (ctx_img (ctx s)) in
        upd (set_keyRangeLow (fst kd)) ;;;
        upd (fun s => set_keyRangeHigh (fst (get_next_key (ctx_img (ctx s)) s))
                        (snd (get_next_key (ctx_img (ctx s)) s))) ;;;
        ret (Return (Some (snd kd)))
      else if p_rightmost (ctx_img (ctx s)) then ret (Return None)
      else ret (Continue false)
  end.

Definition get_next_downlink (fuel : nat) : M (St W) (option Z) :=
  s <- get_scan ;;
  match poscan s with
  | None =>
      r <- while_loop fuel (get_next_downlink_body fuel) (firstPageIsLoaded s) ;;
      match r with
      | inr d => ret d
      | inl _ => ret None
      end
  | Some _ =>
      fun st =>
        let r := get_next_downlink_parallel ext (world st) (scan st) in
        Ret (snd (snd r))
            (mkSt (fst (snd r)) (fst r) (log st ++ [EvParallelDownlink]) (glob st))
  end.

Definition check_in_memory_leaf_page (keyRangeLow keyRangeHigh : OTuple) : M (St W) unit :=
  s <- get_scan ;;
  let leafHikey := if negb (p_rightmost (leafImg s)) then Some (p_hikey (leafImg s)) else None in
  match keyRangeHigh, leafHikey with
  | None, None => ret tt
  | Some kh, Some lh =>
      if negb (o_btree_cmp kh lh =? 0)
      then scan_make_iterator keyRangeLow keyRangeHigh
      else ret tt
  | _, _ => scan_make_iterator keyRangeLow keyRangeHigh
  end.

(** The sampling arm of [iterate_internal_page]: whether the downlink is
    kept, and the advanced sampler. *)
Definition sample_downlink (s : BTreeSeqScan) : bool * BTreeSeqScan :=
  let r :=
    if samplingNumber s <? samplingNext s then (false, s)
    else
      match sampler s with
      | Some bs =>
          if BlockSampler_HasMore bs
          then (true, set_samplingNext (fst (BlockSampler_Next bs))
                        (set_sampler (Some (snd (BlockSampler_Next bs))) s))
          else (true, set_samplingNext InvalidBlockNumber s)
      | None => (true, set_samplingNext InvalidBlockNumber s)
      end in
  (fst r, set_samplingNumber (wrap32 (samplingNumber (snd r) + 1)) (snd r)).

Definition iterate_internal_page_body (fuel : nat) (_ : unit)
  : M (St W) (Ctl unit bool) :=
  d <- get_next_downlink fuel ;;
  match d with
  | None => ret (Break tt)
  | Some dl =>
      s <- get_scan ;;
      valid_downlink <-
        (match cb s with
         | Some (mkCallbacks (Some f) _) =>
             call (EvIsRangeValid (keyRangeLow s) (keyRangeHigh s))
               (fun w => call_isRangeValid ext f w (keyRangeLow s) (keyRangeHigh s))
         | _ =>
             if needSampling s then
               upd (fun s => snd (sample_downlink s)) ;;;
               ret (fst (sample_downlink s))
             else ret true
         end) ;;
      if valid_downlink then
        if DOWNLINK_IS_ON_DISK ext dl then
          upd (fun s => add_on_disk_downlink dl (ctx_imgReadCsn (ctx s)) s) ;;;
          ret (Continue tt)
        else if DOWNLINK_IS_IN_MEMORY ext dl then
          s <- get_scan ;;
          r <- call (EvTryReadPage (DOWNLINK_GET_IN_MEMORY_BLKNO ext dl)
                       (DOWNLINK_GET_IN_MEMORY_CHANGECOUNT ext dl))
                 (fun w => o_btree_try_read_page ext w
                             (DOWNLINK_GET_IN_MEMORY_BLKNO ext dl)
                             (DOWNLINK_GET_IN_MEMORY_CHANGECOUNT ext dl)
                             (ctx_imgReadCsn (ctx s))) ;;
          upd (set_leafImg (snd r)) ;;;
          match fst r with
          | ReadPageResultOK =>
              s <- get_scan ;;
              check_in_memory_leaf_page (keyRangeLow s) (keyRangeHigh s) ;;;
              s <- get_scan ;;
              match iter s with
              | Some _ => ret (Return true)
              | None =>
                  upd (set_hint (mkHint (DOWNLINK_GET_IN_MEMORY_BLKNO ext dl)
                                        (DOWNLINK_GET_IN_MEMORY_CHANGECOUNT ext dl))) ;;;
                  upd (fun s => set_leafLoc (BTREE_PAGE_LOCATOR_FIRST (leafImg s)) s) ;;;
                  upd (set_nextKey None) ;;;
                  load_first_historical_page fuel ;;;
                  ret (Return true)
              end
          | ReadPageResultFailed =>
              s <- get_scan ;;
              scan_make_iterator (keyRangeLow s) (keyRangeHigh s) ;;;
              ret (Return true)
          end
        else if DOWNLINK_IS_IN_IO ext dl then
          call (EvWaitForIO (DOWNLINK_GET_IO_LOCKNUM ext dl))
            (fun w => (wait_for_io_completion ext w (DOWNLINK_GET_IO_LOCKNUM ext dl), tt)) ;;;
          s <- get_scan ;;
          scan_make_iterator (keyRangeLow s) (keyRangeHigh s) ;;;
          ret (Return true)
        else ret (Continue tt)
      else ret (Continue tt)
  end.

Definition iterate_internal_page (fuel : nat) : M (St W) bool :=
  r <- while_loop fuel (iterate_internal_page_body fuel) tt ;;
  match r with
  | inr b => ret b
  | inl _ =>
      s <- get_scan ;;
      match iter s with
      | Some _ => ret true
      | None => ret false
      end
  end.

Definition load_next_disk_leaf_page (fuel : nat) : M (St W) bool :=
  s <- get_scan ;;
  if downlinkIndex s >=? downlinksCount s then ret false
  else
    let dl := nth (Z.to_nat (downlinkIndex s)) (diskDownlinks s) zero_disk_downlink in
    r <- call (EvReadPageFromDisk (downlink dl))
           (fun w => read_page_from_disk ext w (downlink dl)) ;;
    upd (set_leafImg (snd r)) ;;;
    s <- get_scan ;;
    (if p_csn (leafImg s) >=? csn dl then
       img <- call (EvReadPageFromUndo (p_undoLocation (leafImg s)) (csn dl))
                (fun w => read_page_from_undo ext w (leafImg s)
                            (p_undoLocation (leafImg s)) (csn dl)) ;;
       upd (set_leafImg img)
     else ret tt) ;;;
    if negb (fst r) then raise ERR_CAN_NOT_READ_LEAF_PAGE
    else
      upd (fun s => set_leafLoc (BTREE_PAGE_LOCATOR_FIRST (leafImg s)) s) ;;;
      upd (fun s => set_downlinkIndex (downlinkIndex s + 1) s) ;;;
      upd (set_hint (mkHint (OInvalidInMemoryBlkno ext) (InvalidOPageChangeCount ext))) ;;;
      upd (set_nextKey None) ;;;
      load_first_historical_page fuel ;;;
      ret true.

Definition single_leaf_page_rel (s : BTreeSeqScan) : bool :=
  match poscan s with
  | Some p => negb (Z.land (flags p) (O_PARALLEL_IS_SINGLE_LEAF_PAGE ext) =? 0)
  | None => isSingleLeafPage s
  end.

(** *** Scan creation *)

(** The first index [i] with [worker_active[i] != true]. *)
Fixpoint first_free_worker (l : list bool) : nat :=
  match l with
  | true :: l' => S (first_free_worker l')
  | _ => O
  end.

(** The recheck-retry loop that pins the checkpoint of the scan. *)
Definition pin_checkpoint_body (d : Z) (checkpointNumberBefore : Z)
  : M (St W) (Ctl Z unit) :=
  upd_glob (pg_atomic_fetch_add_u32 d
              (checkpointNumberBefore mod NUM_SEQ_SCANS_ARRAY_SIZE ext) 1) ;;;
  checkpointNumberAfter <-
    call (EvGetCurCheckpointNumber d) (fun w => get_cur_checkpoint_number ext w d) ;;
  if checkpointNumberAfter =? checkpointNumberBefore then
    upd (set_checkpointNumber checkpointNumberBefore) ;;;
    ret (Break checkpointNumberBefore)
  else
    upd_glob (pg_atomic_fetch_sub_u32 d
                (checkpointNumberBefore mod NUM_SEQ_SCANS_ARRAY_SIZE ext) 1) ;;;
    ret (Continue checkpointNumberAfter).

(** The descriptor as the sweep finds it behind its list node. *)
Definition sync_heap : M (St W) unit :=
  fun st => Ret tt (mkSt (scan st) (world st) (log st)
                      (heap_store (listNode (scan st)) (scan st) (glob st))).

(** [make_btree_seq_scan_internal]; the [scan] of the initial state is the
    fresh allocation, whose bytes are whatever the allocator left. *)
Definition make_btree_seq_scan_internal (fuel : nat) (d : Z) (c : CommitSeqNo)
    (cbs : option BTreeSeqScanCallbacks) (smp : option BlockSampler)
    (po : option ParallelOScanDesc) : M (St W) unit :=
  st <- get ;;
  upd (set_listNode (fst (MemoryContextAlloc (glob st)))) ;;;
  upd_glob (fun g => snd (MemoryContextAlloc g)) ;;;
  (match po with
   | Some p =>
       let n := first_free_worker (worker_active p) in
       upd (set_workerNumber (Z.of_nat n)) ;;;
       let p1 := mkPoscan (flags p) (<[n := true]> (worker_active p)) in
       if (n =? 0)%nat then
         upd (set_poscan (Some (mkPoscan (Z.lor (flags p1) (O_PARALLEL_LEADER_STARTED ext))
                                         (worker_active p1)))) ;;;
         upd (set_isLeader true)
       else upd (set_poscan (Some p1))
   | None =>
       upd (set_workerNumber (-1)) ;;;
       upd (set_isLeader true) ;;;
       upd (set_poscan None)
   end) ;;;
  upd (set_desc d) ;;;
  upd (set_snapshotCsn c) ;;;
  upd (set_status BTreeSeqScanInMemory) ;;;
  upd (set_allocatedDownlinks 16) ;;;
  upd (set_downlinksCount 0) ;;;
  upd (set_downlinkIndex 0) ;;;
  upd (set_diskDownlinks []) ;;;
  upd (set_iter None) ;;;
  upd (set_cb cbs) ;;;
  upd (set_firstPageIsLoaded false) ;;;
  upd (set_intStartOffset 0%nat) ;;;
  upd (set_samplingNumber 0) ;;;
  upd (set_sampler smp) ;;;
  (match smp with
   | Some bs =>
       upd (set_needSampling true) ;;;
       if BlockSampler_HasMore bs then
         upd (set_samplingNext (fst (BlockSampler_Next bs))) ;;;
         upd (set_sampler (Some (snd (BlockSampler_Next bs))))
       else upd (set_samplingNext InvalidBlockNumber)
   | None =>
       upd (set_needSampling false) ;;;
       upd (set_samplingNext InvalidBlockNumber)
   end) ;;;
  upd (set_nextKey None) ;;;
  s <- get_scan ;;
  upd_glob (dlist_push_tail (listNode s)) ;;;
  sync_heap ;;;
  checkpointNumberBefore <-
    call (EvGetCurCheckpointNumber d) (fun w => get_cur_checkpoint_number ext w d) ;;
  _ <- while_loop (A := unit) fuel (pin_checkpoint_body d) checkpointNumberBefore ;;
  sync_heap ;;;
  upd (set_ctx (init_page_find_context ext d c
                  (Z.lor (Z.lor (BTREE_PAGE_FIND_IMAGE ext) (BTREE_PAGE_FIND_KEEP_LOKEY ext))
                         (BTREE_PAGE_FIND_READ_CSN ext)))) ;;;
  upd (set_prevHikey None) ;;;
  upd (set_keyRangeHigh None) ;;;
  upd (set_keyRangeLow None) ;;;
  upd (set_isSingleLeafPage false) ;;;
  b <- iterate_internal_page fuel ;;
  s <- get_scan ;;
  if negb b && negb (single_leaf_page_rel s) then
    upd switch_to_disk_scan ;;;
    ok <- load_next_disk_leaf_page fuel ;;
    if negb ok then upd (set_status BTreeSeqScanFinished) else ret tt
  else ret tt.

Definition make_btree_seq_scan (fuel : nat) (d : Z) (c : CommitSeqNo)
    (po : option ParallelOScanDesc) : M (St W) unit :=
  make_btree_seq_scan_internal fuel d c None None po.

Definition make_btree_seq_scan_cb (fuel : nat) (d : Z) (c : CommitSeqNo)
    (cbs : option BTreeSeqScanCallbacks) : M (St W) unit :=
  make_btree_seq_scan_internal fuel d c cbs None None.

Definition make_btree_sampling_scan (fuel : nat) (d : Z) (smp : option BlockSampler)
  : M (St W) unit :=
  make_btree_seq_scan_internal fuel d (COMMITSEQNO_INPROGRESS ext) None smp None.

(** *** Fallback iterator *)

(** The callers test [scan->iter] before the call. *)
Definition btree_seq_scan_get_tuple_from_iterator : M (St W) (option TupleOut) :=
  s <- get_scan ;;
  match iter s with
  | None => ret None
  | Some it =>
      r <- call (EvIteratorFetch it (iterEnd s))
             (fun w => o_btree_iterator_fetch ext w it (iterEnd s)) ;;
      match fst (fst r) with
      | None => upd (set_iter None) ;;; ret None
      | Some t => ret (Some (t, snd (fst r), snd r))
      end
  end.

(** *** Key-skip callback *)

Definition adjust_chunk_body (nextKey : Tuple) (p : Page) (_ : unit)
  : M BTreePageItemLocator (Ctl unit bool) :=
  loc <- get ;;
  if Z.of_nat (chunkOffset loc) =? Z.of_nat (chunksCount p) - 1 then ret (Break tt)
  else
    let key := chunk_hikey (page_chunk p (chunkOffset loc)) in
    if o_btree_cmp key nextKey >? 0 then ret (Break tt)
    else
      modify (fun loc => mkLoc (chunkOffset loc) (chunkItemsCount loc) (chunkItemsCount loc)) ;;;
      loc <- get ;;
      if fst (page_locator_next_chunk p loc) then
        modify (fun loc => snd (page_locator_next_chunk p loc)) ;;;
        ret (Continue tt)
      else
        modify (fun _ => BTREE_PAGE_LOCATOR_SET_INVALID) ;;;
        ret (Return false).

Definition adjust_item_body (nextKey : Tuple) (p : Page) (_ : unit)
  : M BTreePageItemLocator (Ctl unit bool) :=
  loc <- get ;;
  if negb (BTREE_PAGE_LOCATOR_IS_VALID p loc) then ret (Break tt)
  else
    let cmp := o_btree_cmp (BTREE_PAGE_READ_LEAF_TUPLE p loc) nextKey in
    if cmp =? 0 then ret (Return true)
    else if cmp >? 0 then ret (Break tt)
    else
      modify (BTREE_PAGE_LOCATOR_NEXT p) ;;;
      ret (Continue tt).

(** [adjust_location_with_next_key (scan, p, loc)] with
    [scan->nextKey.tuple = nextKey], as a computation on [*loc]. *)
Definition adjust_location_with_next_key (fuel : nat) (nextKey : Tuple) (p : Page)
  : M BTreePageItemLocator bool :=
  loc <- get ;;
  if negb (BTREE_PAGE_LOCATOR_IS_VALID p loc) then ret false
  else
    let cmp := o_btree_cmp (BTREE_PAGE_READ_LEAF_TUPLE p loc) nextKey in
    if cmp =? 0 then ret true
    else if cmp >? 0 then ret false
    else
      r <- while_loop fuel (adjust_chunk_body nextKey p) tt ;;
      match r with
      | inr b => ret b
      | inl _ =>
          r2 <- while_loop fuel (adjust_item_body nextKey p) tt ;;
          match r2 with
          | inr b => ret b
          | inl _ => ret false
          end
      end.

(** The smaller of the keys under the two cursors, null when neither
    cursor is valid. *)
Definition apply_next_key_proposal (s : BTreeSeqScan) : OTuple :=
  let key :=
    if BTREE_PAGE_LOCATOR_IS_VALID (leafImg s) (leafLoc s)
    then Some (BTREE_PAGE_READ_LEAF_TUPLE (leafImg s) (leafLoc s))
    else None in
  if haveHistImg s && BTREE_PAGE_LOCATOR_IS_VALID (histImg s) (histLoc s) then
    match key with
    | None => Some (BTREE_PAGE_READ_LEAF_TUPLE (histImg s) (histLoc s))
    | Some k =>
        let histKey := BTREE_PAGE_READ_LEAF_TUPLE (histImg s) (histLoc s) in
        if o_btree_cmp k histKey >? 0 then Some histKey else Some k
    end
  else key.

(** One iteration of the loop of [apply_next_key]; [f] is
    [scan->cb->getNextKey], which the callers test before the call. *)
Definition apply_next_key_body (fuel : nat) (f : Z) (_ : unit)
  : M (St W) (Ctl unit unit) :=
  s <- get_scan ;;
  let key := apply_next_key_proposal s in
  upd (set_nextKey key) ;;;
  match key with
  | None =>
      upd (set_leafLoc BTREE_PAGE_LOCATOR_SET_INVALID) ;;;
      ret (Return tt)
  | Some k =>
      r <- call (EvGetNextKey k) (fun w => call_getNextKey ext f w k true) ;;
      upd (set_nextKey (Some (snd r))) ;;;
      if negb (fst r) then
        upd (set_leafLoc BTREE_PAGE_LOCATOR_SET_INVALID) ;;;
        ret (Return tt)
      else
        s <- get_scan ;;
        leafResult <- zoom leafLoc set_leafLoc
                        (adjust_location_with_next_key fuel (snd r) (leafImg s)) ;;
        found <-
          (if haveHistImg s then
             histResult <- zoom histLoc set_histLoc
                             (adjust_location_with_next_key fuel (snd r) (histImg s)) ;;
             ret (leafResult || histResult)
           else ret leafResult) ;;
        if found then ret (Return tt)
        else
          s <- get_scan ;;
          if negb (BTREE_PAGE_LOCATOR_IS_VALID (leafImg s) (leafLoc s)) &&
             negb (haveHistImg s && BTREE_PAGE_LOCATOR_IS_VALID (histImg s) (histLoc s))
          then ret (Return tt)
          else ret (Continue tt)
  end.

Definition apply_next_key (fuel : nat) (f : Z) : M (St W) unit :=
  _ <- while_loop fuel (apply_next_key_body fuel f) tt ;;
  ret tt.

(** [scan->cb && scan->cb->getNextKey]. *)
Definition scan_getNextKey (s : BTreeSeqScan) : option Z :=
  match cb s with
  | Some c => getNextKey c
  | None => None
  end.

(** *** get-next-tuple *)

(** The loop [while (!BTREE_PAGE_LOCATOR_IS_VALID(scan->histImg, &scan->histLoc))]. *)
Definition hist_page_body (fuel : nat) (_ : unit) : M (St W) (Ctl unit unit) :=
  s <- get_scan ;;
  if BTREE_PAGE_LOCATOR_IS_VALID (histImg s) (histLoc s) then ret (Break tt)
  else if p_rightmost (histImg s) then
    upd (set_haveHistImg false) ;;;
    ret (Break tt)
  else if negb (p_rightmost (leafImg s)) &&
          (o_btree_cmp (p_hikey (histImg s)) (p_hikey (leafImg s)) >=? 0) then
    upd (set_haveHistImg false) ;;;
    ret (Break tt)
  else
    load_next_historical_page fuel ;;;
    ret (Continue tt).

(** The loop [while (scan->haveHistImg)]: one step of the merge of the
    historical image with the current one. *)
Definition hist_merge_body (fuel : nat) (_ : unit) : M (St W) (Ctl unit TupleOut) :=
  s <- get_scan ;;
  if negb (haveHistImg s) then ret (Break tt)
  else
    _ <- while_loop (A := unit) fuel (hist_page_body fuel) tt ;;
    s <- get_scan ;;
    if negb (haveHistImg s) then ret (Break tt)
    else
      (match scan_getNextKey s with
       | Some f => apply_next_key fuel f
       | None => ret tt
       end) ;;;
      s <- get_scan ;;
      if negb (BTREE_PAGE_LOCATOR_IS_VALID (histImg s) (histLoc s)) then ret (Continue tt)
      else
        let histTuple := BTREE_PAGE_READ_LEAF_TUPLE (histImg s) (histLoc s) in
        stop <-
          (if negb (BTREE_PAGE_LOCATOR_IS_VALID (leafImg s) (leafLoc s)) then
             if negb (p_rightmost (leafImg s)) &&
                (o_btree_cmp histTuple (p_hikey (leafImg s)) >=? 0) then
               upd (set_haveHistImg false) ;;;
               ret true
             else ret false
           else
             let tuphdr := page_read_item (leafImg s) (leafLoc s) in
             let cmp := o_btree_cmp histTuple (it_tuple tuphdr) in
             if cmp >? 0 then ret true
             else if cmp =? 0 then
               cur <- ask (fun w => XACT_INFO_OXID_IS_CURRENT ext w (it_xactInfo tuphdr)) ;;
               if cur then
                 upd (fun s => set_histLoc (BTREE_PAGE_LOCATOR_NEXT (histImg s) (histLoc s)) s) ;;;
                 ret true
               else
                 upd (fun s => set_leafLoc (BTREE_PAGE_LOCATOR_NEXT (leafImg s) (leafLoc s)) s) ;;;
                 ret false
             else ret false) ;;
        if stop then ret (Break tt)
        else
          s <- get_scan ;;
          r <- call (EvFindTupleVersion (snapshotCsn s))
                 (fun w => o_find_tuple_version ext w (histImg s) (histLoc s) (snapshotCsn s)) ;;
          upd (fun s => set_histLoc (BTREE_PAGE_LOCATOR_NEXT (histImg s) (histLoc s)) s) ;;;
          match fst r with
          | Some t => ret (Return (t, snd r, hint s))
          | None => ret (Continue tt)
          end.

(** The block [if (scan->status == BTreeSeqScanInMemory)] that get-next
    runs when the leaf cursor is exhausted: [Some] is a tuple to return. *)
Definition next_in_memory_leaf (fuel : nat) : M (St W) (option TupleOut) :=
  s <- get_scan ;;
  if status_eqb (status s) BTreeSeqScanInMemory then
    b <- iterate_internal_page fuel ;;
    if b then
      s <- get_scan ;;
      match iter s with
      | Some _ => btree_seq_scan_get_tuple_from_iterator
      | None => ret None
      end
    else
      upd switch_to_disk_scan ;;;
      ret None
  else ret None.

(** The block [if (scan->status == BTreeSeqScanDisk)] that follows it:
    [false] when the batch is exhausted and the scan is finished. *)
Definition next_disk_leaf (fuel : nat) : M (St W) bool :=
  s <- get_scan ;;
  if status_eqb (status s) BTreeSeqScanDisk then
    ok <- load_next_disk_leaf_page fuel ;;
    if negb ok then
      upd (set_status BTreeSeqScanFinished) ;;;
      ret false
    else ret true
  else ret true.

Definition getnext_body (fuel : nat) (_ : unit) : M (St W) (Ctl unit (option TupleOut)) :=
  h <- while_loop fuel (hist_merge_body fuel) tt ;;
  match h with
  | inr t => ret (Return (Some t))
  | inl _ =>
      s <- get_scan ;;
      (match scan_getNextKey s with
       | Some f =>
           if BTREE_PAGE_LOCATOR_IS_VALID (leafImg s) (leafLoc s)
           then apply_next_key fuel f
           else ret tt
       | None => ret tt
       end) ;;;
      s <- get_scan ;;
      if negb (BTREE_PAGE_LOCATOR_IS_VALID (leafImg s) (leafLoc s)) then
        t <- next_in_memory_leaf fuel ;;
        match t with
        | Some t => ret (Return (Some t))
        | None =>
            more <- next_disk_leaf fuel ;;
            if more then ret (Continue tt) else ret (Return None)
        end
      else
        r <- call (EvFindTupleVersion (snapshotCsn s))
               (fun w => o_find_tuple_version ext w (leafImg s) (leafLoc s) (snapshotCsn s)) ;;
        upd (fun s => set_leafLoc (BTREE_PAGE_LOCATOR_NEXT (leafImg s) (leafLoc s)) s) ;;;
        match fst r with
        | Some t => ret (Return (Some (t, snd r, hint s)))
        | None => ret (Continue tt)
        end
  end.

Definition btree_seq_scan_getnext_internal (fuel : nat) : M (St W) (option TupleOut) :=
  s <- get_scan ;;
  t <- (match iter s with
        | Some _ => btree_seq_scan_get_tuple_from_iterator
        | None => ret None
        end) ;;
  match t with
  | Some t => ret (Some t)
  | None =>
      r <- while_loop fuel (getnext_body fuel) tt ;;
      match r with
      | inr t => ret t
      | inl _ => ret None
      end
  end.

Definition btree_seq_scan_getnext (fuel : nat) : M (St W) (option TupleOut) :=
  s <- get_scan ;;
  if status_eqb (status s) BTreeSeqScanInMemory || status_eqb (status s) BTreeSeqScanDisk
  then btree_seq_scan_getnext_internal fuel
  else ret None.

(** *** get-next-tuple-raw *)

Definition btree_seq_scan_get_tuple_from_iterator_raw
  : M (St W) (OTuple * bool * BTreeLocationHint) :=
  s <- get_scan ;;
  match iter s with
  | None => ret (None, true, hint s)
  | Some it =>
      r <- call (EvIterateRaw it (iterEnd s))
             (fun w => btree_iterate_raw ext w it (iterEnd s)) ;;
      (if snd (fst r) then upd (set_iter None) else ret tt) ;;;
      ret r
  end.

(** What the raw scan hands back: the tuple and [*hint]. *)
Definition RawOut : Type := OTuple * BTreeLocationHint.

Definition getnext_raw_body (fuel : nat) (_ : unit) : M (St W) (Ctl unit RawOut) :=
  s <- get_scan ;;
  if BTREE_PAGE_LOCATOR_IS_VALID (leafImg s) (leafLoc s) then ret (Break tt)
  else
    t <-
      (if status_eqb (status s) BTreeSeqScanInMemory then
         b <- iterate_internal_page fuel ;;
         if b then
           s <- get_scan ;;
           match iter s with
           | Some _ =>
               r <- btree_seq_scan_get_tuple_from_iterator_raw ;;
               if negb (snd (fst r)) then ret (Some (fst (fst r), snd r)) else ret None
           | None => ret None
           end
         else
           upd switch_to_disk_scan ;;;
           ret None
       else ret None) ;;
    match t with
    | Some o => ret (Return o)
    | None =>
        more <- next_disk_leaf fuel ;;
        s <- get_scan ;;
        if more then ret (Continue tt) else ret (Return (None, hint s))
    end.

Definition btree_seq_scan_getnext_raw_internal (fuel : nat) : M (St W) RawOut :=
  s <- get_scan ;;
  t <- (match iter s with
        | Some _ =>
            r <- btree_seq_scan_get_tuple_from_iterator_raw ;;
            if negb (snd (fst r)) then ret (Some (fst (fst r), snd r)) else ret None
        | None => ret None
        end) ;;
  match t with
  | Some o => ret o
  | None =>
      r <- while_loop fuel (getnext_raw_body fuel) tt ;;
      match r with
      | inr o => ret o
      | inl _ =>
          s <- get_scan ;;
          let tupHdr := page_read_item (leafImg s) (leafLoc s) in
          upd (fun s => set_leafLoc (BTREE_PAGE_LOCATOR_NEXT (leafImg s) (leafLoc s)) s) ;;;
          if negb (it_deleted tupHdr)
          then ret (Some (it_tuple tupHdr), hint s)
          else ret (None, hint s)
      end
  end.

(** [btree_seq_scan_getnext_raw]: the tuple, [*end] and [*hint]. *)
Definition btree_seq_scan_getnext_raw (fuel : nat)
  : M (St W) (OTuple * bool * BTreeLocationHint) :=
  s <- get_scan ;;
  if status_eqb (status s) BTreeSeqScanInMemory || status_eqb (status s) BTreeSeqScanDisk
  then
    o <- btree_seq_scan_getnext_raw_internal fuel ;;
    s <- get_scan ;;
    if status_eqb (status s) BTreeSeqScanInMemory || status_eqb (status s) BTreeSeqScanDisk
    then ret (fst o, false, snd o)
    else ret (None, true, snd o)
  else ret (None, true, hint s).

(** *** Teardown *)

Definition free_btree_seq_scan : M (St W) unit :=
  s <- get_scan ;;
  upd_glob (dlist_delete (listNode s)) ;;;
  upd_glob (pg_atomic_fetch_sub_u32 (desc s)
              (checkpointNumber s mod NUM_SEQ_SCANS_ARRAY_SIZE ext) 1) ;;;
  upd_glob (pfree (listNode s)).

Definition seq_scans_cleanup_body (_ : unit) : M (St W) (Ctl unit unit) :=
  st <- get ;;
  match listOfScans (glob st) with
  | [] => ret (Break tt)
  | a :: _ =>
      (match scanHeap (glob st) !! a with
       | Some sc =>
           match poscan sc with
           | None =>
               upd_glob (pg_atomic_fetch_sub_u32 (desc sc)
                           (checkpointNumber sc mod NUM_SEQ_SCANS_ARRAY_SIZE ext) 1)
           | Some _ => ret tt
           end
       | None => ret tt
       end) ;;;
      upd_glob (dlist_delete a) ;;;
      upd_glob (pfree a) ;;;
      ret (Continue tt)
  end.

Definition seq_scans_cleanup (fuel : nat) : M (St W) unit :=
  _ <- while_loop (A := unit) fuel seq_scans_cleanup_body tt ;;
  upd_glob (fun g => mkGlobals [] (scanHeap g) (numSeqScans g) (nextAddr g)).

End Scan.

(** ** Assertions on outcomes *)

(** [sat o Q X]: a returned value and its state satisfy [Q]; the state of
    an error ([Some e]) or of an exhausted iteration bound ([None])
    satisfies [X]. *)
Definition sat {T A} (o : Outcome T A) (Q : A -> T -> Prop)
    (X : option ErrCode -> T -> Prop) : Prop :=
  match o with
  | Ret a s => Q a s
  | Raise e s => X (Some e) s
  | Timeout s => X None s
  end.

(** The order of the scan phases. *)
Definition status_rank (x : BTreeSeqScanStatus) : Z :=
  match x with
  | BTreeSeqScanInMemory => 0
  | BTreeSeqScanDisk => 1
  | BTreeSeqScanFinished => 2
  end.

Definition status_le (a b : BTreeSeqScanStatus) : Prop := status_rank a <= status_rank b.

(** [hoare P m Q X]: from a state that satisfies [P], a returned value
    and its state satisfy [Q] and the state of any other outcome [X]. *)
Definition hoare {T A} (P : T -> Prop) (m : M T A) (Q : A -> T -> Prop)
    (X : option ErrCode -> T -> Prop) : Prop :=
  forall s, P s -> sat (m s) Q X.

(** [inv I X m]: [m] keeps the invariant [I] when it returns. *)
Definition inv {T A} (I : T -> Prop) (X : option ErrCode -> T -> Prop) (m : M T A) : Prop :=
  hoare I m (fun _ => I) X.

(** The scan is a plain one and its phase is [k] or a later one. *)
Definition phase_at_least {W} (k : BTreeSeqScanStatus) (st : St W) : Prop :=
  poscan (scan st) = None /\ status_le k (status (scan st)).

(** ** A static tree, for the concrete runs

    A world in which nothing changes but the position of the fallback
    iterator and the checkpoint number the checkpointer reports. *)

Record StaticTree := mkStaticTree {
  tree_find : OTuple -> OBTreeFindPageContext;  (* the page find_page locates *)
  tree_undo : UndoLocation -> option Page;      (* the undo record at a location *)
  tree_mem : Z -> Page;                         (* the in-memory page of a block *)
  tree_disk : Z -> option Page;                 (* the on-disk page at an address *)
  tree_iter : OTuple -> list Tuple              (* the tuples from a key onwards *)
}.

Record TestWorld := mkTestWorld {
  tw_iter : list Tuple;        (* what the open iterator still has to give *)
  tw_checkpoints : list Z      (* the checkpoint numbers to report, in turn *)
}.

Definition below_end (t : Tuple) (high : OTuple) : bool :=
  match high with
  | Some h => o_btree_cmp t h <? 0
  | None => true
  end.

Definition static_ext (t : StaticTree) : Externals TestWorld :=
  {| COMMITSEQNO_IS_NORMAL := fun c => 5 <=? c;
     COMMITSEQNO_INPROGRESS := 0;
     UNDO_REC_EXISTS := fun _ loc =>
       match tree_undo t loc with Some _ => true | None => false end;
     XACT_INFO_OXID_IS_CURRENT := fun _ x => x =? 1;
     DOWNLINK_IS_ON_DISK := fun d => 1000 <=? d;
     DOWNLINK_IS_IN_MEMORY := fun d => (0 <=? d) && (d <? 1000);
     DOWNLINK_IS_IN_IO := fun d => d <? 0;
     DOWNLINK_GET_IN_MEMORY_BLKNO := fun d => d;
     DOWNLINK_GET_IN_MEMORY_CHANGECOUNT := fun _ => 0;
     DOWNLINK_GET_IO_LOCKNUM := fun d => - d;
     NUM_SEQ_SCANS_ARRAY_SIZE := 32;
     OInvalidInMemoryBlkno := 4294967295;
     InvalidOPageChangeCount := 4294967295;
     BTREE_PAGE_FIND_DOWNLINK_LOCATION := 8;
     BTREE_PAGE_FIND_IMAGE := 1;
     BTREE_PAGE_FIND_KEEP_LOKEY := 2;
     BTREE_PAGE_FIND_READ_CSN := 4;
     O_PARALLEL_LEADER_STARTED := 1;
     O_PARALLEL_FIRST_PAGE_LOADED := 2;
     O_PARALLEL_IS_SINGLE_LEAF_PAGE := 4;
     init_page_find_context := fun _ c fl => mkContext fl zero_page 0 [] None c;
     find_page := fun w c key =>
       (w, mkContext (ctx_flags c) (ctx_img (tree_find t key)) (ctx_index (tree_find t key))
             (ctx_items (tree_find t key)) (ctx_lokey (tree_find t key))
             (ctx_imgReadCsn (tree_find t key)));
     btree_page_search := fun p _ => page_chunk_fill_locator p 0;
     o_btree_try_read_page := fun w blk _ _ => (w, (ReadPageResultOK, tree_mem t blk));
     read_page_from_disk := fun w d =>
       match tree_disk t d with
       | Some p => (w, (true, p))
       | None => (w, (false, zero_page))
       end;
     wait_for_io_completion := fun w _ => w;
     get_page_from_undo := fun w loc _ _ _ =>
       (w, (default zero_page (tree_undo t loc), None));
     read_page_from_undo := fun w img loc _ => (w, default img (tree_undo t loc));
     o_find_tuple_version := fun w p loc _ =>
       (w, (if BTREE_PAGE_LOCATOR_IS_VALID p loc && negb (it_deleted (page_read_item p loc))
            then Some (it_tuple (page_read_item p loc)) else None, p_csn p));
     o_btree_iterator_create := fun w _ low _ =>
       (mkTestWorld (tree_iter t low) (tw_checkpoints w), 7);
     o_btree_iterator_fetch := fun w _ high =>
       match tw_iter w with
       | x :: rest =>
           if below_end x high
           then (mkTestWorld rest (tw_checkpoints w), (Some x, 5, mkHint 0 0))
           else (w, (None, 0, mkHint 0 0))
       | [] => (w, (None, 0, mkHint 0 0))
       end;
     btree_iterate_raw := fun w _ high =>
       match tw_iter w with
       | x :: rest =>
           if below_end x high
           then (mkTestWorld rest (tw_checkpoints w), (Some x, false, mkHint 0 0))
           else (w, (None, true, mkHint 0 0))
       | [] => (w, (None, true, mkHint 0 0))
       end;
     call_isRangeValid := fun _ w _ _ => (w, true);
     call_getNextKey := fun f w k _ => (w, (true, mkTuple (Z.max (t_key k) f) 0));
     get_cur_checkpoint_number := fun w _ =>
       match tw_checkpoints w with
       | c :: rest => (mkTestWorld (tw_iter w) rest, c)
       | [] => (w, 0)
       end;
     get_next_downlink_parallel := fun w s => (w, (s, None))
  |}.

(** The bytes of a fresh allocation, all zero here. *)
Definition zero_scan : BTreeSeqScan :=
  mkScan 0 zero_page zero_page 0 (mkContext 0 zero_page 0 [] None 0) None (mkHint 0 0)
    (mkLoc 0 0 0) 0 (mkLoc 0 0 0) false (mkLoc 0 0 0) BTreeSeqScanInMemory [] 0 0 0
    None None 0 0 None false None 0 0 None false None None false None false 0.

Definition empty_globals : Globals := mkGlobals [] ∅ ∅ 100.

Definition test_state (sc : BTreeSeqScan) : St TestWorld :=
  mkSt sc (mkTestWorld [] []) [] empty_globals.

(** A leaf page of one chunk holding the given (key, data) pairs. *)
Definition leaf_item (kv : Z * Z) : PageItem := mkItem (mkTuple (fst kv) (snd kv)) 0 0 false.

Definition leaf_page (c : CommitSeqNo) (undo : UndoLocation) (kvs : list (Z * Z)) : Page :=
  mkPage 0 true true c undo zero_tuple [mkChunk zero_tuple (map leaf_item kvs)].

(** A tree that is a single leaf page. *)
Definition single_leaf_tree (p : Page) : StaticTree :=
  mkStaticTree (fun _ => mkContext 0 p 0 [mkFindItem (mkLoc 0 0 0) 1 0] None 10)
    (fun _ => None) (fun _ => zero_page) (fun _ => None) (fun _ => []).

Definition status_after {W A} (m : M (St W) A) (st : St W) : BTreeSeqScanStatus :=
  status (scan (outcome_state (m st))).

(** A scan of the two-tuple single-leaf tree, at snapshot 7. *)
Definition two_tuple_leaf : Page := leaf_page 3 0 [(1, 10); (2, 20)].

Definition two_tuple_scan : St TestWorld :=
  outcome_state
    (make_btree_seq_scan (static_ext (single_leaf_tree two_tuple_leaf)) 5 1 7 None
       (test_state zero_scan)).

(** ** Well-formed pages and locators *)

(** Every chunk but the last has items, all of them below its high key. *)
Fixpoint chunks_wf (cs : list PageChunk) : bool :=
  match cs with
  | [] => true
  | c :: cs' =>
      match cs' with
      | [] => true
      | _ :: _ =>
          negb (Nat.eqb (length (chunk_items c)) 0) &&
          forallb (fun it => t_key (it_tuple it) <? t_key (chunk_hikey c)) (chunk_items c) &&
          chunks_wf cs'
      end
  end.

Definition page_wf (p : Page) : Prop := chunks_wf (p_chunks p) = true.

(** A locator that points into the page it is used with. *)
Definition loc_wf (p : Page) (loc : BTreePageItemLocator) : Prop :=
  (chunkOffset loc < chunksCount p)%nat /\
  chunkItemsCount loc = length (chunk_items (page_chunk p (chunkOffset loc))).

(** The items from position [i] of chunk [c] to the end of the page. *)
Definition rem_from (p : Page) (c i : nat) : list PageItem :=
  skipn i (chunk_items (page_chunk p c)) ++
  concat (map chunk_items (skipn (S c) (p_chunks p))).

Definition item_key (it : PageItem) : Z := t_key (it_tuple it).

(** The first item of a list, if any, has a key at or above [k]. *)
Definition head_at_least (k : Z) (l : list PageItem) : Prop :=
  match l with
  | [] => True
  | it :: _ => k <= item_key it
  end.

(** [skipped_below k p loc loc']: moving the cursor of [p] from [loc] to
    [loc'] passes over items with keys below [k] only, and stops on the
    first item at or above [k] or at the end of the page. *)
Definition skipped_below (k : Z) (p : Page) (loc loc' : BTreePageItemLocator) : Prop :=
  exists skipped,
    loc_remaining p loc = skipped ++ loc_remaining p loc' /\
    Forall (fun it => item_key it < k) skipped /\
    head_at_least k (loc_remaining p loc').

(** A cursor is settled when it is on an item or nothing is left. *)
Definition settled (p : Page) (loc : BTreePageItemLocator) : Prop :=
  BTREE_PAGE_LOCATOR_IS_VALID p loc = true \/
  (BTREE_PAGE_LOCATOR_IS_VALID p loc = false /\
   rem_from p (chunkOffset loc) (itemOffset loc) = []).

Definition rem_at (p : Page) (loc : BTreePageItemLocator) : list PageItem :=
  rem_from p (chunkOffset loc) (itemOffset loc).

Definition all_below (k : Z) (l : list PageItem) : Prop :=
  Forall (fun it => item_key it < k) l.

(** What the item loop of the key-skip search returns: [inr true] on an
    item with the key itself, [inl tt] in front of a greater key or at
    the end of the page. *)
Definition item_loop_result (k : Z) (r : unit + bool) (l : list PageItem) : Prop :=
  match r with
  | inr true => exists it rest, l = it :: rest /\ item_key it = k
  | inr false => False
  | inl _ => head_at_least k l
  end.

(** A leaf of two chunks, keys 1 3 | 5 8 9, and a scan that has it both
    as current and as historical image, with a key-skip callback. *)
Definition two_chunk_page : Page :=
  mkPage 0 true true 3 0 zero_tuple
    [mkChunk (mkTuple 5 0) (map leaf_item [(1, 10); (3, 30)]);
     mkChunk zero_tuple (map leaf_item [(5, 50); (8, 80); (9, 90)])].

Definition key_skip_state : St TestWorld :=
  test_state
    (set_haveHistImg true
       (set_histLoc (BTREE_PAGE_LOCATOR_FIRST two_chunk_page)
          (set_histImg two_chunk_page
             (set_leafLoc (BTREE_PAGE_LOCATOR_FIRST two_chunk_page)
                (set_leafImg two_chunk_page
                   (set_cb (Some (mkCallbacks None (Some 8))) zero_scan)))))).

(** ** The disk phase *)

(** The addresses handed to [read_page_from_disk], in the order of the calls. *)
Definition disk_reads (l : list Event) : list Z :=
  flat_map (fun e => match e with EvReadPageFromDisk d => [d] | _ => [] end) l.

(** The scan is past the in-memory phase with the batch [D]; since the
    reads [base] that were made before, it has read the first
    [downlinkIndex] addresses of [D], in that order. *)
Definition disk_phase {W} (D : list BTreeSeqScanDiskDownlink) (base : list Z) (st : St W)
  : Prop :=
  poscan (scan st) = None /\
  status (scan st) <> BTreeSeqScanInMemory /\
  diskDownlinks (scan st) = D /\
  downlinksCount (scan st) = Z.of_nat (length D) /\
  0 <= downlinkIndex (scan st) <= downlinksCount (scan st) /\
  disk_reads (log st) = base ++ firstn (Z.to_nat (downlinkIndex (scan st))) (map downlink D).

(** The reads made since [base] are the first addresses of [D], in order. *)
Definition disk_reads_in_order {W} (D : list BTreeSeqScanDiskDownlink) (base : list Z)
    (st : St W) : Prop :=
  exists n, disk_reads (log st) = base ++ firstn n (map downlink D).

Definition downlink_le (a b : BTreeSeqScanDiskDownlink) : Prop := downlink a <= downlink b.

(** A scan about to leave the in-memory phase with four batched downlinks. *)
Definition four_downlinks : list BTreeSeqScanDiskDownlink :=
  [mkDiskDownlink 9 11; mkDiskDownlink 2 12; mkDiskDownlink 7 13; mkDiskDownlink 2 14].

Definition four_downlinks_state : St TestWorld :=
  test_state (set_downlinksCount 4 (set_diskDownlinks four_downlinks zero_scan)).

(** ** Historical page reconstruction *)

(** The undo locations handed to [get_page_from_undo], in call order. *)
Definition undo_fetches (l : list Event) : list UndoLocation :=
  flat_map (fun e => match e with EvGetPageFromUndo loc _ => [loc] | _ => [] end) l.

(** The test of the reconstruction loops: the image's commit marker is
    normal and not below the snapshot token. *)
Definition needs_older_version {W} (ext : Externals W) (snap : CommitSeqNo) (p : Page) : bool :=
  COMMITSEQNO_IS_NORMAL ext (p_csn p) && (p_csn p >=? snap).

(** The image the reconstruction has reached: the historical one once
    there is one, the current leaf before. *)
Definition reached_image (s : BTreeSeqScan) : Page :=
  if haveHistImg s then histImg s else leafImg s.

(** How a reconstruction that starts from [st] may end in [st'] after at
    most [fuel] fetches. *)
Definition reconstruction_outcome {W} (ext : Externals W) (fuel : nat) (img : BTreeSeqScan -> Page)
    (st : St W) {A} (o : Outcome (St W) A) : Prop :=
  sat o
    (fun _ st' => needs_older_version ext (snapshotCsn (scan st)) (img (scan st')) = false)
    (fun e st' =>
       match e with
       | Some e =>
           e = ERRCODE_SNAPSHOT_TOO_OLD /\
           needs_older_version ext (snapshotCsn (scan st)) (img (scan st')) = true /\
           UNDO_REC_EXISTS ext (world st') (p_undoLocation (img (scan st'))) = false
       | None =>
           length (undo_fetches (log st')) = (length (undo_fetches (log st)) + fuel)%nat
       end).

(** A leaf whose commit marker equals the snapshot token 7 and whose undo
    record is gone. *)
Definition marker_equals_token_state : St TestWorld :=
  test_state (set_snapshotCsn 7 (set_leafImg (leaf_page 7 1 [(1, 10)]) zero_scan)).

(** ** Merging the historical image with the current one *)

(** Both cursors are on an item and the two items have the same key. *)
Definition key_collision (s : BTreeSeqScan) : Prop :=
  iter s = None /\ scan_getNextKey s = None /\ haveHistImg s = true /\
  BTREE_PAGE_LOCATOR_IS_VALID (histImg s) (histLoc s) = true /\
  BTREE_PAGE_LOCATOR_IS_VALID (leafImg s) (leafLoc s) = true /\
  o_btree_cmp (BTREE_PAGE_READ_LEAF_TUPLE (histImg s) (histLoc s))
              (BTREE_PAGE_READ_LEAF_TUPLE (leafImg s) (leafLoc s)) = 0.

(** Key 5 in both images: data 100 in the current leaf (written by the
    transaction with [xactInfo]), data 50 in the historical image. *)
Definition collision_state (xactInfo : Z) : St TestWorld :=
  let leaf := mkPage 0 true true 9 1 zero_tuple
                [mkChunk zero_tuple [mkItem (mkTuple 5 100) 0 xactInfo false]] in
  let hist := leaf_page 3 0 [(5, 50)] in
  test_state
    (set_snapshotCsn 7
       (set_haveHistImg true
          (set_histLoc (BTREE_PAGE_LOCATOR_FIRST hist)
             (set_histImg hist
                (set_leafLoc (BTREE_PAGE_LOCATOR_FIRST leaf)
                   (set_leafImg leaf zero_scan)))))).

(** The tuple of an outcome of get-next-tuple, if one was returned. *)
Definition returned_tuple {T} (o : Outcome T (option TupleOut)) : option Tuple :=
  match o with
  | Ret (Some (t, _, _)) _ => Some t
  | _ => None
  end.

(** The merge rule with the preference the other way round: on a key
    collision the entry of the current image is resolved, unless it was
    written by the scan's own transaction, in which case the entry of the
    historical image is.  Kept to compare with the rule of
    [btree_seq_scan_getnext_internal]. *)
Definition merge_prefers_current {W} (ext : Externals W) (fuel : nat) (st : St W) : Prop :=
  key_collision (scan st) ->
  let s := scan st in
  let own := XACT_INFO_OXID_IS_CURRENT ext (world st)
               (it_xactInfo (page_read_item (leafImg s) (leafLoc s))) in
  let img := if own then histImg s else leafImg s in
  let loc := if own then histLoc s else leafLoc s in
  returned_tuple (btree_seq_scan_getnext_internal ext (S fuel) st) =
    fst (snd (o_find_tuple_version ext (world st) img loc (snapshotCsn s))).

(** ** Checkpoint pins *)

(** The pin counter of tree [d] for the checkpoint of the scan in [st]. *)
Definition pin_count {W} (ext : Externals W) (d : Z) (st : St W) : Z :=
  read_numSeqScans (glob st) d (checkpointNumber (scan st) mod NUM_SEQ_SCANS_ARRAY_SIZE ext).

(** A scan of tree 1 created by the leader of a parallel scan, with one
    worker slot, and a plain scan of the same tree. *)
Definition parallel_scan : St TestWorld :=
  outcome_state
    (make_btree_seq_scan (static_ext (single_leaf_tree two_tuple_leaf)) 5 1 7
       (Some (mkPoscan 0 [false])) (test_state zero_scan)).

Definition plain_scan : St TestWorld :=
  outcome_state
    (make_btree_seq_scan (static_ext (single_leaf_tree two_tuple_leaf)) 5 1 7
       None (test_state zero_scan)).

(** ** The fallback iterator after a left-bound mismatch *)

(** What [find_page] answers when [load_next_internal_page] runs in [st]. *)
Definition located {W} (ext : Externals W) (st : St W) : W * OBTreeFindPageContext :=
  let s := scan st in
  find_page ext (world st)
    (mkContext (Z.lor (ctx_flags (ctx s)) (BTREE_PAGE_FIND_DOWNLINK_LOCATION ext))
       (ctx_img (ctx s)) (ctx_index (ctx s)) (ctx_items (ctx s))
       (ctx_lokey (ctx s)) (ctx_imgReadCsn (ctx s)))
    (int_page_hikey ext s (ctx_img (ctx s))).

(** The locator of the downlink found on the located page. *)
Definition located_loc (c : OBTreeFindPageContext) : BTreePageItemLocator :=
  fi_locator (nth (ctx_index c) (ctx_items c) zero_find_item).

(** The left bound of the key range found: the key of the downlink, or the
    low key of the page for its first downlink. *)
Definition left_bound (c : OBTreeFindPageContext) : OTuple :=
  if (0 <? BTREE_PAGE_LOCATOR_GET_OFFSET (ctx_img c) (located_loc c))%nat
  then Some (BTREE_PAGE_READ_INTERNAL_TUPLE (ctx_img c) (located_loc c))
  else ctx_lokey c.

(** The key after a locator of an internal page, as [get_next_key] gives it. *)
Definition key_after (page : Page) (loc : BTreePageItemLocator) : OTuple :=
  let next := BTREE_PAGE_LOCATOR_NEXT page loc in
  if BTREE_PAGE_LOCATOR_IS_VALID page next
  then Some (it_tuple (page_read_item page next))
  else if negb (p_rightmost page) then Some (p_hikey page)
  else None.

(** A plain scan whose next internal page is a level-1 page with a left
    bound other than the high key [pk] of the page before. *)
Definition left_bound_mismatch {W} (ext : Externals W) (st : St W) (pk : Tuple) : Prop :=
  poscan (scan st) = None /\
  int_page_hikey ext (scan st) (ctx_img (ctx (scan st))) = Some pk /\
  p_level (ctx_img (snd (located ext st))) = 1 /\
  exists it, left_bound (snd (located ext st)) = Some it /\ o_btree_cmp pk it <> 0.

(** An internal page with the downlinks of the keys 12 and 20; the page
    before it ended at key 10. *)
Definition mismatch_page : Page :=
  mkPage 1 false true 3 0 zero_tuple
    [mkChunk zero_tuple [mkItem (mkTuple 12 0) 3 0 false; mkItem (mkTuple 20 0) 4 0 false]].

Definition mismatch_tree : StaticTree :=
  mkStaticTree
    (fun _ => mkContext 0 mismatch_page 0 [mkFindItem (mkLoc 0 0 2) 1 0] (Some (mkTuple 12 0)) 10)
    (fun _ => None) (fun _ => zero_page) (fun _ => None)
    (fun _ => [mkTuple 10 1; mkTuple 11 1; mkTuple 20 2]).

Definition mismatch_state : St TestWorld :=
  test_state
    (set_firstPageIsLoaded true
       (set_snapshotCsn 7
          (set_ctx (mkContext 0 (mkPage 1 true false 3 0 (mkTuple 10 0) []) 0 [] None 10)
             zero_scan))).

(** ** Scans with a snapshot token that is not normal *)

(** A plain scan whose snapshot token is not normal and whose log holds
    the fetches [U] of [get_page_from_undo]. *)
Definition quiet {W} (ext : Externals W) (U : list UndoLocation) (st : St W) : Prop :=
  poscan (scan st) = None /\
  COMMITSEQNO_IS_NORMAL ext (snapshotCsn (scan st)) = false /\
  undo_fetches (log st) = U.

(** Such a scan without a historical image. *)
Definition no_hist {W} (ext : Externals W) (U : list UndoLocation) (st : St W) : Prop :=
  quiet ext U st /\ haveHistImg (scan st) = false.

(** Such a scan during its creation: with an iterator open or the single
    leaf found, there is no historical image. *)
Definition hist_settled {W} (ext : Externals W) (U : list UndoLocation) (st : St W) : Prop :=
  quiet ext U st /\
  (haveHistImg (scan st) = false \/
   (iter (scan st) = None /\ isSingleLeafPage (scan st) = false)).

(** Such a scan between two operations: unless it is finished, there is
    no historical image. *)
Definition no_hist_unless_finished {W} (ext : Externals W) (U : list UndoLocation)
    (st : St W) : Prop :=
  quiet ext U st /\
  (status (scan st) <> BTreeSeqScanFinished -> haveHistImg (scan st) = false).

(** An error that is not "snapshot too old", in a state with the fetches [U]. *)
Definition not_too_old {W} (U : list UndoLocation) (e : option ErrCode) (st : St W) : Prop :=
  e <> Some ERRCODE_SNAPSHOT_TOO_OLD /\ undo_fetches (log st) = U.

(** A tree whose root is an internal page with one downlink, to a leaf on
    disk (address 1000) written at commit marker 12, after the root image
    was read at 10; the undo record 1 holds the leaf as it was before. *)
Definition disk_leaf_root : Page :=
  mkPage 1 true true 3 0 zero_tuple [mkChunk zero_tuple [mkItem (mkTuple 1 0) 1000 0 false]].

Definition disk_leaf_tree : StaticTree :=
  mkStaticTree
    (fun _ => mkContext 0 disk_leaf_root 0 [mkFindItem (mkLoc 0 0 1) 1 0] None 10)
    (fun loc => if loc =? 1 then Some (leaf_page 3 0 [(1, 10)]) else None)
    (fun _ => zero_page)
    (fun d => if d =? 1000 then Some (leaf_page 12 1 [(1, 11)]) else None)
    (fun _ => []).

(** A sampling scan of that tree whose sampler selects no block, created
    in memory whose [haveHistImg] byte is set, and one whose sampler
    selects the first block. *)
Definition empty_sample_scan : St TestWorld :=
  outcome_state
    (make_btree_sampling_scan (static_ext disk_leaf_tree) 5 1 (Some [])
       (test_state (set_haveHistImg true zero_scan))).

Definition first_block_sample_scan : St TestWorld :=
  outcome_state
    (make_btree_sampling_scan (static_ext disk_leaf_tree) 5 1 (Some [0])
       (test_state zero_scan)).

(** ** Trees of a single leaf page *)

(** A world whose tree is one leaf page: whatever key is looked up,
    [find_page] ends on a leaf that is the rightmost page. *)
Definition single_leaf_world {W} (ext : Externals W) : Prop :=
  forall w c key,
    p_level (ctx_img (snd (find_page ext w c key))) = 0 /\
    p_rightmost (ctx_img (snd (find_page ext w c key))) = true.

(** A plain scan that has found the tree to be a single leaf: the page
    located is the rightmost one and the walk of the internal pages is
    over, there is no fallback iterator and no batched downlink left, and
    the log holds the reads from disk [D].  With [direct], the scan is not
    in the disk phase either. *)
Definition on_single_leaf {W} (D : list Z) (direct : bool) (st : St W) : Prop :=
  poscan (scan st) = None /\
  isSingleLeafPage (scan st) = true /\
  firstPageIsLoaded (scan st) = true /\
  BTREE_PAGE_LOCATOR_IS_VALID (ctx_img (ctx (scan st))) (intLoc (scan st)) = false /\
  p_rightmost (ctx_img (ctx (scan st))) = true /\
  iter (scan st) = None /\
  downlinksCount (scan st) <= downlinkIndex (scan st) /\
  disk_reads (log st) = D /\
  (direct = true -> status (scan st) <> BTreeSeqScanDisk).

(** A state, reached by an error or an exhausted iteration bound, in
    which the log holds the reads from disk [D]. *)
Definition no_disk_read {W} (D : list Z) (e : option ErrCode) (st : St W) : Prop :=
  disk_reads (log st) = D.

(** A plain scan under creation, before its first page is located. *)
Definition being_created {W} (D : list Z) (st : St W) : Prop :=
  poscan (scan st) = None /\
  iter (scan st) = None /\
  firstPageIsLoaded (scan st) = false /\
  downlinksCount (scan st) = 0 /\
  downlinkIndex (scan st) = 0 /\
  status (scan st) = BTreeSeqScanInMemory /\
  disk_reads (log st) = D.

(** A plain scan in the in-memory phase whose current leaf is the page
    [find_page] located, the rightmost one, read from its first item on. *)
Definition leaf_located {W} (D : list Z) (st : St W) : Prop :=
  poscan (scan st) = None /\
  iter (scan st) = None /\
  firstPageIsLoaded (scan st) = true /\
  downlinksCount (scan st) = 0 /\
  downlinkIndex (scan st) = 0 /\
  status (scan st) = BTreeSeqScanInMemory /\
  disk_reads (log st) = D /\
  BTREE_PAGE_LOCATOR_IS_VALID (ctx_img (ctx (scan st))) (intLoc (scan st)) = false /\
  p_rightmost (ctx_img (ctx (scan st))) = true /\
  leafImg (scan st) = ctx_img (ctx (scan st)) /\
  leafLoc (scan st) = BTREE_PAGE_LOCATOR_FIRST (leafImg (scan st)).

(** The scan as its creation leaves it on a tree of a single leaf. *)
Definition scans_leaf_directly {W} (D : list Z) (st : St W) : Prop :=
  leaf_located D st /\ isSingleLeafPage (scan st) = true.

(** The scan of the two-tuple single-leaf tree once both tuples have been
    returned. *)
Definition drained_leaf_scan : St TestWorld :=
  outcome_state
    (btree_seq_scan_getnext (static_ext (single_leaf_tree two_tuple_leaf)) 5
       (outcome_state
          (btree_seq_scan_getnext (static_ext (single_leaf_tree two_tuple_leaf)) 5
             two_tuple_scan))).

(** ** The registry of scans and the checkpoint pins *)

(** A plain scan with the registry and the counters [g], whose
    descriptor keeps its tree [d], its checkpoint number [cp] and its list
    node [a]. *)
Definition registry_kept {W} (g : Globals) (d cp a : Z) (st : St W) : Prop :=
  poscan (scan st) = None /\
  glob st = g /\
  desc (scan st) = d /\
  checkpointNumber (scan st) = cp /\
  listNode (scan st) = a.

(** Every pin counter holds a 32-bit value. *)
Definition counters_in_range (g : Globals) : Prop :=
  forall d s, 0 <= read_numSeqScans g d s < 4294967296.

(** The counters of [g'] are those of [g], but for the counter of
    [(d, slot)], to which [delta] was added. *)
Definition counters_bumped (g g' : Globals) (d slot delta : Z) : Prop :=
  forall d' s',
    read_numSeqScans g' d' s' =
      if (d' =? d) && (s' =? slot)
      then wrap32 (read_numSeqScans g d' s' + delta)
      else read_numSeqScans g d' s'.

(** A plain scan of tree [d], created when the registry was [g0]: it is
    the last of the registered scans, under the address the allocator
    gave, it holds one pin, on the counter of its checkpoint number, and
    the descriptor behind its list node tells the tree and the checkpoint
    number. *)
Definition registered_and_pinned {W} (ext : Externals W) (g0 : Globals) (d : Z) (st : St W)
  : Prop :=
  poscan (scan st) = None /\
  desc (scan st) = d /\
  listNode (scan st) = nextAddr g0 /\
  listOfScans (glob st) = listOfScans g0 ++ [nextAddr g0] /\
  counters_bumped g0 (glob st) d
    (checkpointNumber (scan st) mod NUM_SEQ_SCANS_ARRAY_SIZE ext) 1 /\
  exists sc, scanHeap (glob st) !! nextAddr g0 = Some sc /\
             poscan sc = None /\ desc sc = d /\
             checkpointNumber sc = checkpointNumber (scan st).

(** The scan that creation has allocated and is filling in, before and
    after it is registered: the counters read as in [g0]. *)
Definition being_registered {W} (g0 : Globals) (d : Z) (registered : bool) (st : St W) : Prop :=
  poscan (scan st) = None /\
  desc (scan st) = d /\
  listNode (scan st) = nextAddr g0 /\
  listOfScans (glob st) =
    (if registered then listOfScans g0 ++ [nextAddr g0] else listOfScans g0) /\
  forall d' s', read_numSeqScans (glob st) d' s' = read_numSeqScans g0 d' s'.

(** The same scan once the loop of creation has settled on the
    checkpoint number [cp]. *)
Definition pin_taken {W} (ext : Externals W) (g0 : Globals) (d cp : Z) (st : St W) : Prop :=
  poscan (scan st) = None /\
  desc (scan st) = d /\
  listNode (scan st) = nextAddr g0 /\
  listOfScans (glob st) = listOfScans g0 ++ [nextAddr g0] /\
  checkpointNumber (scan st) = cp /\
  counters_bumped g0 (glob st) d (cp mod NUM_SEQ_SCANS_ARRAY_SIZE ext) 1.

(** A failure of creation leaves the scan registered and pinned; an
    exhausted iteration bound is not followed further. *)
Definition failed_but_pinned {W} (ext : Externals W) (g0 : Globals) (d : Z)
    (e : option ErrCode) (st : St W) : Prop :=
  match e with
  | Some _ => registered_and_pinned ext g0 d st
  | None => True
  end.

(** The number of pins that the plain scans among [scs] hold on the
    counter [(d, slot)]. *)
Fixpoint pins_held {W} (ext : Externals W) (scs : list BTreeSeqScan) (d slot : Z) : Z :=
  match scs with
  | [] => 0
  | sc :: rest =>
      (match poscan sc with
       | None =>
           if (desc sc =? d) && (checkpointNumber sc mod NUM_SEQ_SCANS_ARRAY_SIZE ext =? slot)
           then 1 else 0
       | Some _ => 0
       end) + pins_held ext rest d slot
  end.

(** The descriptors behind the list nodes [l], in the order of the list. *)
Definition registered_scans (g : Globals) (l : list Z) : list BTreeSeqScan :=
  flat_map (fun a => match scanHeap g !! a with Some sc => [sc] | None => [] end) l.

(** A registry as the scans leave it: no node is on the list twice and a
    descriptor stands behind each. *)
Definition registry_wf (g : Globals) : Prop :=
  List.NoDup (listOfScans g) /\
  forall a, In a (listOfScans g) -> exists sc, scanHeap g !! a = Some sc.

(** A registry of two scans of tree 1 at checkpoint 0, a plain one and
    one of a parallel scan, each holding a pin. *)
Definition two_scans_registry : Globals :=
  mkGlobals [100; 101]
    (<[100 := set_desc 1 zero_scan]>
       (<[101 := set_poscan (Some (mkPoscan 0 [true])) (set_desc 1 zero_scan)]> ∅))
    (<[(1, 0) := 2]> ∅) 102.

(** ** The batch of on-disk downlinks *)

(** The batch of a plain scan fits its array: the array has room, the
    entries collected are within it and all written, and the read
    position is within the entries collected. *)
Definition downlinks_fit {W} (st : St W) : Prop :=
  poscan (scan st) = None /\
  0 < allocatedDownlinks (scan st) /\
  0 <= downlinkIndex (scan st) <= downlinksCount (scan st) /\
  downlinksCount (scan st) <= allocatedDownlinks (scan st) /\
  Z.of_nat (length (diskDownlinks (scan st))) = downlinksCount (scan st).

(** ** Key ranges of the downlinks of a page *)

(** A plain scan on a loaded level-1 page of two downlinks, at the first. *)
Definition two_downlinks_state : St TestWorld :=
  test_state
    (set_firstPageIsLoaded true
       (set_intLoc (mkLoc 0 0 2)
          (set_ctx (mkContext 0 mismatch_page 0 [] None 10) zero_scan))).

(** ** The end of the batch and a failed read *)

(** A plain scan in the disk phase, its leaf exhausted, whose batch holds
    one address, at read position [i]. *)
Definition one_address_state (i : Z) : St TestWorld :=
  test_state
    (set_status BTreeSeqScanDisk
       (set_diskDownlinks [mkDiskDownlink 1000 0]
          (set_downlinksCount 1
             (set_downlinkIndex i (set_allocatedDownlinks 16 zero_scan))))).

(** ** The lookups of the internal pages *)

(** The keys handed to [find_page], in call order. *)
Definition find_lookups (l : list Event) : list OTuple :=
  flat_map (fun e => match e with EvFindPage k => [k] | _ => [] end) l.

(** A plain scan that has loaded a first page; since the lookups [L] it
    has made one more, with the key [k], which it keeps as the high key of
    the page before. *)
Definition looked_up {W} (L : list OTuple) (k : OTuple) (st : St W) : Prop :=
  poscan (scan st) = None /\
  firstPageIsLoaded (scan st) = true /\
  prevHikey (scan st) = k /\
  find_lookups (log st) = L ++ [k].

(** ** Page reads from disk and the phase of the scan *)

(** A plain scan which, if it is still in its in-memory phase, has made
    the page reads [R] from disk and no other. *)
Definition memory_phase_reads {W} (R : list Z) (st : St W) : Prop :=
  poscan (scan st) = None /\
  (status (scan st) = BTreeSeqScanInMemory -> disk_reads (log st) = R).

(** * Properties *)

(** ** Rules for invariants *)

Lemma sat_weaken {T A} (o : Outcome T A) (Q Q' : A -> T -> Prop) (X X' : option ErrCode -> T -> Prop) :
  sat o Q X -> (forall a s, Q a s -> Q' a s) -> (forall e s, X e s -> X' e s) -> sat o Q' X'.
Proof. destruct o; simpl; auto. Qed.

Lemma sat_bind {T A B} (m : M T A) (k : A -> M T B) s Q X :
  sat (m s) (fun a s' => sat (k a s') Q X) X -> sat (bind m k s) Q X.
Proof. unfold bind. destruct (m s); simpl; auto. Qed.

Lemma sat_state {T A} (o : Outcome T A) (I : T -> Prop) :
  sat o (fun _ s => I s) (fun _ s => I s) -> I (outcome_state o).
Proof. destruct o; simpl; auto. Qed.

Section InvRules.

Context {T : Type} (I : T -> Prop) (X : option ErrCode -> T -> Prop).

Lemma inv_ret {A} (a : A) : inv I X (ret a).
Proof. intros s H. exact H. Qed.

Lemma inv_raise {A} e : (forall s, I s -> X (Some e) s) -> inv I X (@raise T A e).
Proof. intros He s H. apply He, H. Qed.

Lemma inv_bind {A B} (m : M T A) (k : A -> M T B) :
  inv I X m -> (forall a, inv I X (k a)) -> inv I X (bind m k).
Proof.
  intros Hm Hk s H. apply sat_bind. eapply sat_weaken; [apply Hm, H | | auto].
  intros a s' H'. apply Hk, H'.
Qed.

Lemma inv_get_bind {B} (k : T -> M T B) :
  (forall s0, I s0 -> inv I X (k s0)) -> inv I X (bind get k).
Proof. intros Hk s H. unfold bind, get. apply Hk; assumption. Qed.

Lemma inv_modify (f : T -> T) : (forall s, I s -> I (f s)) -> inv I X (modify f).
Proof. intros Hf s H. apply Hf, H. Qed.

Lemma inv_while {L A} fuel (body : L -> M T (Ctl L A)) l :
  (forall s, I s -> X None s) -> (forall l, inv I X (body l)) ->
  inv I X (while_loop fuel body l).
Proof.
  intros HE Hb. revert l. induction fuel as [|n IH]; intros l.
  - intros s H. simpl. apply HE, H.
  - simpl. apply inv_bind; [apply Hb|].
    intros [l'|l'|a]; [apply IH | apply inv_ret | apply inv_ret].
Qed.

End InvRules.

Section InvSt.

Context {W : Type} (I : St W -> Prop) (X : option ErrCode -> St W -> Prop).

Lemma inv_get_scan_bind {B} (k : BTreeSeqScan -> M (St W) B) :
  (forall st0, I st0 -> inv I X (k (scan st0))) -> inv I X (bind get_scan k).
Proof. intros Hk s H. unfold bind, get_scan. apply Hk; assumption. Qed.

Lemma inv_upd f :
  (forall st, I st -> I (mkSt (f (scan st)) (world st) (log st) (glob st))) ->
  inv I X (upd f).
Proof. intros Hf s H. apply Hf, H. Qed.

Lemma inv_upd_glob f :
  (forall st, I st -> I (mkSt (scan st) (world st) (log st) (f (glob st)))) ->
  inv I X (upd_glob f).
Proof. intros Hf s H. apply Hf, H. Qed.

Lemma inv_ask {A} (f : W -> A) : inv I X (ask f).
Proof. intros s H. exact H. Qed.

Lemma inv_ask_bind {A B} (f : W -> A) (k : A -> M (St W) B) :
  (forall st0, I st0 -> inv I X (k (f (world st0)))) -> inv I X (bind (ask f) k).
Proof. intros Hk s H. unfold bind, ask. apply Hk; assumption. Qed.

Lemma inv_call {A} ev (f : W -> W * A) :
  (forall st, I st -> I (mkSt (scan st) (fst (f (world st))) (log st ++ [ev]) (glob st))) ->
  inv I X (call ev f).
Proof. intros Hf s H. apply Hf, H. Qed.

Lemma inv_call_bind {A B} ev (f : W -> W * A) (k : A -> M (St W) B) :
  (forall st, I st -> I (mkSt (scan st) (fst (f (world st))) (log st ++ [ev]) (glob st))) ->
  (forall st0, I st0 -> inv I X (k (snd (f (world st0))))) ->
  inv I X (bind (call ev f) k).
Proof. intros Hf Hk s H. unfold bind, call. apply Hk; [exact H | apply Hf, H]. Qed.

Lemma inv_zoom {A} getl setl (m : M BTreePageItemLocator A) :
  (forall st l, I st -> I (mkSt (setl l (scan st)) (world st) (log st) (glob st))) ->
  (forall l e l', m l <> Raise e l') -> (forall s, I s -> X None s) ->
  inv I X (zoom getl setl m).
Proof.
  intros Hf He HN s H. unfold zoom. destruct (m (getl (scan s))) eqn:Hm; simpl; auto.
  exfalso. eapply He; eauto.
Qed.

End InvSt.

Lemma bind_of_ret {T A B} (m : M T A) (k : A -> M T B) s a s' :
  m s = Ret a s' -> bind m k s = k a s'.
Proof. intros H. unfold bind. rewrite H. reflexivity. Qed.

Lemma bind_of_raise {T A B} (m : M T A) (k : A -> M T B) s e s' :
  m s = Raise e s' -> bind m k s = Raise e s'.
Proof. intros H. unfold bind. rewrite H. reflexivity. Qed.

Lemma bind_of_timeout {T A B} (m : M T A) (k : A -> M T B) s s' :
  m s = Timeout s' -> bind m k s = Timeout s'.
Proof. intros H. unfold bind. rewrite H. reflexivity. Qed.

(** ** Rules for running a computation from a given state *)

Section SatRules.

Context {W : Type}.
Implicit Types (st : St W).

Lemma sat_ret {T A} (a : A) (s : T) Q X : Q a s -> sat (ret a s) Q X.
Proof. exact (fun H => H). Qed.

Lemma sat_raise {T A} e (s : T) (Q : A -> T -> Prop) X : X (Some e) s -> sat (raise e s) Q X.
Proof. exact (fun H => H). Qed.

Lemma sat_get {T} (s : T) Q X : Q s s -> sat (get s) Q X.
Proof. exact (fun H => H). Qed.

Lemma sat_modify {T} (f : T -> T) (s : T) Q X : Q tt (f s) -> sat (modify f s) Q X.
Proof. exact (fun H => H). Qed.

Lemma sat_get_scan st Q X : Q (scan st) st -> sat (get_scan st) Q X.
Proof. exact (fun H => H). Qed.

Lemma sat_upd f st Q X :
  Q tt (mkSt (f (scan st)) (world st) (log st) (glob st)) -> sat (upd f st) Q X.
Proof. exact (fun H => H). Qed.

Lemma sat_upd_glob f st Q X :
  Q tt (mkSt (scan st) (world st) (log st) (f (glob st))) -> sat (upd_glob f st) Q X.
Proof. exact (fun H => H). Qed.

Lemma sat_ask {A} (f : W -> A) st Q X : Q (f (world st)) st -> sat (ask f st) Q X.
Proof. exact (fun H => H). Qed.

Lemma sat_call {A} ev (f : W -> W * A) st Q X :
  Q (snd (f (world st))) (mkSt (scan st) (fst (f (world st))) (log st ++ [ev]) (glob st)) ->
  sat (call ev f st) Q X.
Proof. exact (fun H => H). Qed.

Lemma sat_zoom {A} getl setl (m : M BTreePageItemLocator A) st Q X :
  sat (m (getl (scan st)))
      (fun a l => Q a (mkSt (setl l (scan st)) (world st) (log st) (glob st)))
      (fun e l => X e (mkSt (setl l (scan st)) (world st) (log st) (glob st))) ->
  sat (zoom getl setl m st) Q X.
Proof. unfold zoom. destruct (m (getl (scan st))); simpl; auto. Qed.

End SatRules.

Lemma sat_while {T L A} (Inv : L -> T -> Prop) fuel (body : L -> M T (Ctl L A)) l s Q X :
  Inv l s ->
  (forall l s, Inv l s ->
     sat (body l s)
         (fun c s' => match c with
                      | Continue l' => Inv l' s'
                      | Break l' => Q (inl l') s'
                      | Return a => Q (inr a) s'
                      end) X) ->
  (forall l s, Inv l s -> X None s) ->
  sat (while_loop fuel body l s) Q X.
Proof.
  intros H Hb HX. revert l s H. induction fuel as [|n IH]; intros l s H; simpl.
  - apply HX with l. exact H.
  - apply sat_bind. eapply sat_weaken; [apply Hb, H | | auto].
    intros [l'|l'|a] s' H'; simpl; auto.
Qed.

Lemma sat_returns {T A} (o : Outcome T A) Q :
  sat o Q (fun _ _ => False) -> exists a s, o = Ret a s /\ Q a s.
Proof. destruct o; simpl; intros H; try contradiction. eauto. Qed.

Lemma sat_eq {T A} (o : Outcome T A) a s :
  sat o (fun a' s' => a' = a /\ s' = s) (fun _ _ => False) -> o = Ret a s.
Proof. destruct o; simpl; intros H; try contradiction. destruct H; subst. reflexivity. Qed.

Lemma sat_of_eq {T A} (o : Outcome T A) a s (Q : A -> T -> Prop) X :
  o = Ret a s -> Q a s -> sat o Q X.
Proof. intros -> H. exact H. Qed.

(** One step of a run: the head of the computation is a primitive. *)
Ltac sstep :=
  lazymatch goal with
  | |- sat (bind _ _ _) _ _ => apply sat_bind
  | |- sat (get_scan _) _ _ => apply sat_get_scan
  | |- sat (get _) _ _ => apply sat_get
  | |- sat (modify _ _) _ _ => apply sat_modify
  | |- sat (upd _ _) _ _ => apply sat_upd
  | |- sat (upd_glob _ _) _ _ => apply sat_upd_glob
  | |- sat (ask _ _) _ _ => apply sat_ask
  | |- sat (call _ _ _) _ _ => apply sat_call
  | |- sat (ret _ _) _ _ => apply sat_ret
  | |- sat (raise _ _) _ _ => apply sat_raise
  | |- sat (zoom _ _ _ _) _ _ => apply sat_zoom
  end;
  cbv beta zeta; cbn [scan world log glob fst snd].

Ltac ssteps := repeat sstep.

(** Reading a field of an updated descriptor. *)
Ltac scan_fields :=
  cbn [scan world log glob fst snd negb andb orb
       desc leafImg histImg snapshotCsn ctx prevHikey hint intLoc intStartOffset leafLoc haveHistImg histLoc status diskDownlinks downlinksCount downlinkIndex allocatedDownlinks iter iterEnd checkpointNumber listNode nextKey needSampling sampler samplingNumber samplingNext cb isSingleLeafPage keyRangeLow keyRangeHigh firstPageIsLoaded poscan isLeader workerNumber set_desc set_leafImg set_histImg set_snapshotCsn set_ctx set_prevHikey set_hint set_intLoc set_intStartOffset set_leafLoc set_haveHistImg set_histLoc set_status set_diskDownlinks set_downlinksCount set_downlinkIndex set_allocatedDownlinks set_iter set_iterEnd set_checkpointNumber set_listNode set_nextKey set_needSampling set_sampler set_samplingNumber set_samplingNext set_cb set_isSingleLeafPage set_keyRangeLow set_keyRangeHigh set_firstPageIsLoaded set_poscan set_isLeader set_workerNumber
       ctx_flags ctx_img ctx_index ctx_items ctx_lokey ctx_imgReadCsn].

(** Rewriting with the equations of the context that apply to the goal. *)
Ltac use_eqs :=
  repeat match goal with
         | H : ?x = _ |- context [?x] =>
             tryif is_var x then fail else rewrite H
         end.

Ltac head_of t :=
  lazymatch t with
  | ?f _ => head_of f
  | _ => t
  end.

(** Unfolding the function at the head of a run. *)
Ltac sunfold :=
  lazymatch goal with
  | |- sat (?m _) _ _ => let h := head_of m in unfold h at 1
  end.

(** Running as far as the primitives and the known tests lead. *)
Ltac srun :=
  repeat first
    [ sstep
    | progress unfold scan_getNextKey, BTREE_PAGE_READ_LEAF_TUPLE,
        BTREE_PAGE_READ_INTERNAL_TUPLE
    | progress scan_fields
    | progress use_eqs
    | progress cbn [while_loop Z.gtb Z.geb Z.eqb Z.ltb Z.leb Z.compare]
    | progress cbv beta iota ].

(** Case analysis on the test of the conditional at the head of a run. *)
Ltac scase :=
  lazymatch goal with
  | |- sat ((if ?b then _ else _) _) _ _ => destruct b eqn:?
  | |- sat ((match ?x with _ => _ end) _) _ _ => destruct x eqn:?
  | |- sat (bind (if ?b then _ else _) _ _) _ _ => destruct b eqn:?
  | |- sat (bind (match ?x with _ => _ end) _ _) _ _ => destruct x eqn:?
  end.

(** ** Runs that keep an invariant

    A run is followed statement by statement as with [sstep]; after each
    assignment or call the state reached is replaced by any state that
    satisfies the invariant, so that the tests of a branch are known of the
    very state they were made in. *)

Lemma sat_sync_heap {W} (st : St W) Q X :
  Q tt (mkSt (scan st) (world st) (log st) (heap_store (listNode (scan st)) (scan st) (glob st))) ->
  sat (sync_heap st) Q X.
Proof. exact (fun H => H). Qed.

Ltac abs_state Inv leaf forget :=
  lazymatch goal with
  | |- sat (_ ?s) _ _ =>
      tryif is_var s then idtac
      else (let H := fresh "HI" in
            assert (H : Inv s) by leaf;
            revert H; forget; generalize s; intros ? H)
  | |- _ => idtac
  end.

Ltac astep Inv contra leaf forget :=
  lazymatch goal with
  | |- sat (bind _ _ _) _ _ => apply sat_bind
  | |- sat (get_scan _) _ _ => apply sat_get_scan
  | |- sat (get _) _ _ => apply sat_get
  | |- sat (sync_heap _) _ _ => apply sat_sync_heap
  | |- sat (ask _ _) _ _ => apply sat_ask
  | |- sat (upd _ _) _ _ => apply sat_upd
  | |- sat (upd_glob _ _) _ _ => apply sat_upd_glob
  | |- sat (call _ _ _) _ _ => apply sat_call
  | |- sat (ret _ _) _ _ => apply sat_ret
  | |- sat (raise _ _) _ _ => apply sat_raise
  | |- sat ((if ?b then _ else _) _) _ _ => destruct b eqn:?; try (solve [exfalso; contra])
  | |- sat ((match ?x with _ => _ end) _) _ _ => destruct x eqn:?; try (solve [exfalso; contra])
  end;
  cbv beta zeta; cbn [fst snd];
  abs_state Inv leaf forget.

Ltac arun Inv contra leaf forget := repeat (astep Inv contra leaf forget).

(** Calling a function with a proved specification in the middle of a run. *)
Ltac scall lem pre xleaf :=
  eapply sat_weaken; [ apply lem; pre | cbv beta; intros ? ? ? | cbv beta; intros ? ? ?; xleaf ].

(** The key-skip search raises no error. *)

Lemma while_loop_no_raise {T L A} (body : L -> M T (Ctl L A)) :
  (forall l s e s', body l s <> Raise e s') ->
  forall fuel l s e s', while_loop fuel body l s <> Raise e s'.
Proof.
  intros Hb. induction fuel as [|n IH]; intros l s e s'; simpl; [discriminate|].
  unfold bind. destruct (body l s) as [c s1|e1 s1|s1] eqn:Hc.
  - destruct c; [apply IH | discriminate | discriminate].
  - exfalso. eapply Hb; eauto.
  - discriminate.
Qed.

Lemma adjust_chunk_body_no_raise k p u l e l' :
  adjust_chunk_body k p u l <> Raise e l'.
Proof.
  unfold adjust_chunk_body, bind, get, modify, ret.
  repeat match goal with |- context [if ?b then _ else _] => destruct b end; discriminate.
Qed.

Lemma adjust_item_body_no_raise k p u l e l' :
  adjust_item_body k p u l <> Raise e l'.
Proof.
  unfold adjust_item_body, bind, get, modify, ret.
  repeat match goal with |- context [if ?b then _ else _] => destruct b end; discriminate.
Qed.

Lemma adjust_location_no_raise fuel k p l e l' :
  adjust_location_with_next_key fuel k p l <> Raise e l'.
Proof.
  unfold adjust_location_with_next_key, bind, get, ret.
  repeat match goal with |- context [if ?b then _ else _] => destruct b end; try discriminate.
  destruct (while_loop fuel (adjust_chunk_body k p) tt l) as [r s1|e1 s1|s1] eqn:H1.
  - destruct r; [|discriminate].
    destruct (while_loop fuel (adjust_item_body k p) tt s1) as [r2 s2|e2 s2|s2] eqn:H2.
    + destruct r2; discriminate.
    + exfalso. eapply while_loop_no_raise; [|exact H2]. intros; apply adjust_item_body_no_raise.
    + discriminate.
  - exfalso. eapply while_loop_no_raise; [|exact H1]. intros; apply adjust_chunk_body_no_raise.
  - discriminate.
Qed.

Create HintDb scan_inv.

(** One syntax-directed step on a goal [inv I E m]: [contra] closes the
    branches the invariant excludes, [leaf] the obligations of the
    assignments and calls. *)
Ltac inv_step contra leaf :=
  cbv beta zeta;
  lazymatch goal with
  | |- inv _ _ (bind get_scan _) => apply inv_get_scan_bind; intros ? ?
  | |- inv _ _ (bind get _) => apply inv_get_bind; intros ? ?
  | |- inv _ _ (bind (ask _) _) => apply inv_ask_bind; intros ? ?
  | |- inv _ _ (bind (call _ _) _) => apply inv_call_bind; [ intros ? ?; leaf | intros ? ? ]
  | |- inv _ _ (bind _ _) => apply inv_bind; [ | intros ? ]
  | |- inv _ _ (ret _) => apply inv_ret
  | |- inv _ _ (raise _) => apply inv_raise; intros ? ?; leaf
  | |- inv _ _ (while_loop _ _ _) => apply inv_while; [ intros ? ?; leaf | intros ? ]
  | |- inv _ _ (upd _) => apply inv_upd; intros ? ?; leaf
  | |- inv _ _ (upd_glob _) => apply inv_upd_glob; intros ? ?; leaf
  | |- inv _ _ (ask _) => apply inv_ask
  | |- inv _ _ (call _ _) => apply inv_call; intros ? ?; leaf
  | |- inv _ _ (zoom _ _ _) =>
      apply inv_zoom;
      [ intros ? ? ?; leaf | intros ? ? ?; apply adjust_location_no_raise | intros ? ?; leaf ]
  | |- inv _ _ (if ?b then _ else _) => destruct b eqn:?; try (solve [exfalso; contra])
  | |- inv _ _ (match ?x with _ => _ end) => destruct x eqn:?; try (solve [exfalso; contra])
  | |- inv _ _ _ => solve [eauto with scan_inv]
  end.

Ltac inv_auto contra leaf := repeat (inv_step contra leaf).

Ltac split_ifs :=
  repeat match goal with
         | |- context [if ?b then _ else _] => destruct b eqn:?; simpl in *
         | |- context [match ?x with _ => _ end] => destruct x eqn:?; simpl in *
         end.

Ltac unfold_scan_updates :=
  unfold set_first_page_loaded, get_next_key, sample_downlink, add_on_disk_downlink,
    switch_to_disk_scan in *.

(** ** The scan phase only moves forward *)

Ltac phase_contra :=
  unfold phase_at_least in *;
  repeat match goal with H : _ /\ _ |- _ => destruct H end;
  congruence.

Ltac phase_leaf :=
  try assumption;
  unfold phase_at_least, status_le in *; simpl in *;
  repeat match goal with
         | H : _ /\ _ |- _ => destruct H
         | H : status_eqb ?a ?b = _ |- _ =>
             destruct a eqn:?; simpl in H; try discriminate H; clear H
         end;
  unfold_scan_updates; simpl in *;
  split_ifs; try congruence;
  (split; [ congruence || (simpl; auto) | simpl in *; try lia; auto ]).

Lemma load_first_historical_page_body_phase {W} (ext : Externals W) k l :
  inv (phase_at_least k) (fun _ => phase_at_least k) (load_first_historical_page_body ext l).
Proof. unfold load_first_historical_page_body. inv_auto phase_contra phase_leaf. Qed.
#[local] Hint Resolve load_first_historical_page_body_phase : scan_inv.

Lemma load_first_historical_page_phase {W} (ext : Externals W) k fuel :
  inv (phase_at_least k) (fun _ => phase_at_least k) (load_first_historical_page ext fuel).
Proof. unfold load_first_historical_page. inv_auto phase_contra phase_leaf. Qed.
#[local] Hint Resolve load_first_historical_page_phase : scan_inv.

Lemma load_next_historical_page_body_phase {W} (ext : Externals W) k pk hd :
  inv (phase_at_least k) (fun _ => phase_at_least k) (load_next_historical_page_body ext pk hd).
Proof. unfold load_next_historical_page_body. inv_auto phase_contra phase_leaf. Qed.
#[local] Hint Resolve load_next_historical_page_body_phase : scan_inv.

Lemma load_next_historical_page_phase {W} (ext : Externals W) k fuel :
  inv (phase_at_least k) (fun _ => phase_at_least k) (load_next_historical_page ext fuel).
Proof. unfold load_next_historical_page. inv_auto phase_contra phase_leaf. Qed.
#[local] Hint Resolve load_next_historical_page_phase : scan_inv.

Lemma scan_make_iterator_phase {W} (ext : Externals W) k lo hi :
  inv (phase_at_least k) (fun _ => phase_at_least k) (scan_make_iterator ext lo hi).
Proof. unfold scan_make_iterator. inv_auto phase_contra phase_leaf. Qed.
#[local] Hint Resolve scan_make_iterator_phase : scan_inv.

Lemma load_next_internal_page_phase {W} (ext : Externals W) k fuel :
  inv (phase_at_least k) (fun _ => phase_at_least k) (load_next_internal_page ext fuel).
Proof. unfold load_next_internal_page. inv_auto phase_contra phase_leaf. Qed.
#[local] Hint Resolve load_next_internal_page_phase : scan_inv.

Lemma get_next_downlink_body_phase {W} (ext : Externals W) k fuel b :
  inv (phase_at_least k) (fun _ => phase_at_least k) (get_next_downlink_body ext fuel b).
Proof. unfold get_next_downlink_body. inv_auto phase_contra phase_leaf. Qed.
#[local] Hint Resolve get_next_downlink_body_phase : scan_inv.

Lemma get_next_downlink_phase {W} (ext : Externals W) k fuel :
  inv (phase_at_least k) (fun _ => phase_at_least k) (get_next_downlink ext fuel).
Proof. unfold get_next_downlink. inv_auto phase_contra phase_leaf. Qed.
#[local] Hint Resolve get_next_downlink_phase : scan_inv.

Lemma check_in_memory_leaf_page_phase {W} (ext : Externals W) k lo hi :
  inv (phase_at_least k) (fun _ => phase_at_least k) (check_in_memory_leaf_page ext lo hi).
Proof. unfold check_in_memory_leaf_page. inv_auto phase_contra phase_leaf. Qed.
#[local] Hint Resolve check_in_memory_leaf_page_phase : scan_inv.

Lemma iterate_internal_page_body_phase {W} (ext : Externals W) k fuel u :
  inv (phase_at_least k) (fun _ => phase_at_least k) (iterate_internal_page_body ext fuel u).
Proof. unfold iterate_internal_page_body. inv_auto phase_contra phase_leaf. Qed.
#[local] Hint Resolve iterate_internal_page_body_phase : scan_inv.

Lemma iterate_internal_page_phase {W} (ext : Externals W) k fuel :
  inv (phase_at_least k) (fun _ => phase_at_least k) (iterate_internal_page ext fuel).
Proof. unfold iterate_internal_page. inv_auto phase_contra phase_leaf. Qed.
#[local] Hint Resolve iterate_internal_page_phase : scan_inv.

Lemma load_next_disk_leaf_page_phase {W} (ext : Externals W) k fuel :
  inv (phase_at_least k) (fun _ => phase_at_least k) (load_next_disk_leaf_page ext fuel).
Proof. unfold load_next_disk_leaf_page. inv_auto phase_contra phase_leaf. Qed.
#[local] Hint Resolve load_next_disk_leaf_page_phase : scan_inv.

Lemma btree_seq_scan_get_tuple_from_iterator_phase {W} (ext : Externals W) k  :
  inv (phase_at_least k) (fun _ => phase_at_least k) (btree_seq_scan_get_tuple_from_iterator ext ).
Proof. unfold btree_seq_scan_get_tuple_from_iterator. inv_auto phase_contra phase_leaf. Qed.
#[local] Hint Resolve btree_seq_scan_get_tuple_from_iterator_phase : scan_inv.

Lemma apply_next_key_body_phase {W} (ext : Externals W) k fuel f u :
  inv (phase_at_least k) (fun _ => phase_at_least k) (apply_next_key_body ext fuel f u).
Proof. unfold apply_next_key_body. inv_auto phase_contra phase_leaf. Qed.
#[local] Hint Resolve apply_next_key_body_phase : scan_inv.

Lemma apply_next_key_phase {W} (ext : Externals W) k fuel f :
  inv (phase_at_least k) (fun _ => phase_at_least k) (apply_next_key ext fuel f).
Proof. unfold apply_next_key. inv_auto phase_contra phase_leaf. Qed.
#[local] Hint Resolve apply_next_key_phase : scan_inv.

Lemma hist_page_body_phase {W} (ext : Externals W) k fuel u :
  inv (phase_at_least k) (fun _ => phase_at_least k) (hist_page_body ext fuel u).
Proof. unfold hist_page_body. inv_auto phase_contra phase_leaf. Qed.
#[local] Hint Resolve hist_page_body_phase : scan_inv.

Lemma hist_merge_body_phase {W} (ext : Externals W) k fuel u :
  inv (phase_at_least k) (fun _ => phase_at_least k) (hist_merge_body ext fuel u).
Proof. unfold hist_merge_body. inv_auto phase_contra phase_leaf. Qed.
#[local] Hint Resolve hist_merge_body_phase : scan_inv.

Lemma next_in_memory_leaf_phase {W} (ext : Externals W) k fuel :
  inv (phase_at_least k) (fun _ => phase_at_least k) (next_in_memory_leaf ext fuel).
Proof. unfold next_in_memory_leaf. inv_auto phase_contra phase_leaf. Qed.
#[local] Hint Resolve next_in_memory_leaf_phase : scan_inv.

Lemma next_disk_leaf_phase {W} (ext : Externals W) k fuel :
  inv (phase_at_least k) (fun _ => phase_at_least k) (next_disk_leaf ext fuel).
Proof. unfold next_disk_leaf. inv_auto phase_contra phase_leaf. Qed.
#[local] Hint Resolve next_disk_leaf_phase : scan_inv.

Lemma getnext_body_phase {W} (ext : Externals W) k fuel u :
  inv (phase_at_least k) (fun _ => phase_at_least k) (getnext_body ext fuel u).
Proof. unfold getnext_body. inv_auto phase_contra phase_leaf. Qed.
#[local] Hint Resolve getnext_body_phase : scan_inv.

Lemma btree_seq_scan_getnext_internal_phase {W} (ext : Externals W) k fuel :
  inv (phase_at_least k) (fun _ => phase_at_least k) (btree_seq_scan_getnext_internal ext fuel).
Proof. unfold btree_seq_scan_getnext_internal. inv_auto phase_contra phase_leaf. Qed.
#[local] Hint Resolve btree_seq_scan_getnext_internal_phase : scan_inv.

Lemma btree_seq_scan_getnext_phase {W} (ext : Externals W) k fuel :
  inv (phase_at_least k) (fun _ => phase_at_least k) (btree_seq_scan_getnext ext fuel).
Proof. unfold btree_seq_scan_getnext. inv_auto phase_contra phase_leaf. Qed.
#[local] Hint Resolve btree_seq_scan_getnext_phase : scan_inv.

Lemma btree_seq_scan_get_tuple_from_iterator_raw_phase {W} (ext : Externals W) k  :
  inv (phase_at_least k) (fun _ => phase_at_least k) (btree_seq_scan_get_tuple_from_iterator_raw ext ).
Proof. unfold btree_seq_scan_get_tuple_from_iterator_raw. inv_auto phase_contra phase_leaf. Qed.
#[local] Hint Resolve btree_seq_scan_get_tuple_from_iterator_raw_phase : scan_inv.

Lemma getnext_raw_body_phase {W} (ext : Externals W) k fuel u :
  inv (phase_at_least k) (fun _ => phase_at_least k) (getnext_raw_body ext fuel u).
Proof. unfold getnext_raw_body. inv_auto phase_contra phase_leaf. Qed.
#[local] Hint Resolve getnext_raw_body_phase : scan_inv.

Lemma btree_seq_scan_getnext_raw_internal_phase {W} (ext : Externals W) k fuel :
  inv (phase_at_least k) (fun _ => phase_at_least k) (btree_seq_scan_getnext_raw_internal ext fuel).
Proof. unfold btree_seq_scan_getnext_raw_internal. inv_auto phase_contra phase_leaf. Qed.
#[local] Hint Resolve btree_seq_scan_getnext_raw_internal_phase : scan_inv.

Lemma btree_seq_scan_getnext_raw_phase {W} (ext : Externals W) k fuel :
  inv (phase_at_least k) (fun _ => phase_at_least k) (btree_seq_scan_getnext_raw ext fuel).
Proof. unfold btree_seq_scan_getnext_raw. inv_auto phase_contra phase_leaf. Qed.
#[local] Hint Resolve btree_seq_scan_getnext_raw_phase : scan_inv.



(** ** Merging the historical image with the current one *)

(** C1 (as the code has it): when both cursors stand on entries with the
    same key, get-next-tuple resolves the entry of the historical image,
    unless the entry of the current image was written by the scan's own
    transaction, in which case the entry of the current image is resolved.
    Either way both cursors move past the key. *)
Theorem merge_takes_historical_entry_unless_own {W} (ext : Externals W) (fuel : nat)
    (st : St W) (t : Tuple) :
  key_collision (scan st) ->
  let s := scan st in
  let own := XACT_INFO_OXID_IS_CURRENT ext (world st)
               (it_xactInfo (page_read_item (leafImg s) (leafLoc s))) in
  let img := if own then leafImg s else histImg s in
  let loc := if own then leafLoc s else histLoc s in
  let r := o_find_tuple_version ext (world st) img loc (snapshotCsn s) in
  fst (snd r) = Some t ->
  btree_seq_scan_getnext_internal ext (S fuel) st =
    Ret (Some (t, snd (snd r), hint s))
        (mkSt (set_leafLoc (BTREE_PAGE_LOCATOR_NEXT (leafImg s) (leafLoc s))
                 (set_histLoc (BTREE_PAGE_LOCATOR_NEXT (histImg s) (histLoc s)) s))
              (fst r) (log st ++ [EvFindTupleVersion (snapshotCsn s)]) (glob st)).
Proof.
  intros (Hiter & Hcb & Hhave & Hvh & Hvl & Hcmp). cbv zeta. intros Hres.
  unfold BTREE_PAGE_READ_LEAF_TUPLE, scan_getNextKey in *.
  apply sat_eq. unfold btree_seq_scan_getnext_internal.
  srun. sunfold. srun. sunfold. srun. sunfold. srun.
  destruct (XACT_INFO_OXID_IS_CURRENT ext (world st)
              (it_xactInfo (page_read_item (leafImg (scan st)) (leafLoc (scan st))))) eqn:Hown.
  - srun. split; reflexivity.
  - srun. split; reflexivity.
Qed.

Lemma merge_takes_historical_entry_unless_own_witness :
  returned_tuple
    (btree_seq_scan_getnext_internal (static_ext (single_leaf_tree two_tuple_leaf)) 3
       (collision_state 0)) = Some (mkTuple 5 50).
Proof.
  rewrite (merge_takes_historical_entry_unless_own
             (static_ext (single_leaf_tree two_tuple_leaf)) 2 (collision_state 0)
             (mkTuple 5 50)).
  - reflexivity.
  - vm_compute. repeat split; reflexivity.
  - reflexivity.
Defined.

(** C1, counterexample: key 5 is in both images, the current entry (data
    100) written by another transaction, the historical entry holding data
    50.  The rule that prefers the current entry would return data 100;
    get-next-tuple returns the historical entry. *)
Lemma merge_does_not_prefer_current :
  ~ merge_prefers_current (static_ext (single_leaf_tree two_tuple_leaf)) 2 (collision_state 0).
Proof.
  intros H.
  assert (Hc : key_collision (scan (collision_state 0)))
    by (vm_compute; repeat split; reflexivity).
  specialize (H Hc). vm_compute in H. discriminate H.
Qed.

(** ** Checkpoint pins at teardown *)

(** One round of the sweep on a registered scan of a parallel scan: the
    node is unlinked and no counter is touched. *)
Lemma seq_scans_cleanup_body_parallel {W} (ext : Externals W) (st : St W)
    (a : Z) (l : list Z) (sc : BTreeSeqScan) (p : ParallelOScanDesc) :
  listOfScans (glob st) = a :: l ->
  scanHeap (glob st) !! a = Some sc ->
  poscan sc = Some p ->
  exists st', seq_scans_cleanup_body ext tt st = Ret (Continue tt) st' /\
              numSeqScans (glob st') = numSeqScans (glob st) /\
              listOfScans (glob st') = l.
Proof.
  intros Hl Hh Hp. unfold seq_scans_cleanup_body, bind, get. rewrite Hl, Hh, Hp.
  cbn. eexists. split; [reflexivity|]. cbn. rewrite Hl. cbn. rewrite Z.eqb_refl.
  split; reflexivity.
Qed.

(** The same round on a plain scan takes one off the counter of its
    checkpoint. *)
Lemma seq_scans_cleanup_body_plain {W} (ext : Externals W) (st : St W)
    (a : Z) (l : list Z) (sc : BTreeSeqScan) :
  listOfScans (glob st) = a :: l ->
  scanHeap (glob st) !! a = Some sc ->
  poscan sc = None ->
  exists st', seq_scans_cleanup_body ext tt st = Ret (Continue tt) st' /\
              read_numSeqScans (glob st') (desc sc)
                (checkpointNumber sc mod NUM_SEQ_SCANS_ARRAY_SIZE ext) =
              wrap32 (read_numSeqScans (glob st) (desc sc)
                        (checkpointNumber sc mod NUM_SEQ_SCANS_ARRAY_SIZE ext) - 1) /\
              listOfScans (glob st') = l.
Proof.
  intros Hl Hh Hp. unfold seq_scans_cleanup_body, bind, get. rewrite Hl, Hh, Hp.
  cbn. eexists. split; [reflexivity|]. cbn. rewrite Hl. cbn. rewrite Z.eqb_refl.
  split; [|reflexivity].
  unfold read_numSeqScans at 1. cbn. rewrite lookup_insert_eq. reflexivity.
Qed.

(** C2: the sweep of [seq_scans_cleanup] releases the pin of a plain scan,
    as [free_btree_seq_scan] does for every scan, but it unregisters a scan
    that belongs to a parallel scan without releasing its pin: the counter,
    0 before the scan was created and 1 after, is still 1 once the sweep
    has emptied the list of scans. *)
Theorem sweep_keeps_pin_of_parallel_scan :
  let ext := static_ext (single_leaf_tree two_tuple_leaf) in
  pin_count ext 1 (test_state zero_scan) = 0 /\
  pin_count ext 1 parallel_scan = 1 /\
  listOfScans (glob parallel_scan) = [100] /\
  listOfScans (glob (outcome_state (seq_scans_cleanup ext 5 parallel_scan))) = [] /\
  pin_count ext 1 (outcome_state (seq_scans_cleanup ext 5 parallel_scan)) = 1 /\
  pin_count ext 1 (outcome_state (free_btree_seq_scan ext parallel_scan)) = 0 /\
  pin_count ext 1 plain_scan = 1 /\
  pin_count ext 1 (outcome_state (seq_scans_cleanup ext 5 plain_scan)) = 0.
Proof. vm_compute. repeat split; reflexivity. Qed.

(** ** Historical page reconstruction *)

Lemma undo_fetches_app (l1 l2 : list Event) :
  undo_fetches (l1 ++ l2) = undo_fetches l1 ++ undo_fetches l2.
Proof. unfold undo_fetches. apply flat_map_app. Qed.

(** One iteration of the loop of [load_first_historical_page] whose test
    holds and whose undo record exists fetches the record the image under
    [header] points to and makes it the historical image. *)
Lemma load_first_historical_page_body_fetch {W} (ext : Externals W) (l : HistLocals) (st : St W) :
  needs_older_version ext (snapshotCsn (scan st)) (deref_img (scan st) (hl_header l)) = true ->
  UNDO_REC_EXISTS ext (world st) (p_undoLocation (deref_img (scan st) (hl_header l))) = true ->
  exists l' st',
    load_first_historical_page_body ext l st = Ret (Continue l') st' /\
    hl_header l' = PtrHistImg /\
    haveHistImg (scan st') = true /\
    snapshotCsn (scan st') = snapshotCsn (scan st) /\
    leafImg (scan st') = leafImg (scan st) /\
    histImg (scan st') =
      fst (snd (get_page_from_undo ext (world st)
                  (p_undoLocation (deref_img (scan st) (hl_header l)))
                  (hl_key l) (hl_lokeyPtr l) (Some (hl_hikey l)))) /\
    log st' = log st ++
      [EvGetPageFromUndo (p_undoLocation (deref_img (scan st) (hl_header l))) (hl_key l)].
Proof.
  intros Hc He. unfold load_first_historical_page_body.
  unfold needs_older_version in Hc.
  unfold bind, get_scan, ask, call, upd, ret. cbv beta zeta.
  rewrite Hc. cbv beta iota. rewrite He. cbn [negb]. cbv beta iota.
  match goal with |- context [if ?b then _ else _] => destruct b end;
    (eexists _, _; split; [reflexivity|]; simpl; auto 10).
Qed.

Lemma load_first_historical_page_body_stop {W} (ext : Externals W) (l : HistLocals) (st : St W) :
  needs_older_version ext (snapshotCsn (scan st)) (deref_img (scan st) (hl_header l)) = false ->
  load_first_historical_page_body ext l st = Ret (Break l) st.
Proof.
  intros Hc. unfold load_first_historical_page_body, bind, get_scan.
  unfold needs_older_version in Hc. cbv beta zeta. rewrite Hc. reflexivity.
Qed.

Lemma load_first_historical_page_body_gap {W} (ext : Externals W) (l : HistLocals) (st : St W) :
  needs_older_version ext (snapshotCsn (scan st)) (deref_img (scan st) (hl_header l)) = true ->
  UNDO_REC_EXISTS ext (world st) (p_undoLocation (deref_img (scan st) (hl_header l))) = false ->
  load_first_historical_page_body ext l st = Raise ERRCODE_SNAPSHOT_TOO_OLD st.
Proof.
  intros Hc He. unfold load_first_historical_page_body, bind, get_scan, ask.
  unfold needs_older_version in Hc. cbv beta zeta. rewrite Hc. cbv beta iota.
  rewrite He. reflexivity.
Qed.

Lemma load_first_loop_outcome {W} (ext : Externals W) (fuel : nat) :
  forall (l : HistLocals) (st : St W),
    deref_img (scan st) (hl_header l) = reached_image (scan st) ->
    reconstruction_outcome ext fuel reached_image st
      (while_loop (A := unit) fuel (load_first_historical_page_body ext) l st) /\
    snapshotCsn (scan (outcome_state
      (while_loop (A := unit) fuel (load_first_historical_page_body ext) l st)))
      = snapshotCsn (scan st).
Proof.
  induction fuel as [|fuel IH]; intros l st Hh.
  - simpl. split; [unfold reconstruction_outcome; simpl; lia | reflexivity].
  - cbn [while_loop]. unfold reconstruction_outcome in *.
    destruct (needs_older_version ext (snapshotCsn (scan st))
                (deref_img (scan st) (hl_header l))) eqn:Hc.
    + destruct (UNDO_REC_EXISTS ext (world st)
                  (p_undoLocation (deref_img (scan st) (hl_header l)))) eqn:He.
      * destruct (load_first_historical_page_body_fetch ext l st Hc He)
          as (l' & st' & Hrun & Hhd & Hhave & Hsnap & Hleaf & Himg & Hlog).
        rewrite (bind_of_ret _ _ _ _ _ Hrun).
        destruct (IH l' st') as [H1 H2].
        { rewrite Hhd. unfold reached_image. rewrite Hhave. reflexivity. }
        split; [|rewrite H2; exact Hsnap].
        destruct (while_loop fuel (load_first_historical_page_body ext) l' st');
          simpl in *; rewrite <- ?Hsnap; auto.
        rewrite H1, Hlog, undo_fetches_app, length_app. simpl. lia.
      * rewrite (bind_of_raise _ _ _ _ _ (load_first_historical_page_body_gap ext l st Hc He)).
        simpl. rewrite <- Hh. auto.
    + rewrite (bind_of_ret _ _ _ _ _ (load_first_historical_page_body_stop ext l st Hc)).
      simpl. rewrite <- Hh. auto.
Qed.

Lemma load_next_historical_page_body_fetch {W} (ext : Externals W) (pk : Tuple)
    (header : ImgPtr) (st : St W) :
  needs_older_version ext (snapshotCsn (scan st)) (deref_img (scan st) header) = true ->
  UNDO_REC_EXISTS ext (world st) (p_undoLocation (deref_img (scan st) header)) = true ->
  exists st',
    load_next_historical_page_body ext pk header st = Ret (Continue PtrHistImg) st' /\
    snapshotCsn (scan st') = snapshotCsn (scan st) /\
    leafImg (scan st') = leafImg (scan st) /\
    histImg (scan st') =
      fst (snd (get_page_from_undo ext (world st)
                  (p_undoLocation (deref_img (scan st) header)) (Some pk) false None)) /\
    log st' = log st ++
      [EvGetPageFromUndo (p_undoLocation (deref_img (scan st) header)) (Some pk)].
Proof.
  intros Hc He. unfold load_next_historical_page_body.
  unfold needs_older_version in Hc.
  unfold bind, get_scan, ask, call, upd, ret. cbv beta zeta.
  rewrite Hc. cbv beta iota. rewrite He. cbn [negb]. cbv beta iota.
  eexists. split; [reflexivity|]. simpl. auto.
Qed.

Lemma load_next_loop_outcome {W} (ext : Externals W) (pk : Tuple) (fuel : nat) :
  forall (header : ImgPtr) (st : St W),
    exists hdr,
      reconstruction_outcome ext fuel (fun s => deref_img s hdr) st
        (while_loop (A := unit) fuel (load_next_historical_page_body ext pk) header st) /\
      forall r st', while_loop (A := unit) fuel (load_next_historical_page_body ext pk)
                      header st = Ret r st' ->
                    r = inl hdr /\ snapshotCsn (scan st') = snapshotCsn (scan st).
Proof.
  induction fuel as [|fuel IH]; intros header st.
  - exists header. simpl. split; [unfold reconstruction_outcome; simpl; lia | discriminate].
  - cbn [while_loop]. unfold reconstruction_outcome in *.
    destruct (needs_older_version ext (snapshotCsn (scan st))
                (deref_img (scan st) header)) eqn:Hc.
    + destruct (UNDO_REC_EXISTS ext (world st)
                  (p_undoLocation (deref_img (scan st) header))) eqn:He.
      * destruct (load_next_historical_page_body_fetch ext pk header st Hc He)
          as (st' & Hrun & Hsnap & Hleaf & Himg & Hlog).
        rewrite (bind_of_ret _ _ _ _ _ Hrun).
        destruct (IH PtrHistImg st') as (hdr & H1 & H2).
        exists hdr. split.
        { destruct (while_loop fuel (load_next_historical_page_body ext pk) PtrHistImg st');
            simpl in *; rewrite <- ?Hsnap; auto.
          rewrite H1, Hlog, undo_fetches_app, length_app. simpl. lia. }
        { intros r st'' Hr. destruct (H2 r st'' Hr) as [Ha Hb].
          split; [exact Ha | rewrite Hb; exact Hsnap]. }
      * exists header.
        assert (Hb : load_next_historical_page_body ext pk header st
                     = Raise ERRCODE_SNAPSHOT_TOO_OLD st).
        { unfold load_next_historical_page_body, bind, get_scan, ask. cbv beta zeta.
          unfold needs_older_version in Hc. rewrite Hc. cbv beta iota. rewrite He.
          reflexivity. }
        rewrite (bind_of_raise _ _ _ _ _ Hb). simpl. split; [auto | discriminate].
    + exists header.
      assert (Hb : load_next_historical_page_body ext pk header st = Ret (Break header) st).
      { unfold load_next_historical_page_body, bind, get_scan. cbv beta zeta.
        unfold needs_older_version in Hc. rewrite Hc. reflexivity. }
      rewrite (bind_of_ret _ _ _ _ _ Hb). simpl.
      split; [exact Hc|]. intros r st' Hr. inversion Hr; subst. auto.
Qed.

Lemma needs_older_version_false {W} (ext : Externals W) (snap : CommitSeqNo) (p : Page) :
  needs_older_version ext snap p = false <->
  COMMITSEQNO_IS_NORMAL ext (p_csn p) = false \/ p_csn p < snap.
Proof.
  unfold needs_older_version. rewrite andb_false_iff, Z.geb_leb, Z.leb_gt. reflexivity.
Qed.

Lemma load_first_historical_page_outcome {W} (ext : Externals W) (fuel : nat) (st : St W) :
  COMMITSEQNO_IS_NORMAL ext (snapshotCsn (scan st)) = true ->
  reconstruction_outcome ext fuel reached_image st (load_first_historical_page ext fuel st).
Proof.
  intros Hn. unfold reconstruction_outcome, load_first_historical_page.
  sstep. sstep. sstep. sstep.
  change (snapshotCsn (set_haveHistImg false (scan st))) with (snapshotCsn (scan st)).
  rewrite Hn. cbn [negb]. sstep.
  set (st0 := mkSt (set_haveHistImg false (scan st)) (world st) (log st) (glob st)).
  set (l0 := mkHistLocals PtrLeafImg None None true _).
  destruct (load_first_loop_outcome ext fuel l0 st0) as [H1 H2]; [reflexivity|].
  unfold reconstruction_outcome in H1.
  eapply sat_weaken; [exact H1 | | auto].
  intros r st1 Hr. cbv beta in Hr. change (snapshotCsn (scan st0)) with (snapshotCsn (scan st)) in Hr.
  sstep. sstep.
  destruct (haveHistImg (scan st1)) eqn:Hh; cbn [negb].
  - unfold reached_image in Hr. rewrite Hh in Hr.
    destruct r as [l|[]]; [|sstep; unfold reached_image; rewrite Hh; exact Hr].
    destruct (hl_lokey l); sstep; unfold reached_image; simpl; rewrite Hh; exact Hr.
  - sstep. exact Hr.
Qed.

Lemma load_first_historical_page_noop {W} (ext : Externals W) (fuel : nat) (st : St W) :
  COMMITSEQNO_IS_NORMAL ext (snapshotCsn (scan st)) = false ->
  load_first_historical_page ext fuel st =
    Ret tt (mkSt (set_haveHistImg false (scan st)) (world st) (log st) (glob st)).
Proof.
  intros Hn. unfold load_first_historical_page, bind, upd, get_scan. cbv beta iota zeta.
  cbn [scan].
  change (snapshotCsn (set_haveHistImg false (scan st))) with (snapshotCsn (scan st)).
  rewrite Hn. reflexivity.
Qed.

Lemma load_next_historical_page_outcome {W} (ext : Externals W) (fuel : nat) (st : St W) :
  exists hdr,
    reconstruction_outcome ext fuel (fun s => deref_img s hdr) st
      (load_next_historical_page ext fuel st).
Proof.
  destruct (load_next_loop_outcome ext (p_hikey (histImg (scan st))) fuel PtrLeafImg st)
    as (hdr & H1 & H2).
  exists hdr. unfold reconstruction_outcome in *. unfold load_next_historical_page.
  sstep. sstep. sstep.
  eapply sat_weaken; [exact H1 | | auto].
  intros r st1 Hr. cbv beta in Hr. sstep. destruct hdr; exact Hr.
Qed.



(** ** The disk downlink batcher *)

Lemma qsort_insert_perm {A} (cmp : A -> A -> Z) (x : A) (l : list A) :
  Permutation (x :: l) (qsort_insert cmp x l).
Proof.
  induction l as [|y l IH]; simpl; [reflexivity|].
  destruct (cmp x y <=? 0); [reflexivity|].
  rewrite perm_swap. apply perm_skip. exact IH.
Qed.

Lemma qsort_perm {A} (cmp : A -> A -> Z) (l : list A) : Permutation l (qsort cmp l).
Proof.
  induction l as [|x l IH]; simpl; [reflexivity|].
  rewrite <- qsort_insert_perm. apply perm_skip. exact IH.
Qed.

Lemma cmp_downlinks_le (a b : BTreeSeqScanDiskDownlink) :
  (cmp_downlinks a b <=? 0) = (downlink a <=? downlink b).
Proof.
  unfold cmp_downlinks.
  destruct (downlink a <? downlink b) eqn:Hlt.
  - apply Z.ltb_lt in Hlt. simpl. symmetry. apply Z.leb_le. lia.
  - apply Z.ltb_ge in Hlt. destruct (downlink a =? downlink b) eqn:Heq.
    + apply Z.eqb_eq in Heq. simpl. symmetry. apply Z.leb_le. lia.
    + apply Z.eqb_neq in Heq. simpl. symmetry. apply Z.leb_gt. lia.
Qed.

Lemma qsort_insert_hdrel (a x : BTreeSeqScanDiskDownlink) (l : list BTreeSeqScanDiskDownlink) :
  downlink_le a x -> HdRel downlink_le a l ->
  HdRel downlink_le a (qsort_insert cmp_downlinks x l).
Proof.
  intros Hax Hal. destruct l as [|y l]; simpl; [constructor; exact Hax|].
  destruct (cmp_downlinks x y <=? 0); constructor; [exact Hax|].
  inversion Hal; assumption.
Qed.

Lemma qsort_insert_sorted (x : BTreeSeqScanDiskDownlink) (l : list BTreeSeqScanDiskDownlink) :
  Sorted downlink_le l -> Sorted downlink_le (qsort_insert cmp_downlinks x l).
Proof.
  induction l as [|y l IH]; intros Hs; simpl.
  - constructor; constructor.
  - rewrite cmp_downlinks_le. destruct (downlink x <=? downlink y) eqn:Hle.
    + apply Z.leb_le in Hle. constructor; [exact Hs|]. constructor. exact Hle.
    + apply Z.leb_gt in Hle. inversion Hs as [|? ? Hs' Hhd]; subst.
      constructor; [apply IH; exact Hs'|].
      apply qsort_insert_hdrel; [unfold downlink_le; lia | exact Hhd].
Qed.

Lemma qsort_sorted (l : list BTreeSeqScanDiskDownlink) :
  Sorted downlink_le (qsort cmp_downlinks l).
Proof.
  induction l as [|x l IH]; simpl; [constructor|].
  apply qsort_insert_sorted. exact IH.
Qed.

Lemma qsort_addresses_sorted (l : list BTreeSeqScanDiskDownlink) :
  StronglySorted Z.le (map downlink (qsort cmp_downlinks l)).
Proof.
  assert (H : StronglySorted downlink_le (qsort cmp_downlinks l)).
  { apply Sorted_StronglySorted; [|apply qsort_sorted].
    intros a b c. unfold downlink_le. lia. }
  induction H as [|a l' Hs IH Hall]; simpl; constructor; [exact IH|].
  apply List.Forall_forall. intros z Hz. apply in_map_iff in Hz as (b & <- & Hb).
  rewrite List.Forall_forall in Hall. apply Hall. exact Hb.
Qed.

Lemma strongly_sorted_firstn (l : list Z) (n : nat) :
  StronglySorted Z.le l -> StronglySorted Z.le (firstn n l).
Proof.
  intros H. revert n. induction H as [|a l Hs IH Hall]; intros n.
  - rewrite firstn_nil. constructor.
  - destruct n as [|n]; simpl; constructor; [apply IH|].
    apply List.Forall_forall. intros z Hz.
    rewrite List.Forall_forall in Hall. apply Hall.
    rewrite <- (firstn_skipn n l). apply in_or_app. left. exact Hz.
Qed.

Lemma firstn_succ_nth {A} (d : A) (l : list A) (i : nat) :
  (i < length l)%nat -> firstn (S i) l = firstn i l ++ [nth i l d].
Proof.
  revert i. induction l as [|x l IH]; intros i Hi; simpl in Hi; [lia|].
  destruct i as [|i]; [reflexivity|].
  change (firstn (S (S i)) (x :: l)) with (x :: firstn (S i) l).
  rewrite IH by lia. reflexivity.
Qed.

Lemma disk_reads_app (l1 l2 : list Event) :
  disk_reads (l1 ++ l2) = disk_reads l1 ++ disk_reads l2.
Proof. unfold disk_reads. apply flat_map_app. Qed.

Ltac disk_contra :=
  unfold disk_phase in *;
  repeat match goal with H : _ /\ _ |- _ => destruct H end;
  try congruence;
  match goal with
  | H : status_eqb ?a _ = true |- _ => destruct a; simpl in H; congruence
  end.

Ltac disk_leaf :=
  idtac;
  lazymatch goal with
  | |- disk_reads_in_order _ _ _ =>
      match goal with
      | H : disk_phase _ _ _ |- _ =>
          destruct H as (_ & _ & _ & _ & _ & H); eexists; exact H
      end
  | |- disk_phase _ _ _ =>
      match goal with
      | H : disk_phase _ _ _ |- _ =>
          unfold disk_phase in *; cbn [scan world log glob] in *; simpl;
          rewrite ?disk_reads_app; simpl; rewrite ?app_nil_r;
          intuition (try congruence)
      end
  end.

Lemma load_first_historical_page_body_disk {W} (ext : Externals W) D base l :
  inv (disk_phase D base) (fun _ => disk_reads_in_order D base) (load_first_historical_page_body ext l).
Proof. unfold load_first_historical_page_body. inv_auto disk_contra disk_leaf. Qed.
#[local] Hint Resolve load_first_historical_page_body_disk : scan_inv.

Lemma load_first_historical_page_disk {W} (ext : Externals W) D base fuel :
  inv (disk_phase D base) (fun _ => disk_reads_in_order D base) (load_first_historical_page ext fuel).
Proof. unfold load_first_historical_page. inv_auto disk_contra disk_leaf. Qed.
#[local] Hint Resolve load_first_historical_page_disk : scan_inv.

Lemma load_next_historical_page_body_disk {W} (ext : Externals W) D base pk hd :
  inv (disk_phase D base) (fun _ => disk_reads_in_order D base) (load_next_historical_page_body ext pk hd).
Proof. unfold load_next_historical_page_body. inv_auto disk_contra disk_leaf. Qed.
#[local] Hint Resolve load_next_historical_page_body_disk : scan_inv.

Lemma load_next_historical_page_disk {W} (ext : Externals W) D base fuel :
  inv (disk_phase D base) (fun _ => disk_reads_in_order D base) (load_next_historical_page ext fuel).
Proof. unfold load_next_historical_page. inv_auto disk_contra disk_leaf. Qed.
#[local] Hint Resolve load_next_historical_page_disk : scan_inv.

Lemma load_next_disk_leaf_page_disk {W} (ext : Externals W) D base fuel :
  inv (disk_phase D base) (fun _ => disk_reads_in_order D base)
    (load_next_disk_leaf_page ext fuel).
Proof.
  intros st H. unfold load_next_disk_leaf_page.
  destruct H as (Hp & Hs & HD & Hc & Hi & Hr).
  sstep. sstep.
  destruct (downlinkIndex (scan st) >=? downlinksCount (scan st)) eqn:Hge.
  { sstep. repeat split; try assumption; lia. }
  rewrite Z.geb_leb in Hge. apply Z.leb_gt in Hge.
  set (dl := nth (Z.to_nat (downlinkIndex (scan st))) (diskDownlinks (scan st))
               zero_disk_downlink).
  assert (Hlen : (Z.to_nat (downlinkIndex (scan st)) < length D)%nat) by lia.
  assert (Hr' : forall l, disk_reads l = [] ->
            disk_reads ((log st ++ [EvReadPageFromDisk (downlink dl)]) ++ l) =
            base ++ firstn (Z.to_nat (downlinkIndex (scan st) + 1)) (map downlink D)).
  { intros l Hl. rewrite !disk_reads_app, Hl, Hr, app_nil_r. simpl.
    replace (Z.to_nat (downlinkIndex (scan st) + 1))
      with (S (Z.to_nat (downlinkIndex (scan st)))) by lia.
    rewrite (firstn_succ_nth (downlink zero_disk_downlink)) by (rewrite length_map; exact Hlen).
    rewrite map_nth, <- app_assoc. unfold dl. rewrite HD. reflexivity. }
  ssteps.
  set (r := read_page_from_disk ext (world st) (downlink dl)).
  assert (Hmid : forall st1,
            poscan (scan st1) = None -> status (scan st1) <> BTreeSeqScanInMemory ->
            diskDownlinks (scan st1) = D -> downlinksCount (scan st1) = Z.of_nat (length D) ->
            downlinkIndex (scan st1) = downlinkIndex (scan st) ->
            (exists l, disk_reads l = [] /\
                       log st1 = (log st ++ [EvReadPageFromDisk (downlink dl)]) ++ l) ->
            sat ((if negb (fst (snd r)) then raise ERR_CAN_NOT_READ_LEAF_PAGE
                  else
                    upd (fun s => set_leafLoc (BTREE_PAGE_LOCATOR_FIRST (leafImg s)) s) ;;;
                    upd (fun s => set_downlinkIndex (downlinkIndex s + 1) s) ;;;
                    upd (set_hint (mkHint (OInvalidInMemoryBlkno ext)
                                          (InvalidOPageChangeCount ext))) ;;;
                    upd (set_nextKey None) ;;;
                    load_first_historical_page ext fuel ;;;
                    ret true) st1)
                (fun _ => disk_phase D base) (fun _ => disk_reads_in_order D base)).
  { intros st1 Hp1 Hs1 HD1 Hc1 Hi1 (l & Hl & Hlog).
    destruct (fst (snd r)); cbn [negb].
    - ssteps.
      eapply sat_weaken;
        [ apply (load_first_historical_page_disk ext D base fuel) | | auto ].
      + unfold disk_phase. cbn [scan log]. simpl. rewrite Hi1, Hlog.
        split; [exact Hp1|]. split; [exact Hs1|]. split; [exact HD1|].
        split; [exact Hc1|]. split; [lia|]. apply Hr'. exact Hl.
      + intros a s' Hs'. sstep. exact Hs'.
    - sstep. exists (Z.to_nat (downlinkIndex (scan st) + 1)).
      rewrite Hlog. apply Hr'. exact Hl. }
  scase.
  - ssteps. apply Hmid; cbn [scan log]; simpl; auto.
    eexists [_]. split; [|reflexivity]. reflexivity.
  - ssteps. apply Hmid; cbn [scan log]; simpl; auto.
    exists []. split; [reflexivity | rewrite app_nil_r; reflexivity].
Qed.
#[local] Hint Resolve load_next_disk_leaf_page_disk : scan_inv.

Lemma btree_seq_scan_get_tuple_from_iterator_disk {W} (ext : Externals W) D base  :
  inv (disk_phase D base) (fun _ => disk_reads_in_order D base) (btree_seq_scan_get_tuple_from_iterator ext ).
Proof. unfold btree_seq_scan_get_tuple_from_iterator. inv_auto disk_contra disk_leaf. Qed.
#[local] Hint Resolve btree_seq_scan_get_tuple_from_iterator_disk : scan_inv.

Lemma apply_next_key_body_disk {W} (ext : Externals W) D base fuel f u :
  inv (disk_phase D base) (fun _ => disk_reads_in_order D base) (apply_next_key_body ext fuel f u).
Proof. unfold apply_next_key_body. inv_auto disk_contra disk_leaf. Qed.
#[local] Hint Resolve apply_next_key_body_disk : scan_inv.

Lemma apply_next_key_disk {W} (ext : Externals W) D base fuel f :
  inv (disk_phase D base) (fun _ => disk_reads_in_order D base) (apply_next_key ext fuel f).
Proof. unfold apply_next_key. inv_auto disk_contra disk_leaf. Qed.
#[local] Hint Resolve apply_next_key_disk : scan_inv.

Lemma hist_page_body_disk {W} (ext : Externals W) D base fuel u :
  inv (disk_phase D base) (fun _ => disk_reads_in_order D base) (hist_page_body ext fuel u).
Proof. unfold hist_page_body. inv_auto disk_contra disk_leaf. Qed.
#[local] Hint Resolve hist_page_body_disk : scan_inv.

Lemma hist_merge_body_disk {W} (ext : Externals W) D base fuel u :
  inv (disk_phase D base) (fun _ => disk_reads_in_order D base) (hist_merge_body ext fuel u).
Proof. unfold hist_merge_body. inv_auto disk_contra disk_leaf. Qed.
#[local] Hint Resolve hist_merge_body_disk : scan_inv.

Lemma next_in_memory_leaf_disk {W} (ext : Externals W) D base fuel :
  inv (disk_phase D base) (fun _ => disk_reads_in_order D base) (next_in_memory_leaf ext fuel).
Proof. unfold next_in_memory_leaf. inv_auto disk_contra disk_leaf. Qed.
#[local] Hint Resolve next_in_memory_leaf_disk : scan_inv.

Lemma next_disk_leaf_disk {W} (ext : Externals W) D base fuel :
  inv (disk_phase D base) (fun _ => disk_reads_in_order D base) (next_disk_leaf ext fuel).
Proof. unfold next_disk_leaf. inv_auto disk_contra disk_leaf. Qed.
#[local] Hint Resolve next_disk_leaf_disk : scan_inv.

Lemma getnext_body_disk {W} (ext : Externals W) D base fuel u :
  inv (disk_phase D base) (fun _ => disk_reads_in_order D base) (getnext_body ext fuel u).
Proof. unfold getnext_body. inv_auto disk_contra disk_leaf. Qed.
#[local] Hint Resolve getnext_body_disk : scan_inv.

Lemma btree_seq_scan_getnext_internal_disk {W} (ext : Externals W) D base fuel :
  inv (disk_phase D base) (fun _ => disk_reads_in_order D base) (btree_seq_scan_getnext_internal ext fuel).
Proof. unfold btree_seq_scan_getnext_internal. inv_auto disk_contra disk_leaf. Qed.
#[local] Hint Resolve btree_seq_scan_getnext_internal_disk : scan_inv.

Lemma btree_seq_scan_getnext_disk {W} (ext : Externals W) D base fuel :
  inv (disk_phase D base) (fun _ => disk_reads_in_order D base) (btree_seq_scan_getnext ext fuel).
Proof. unfold btree_seq_scan_getnext. inv_auto disk_contra disk_leaf. Qed.
#[local] Hint Resolve btree_seq_scan_getnext_disk : scan_inv.

Lemma btree_seq_scan_get_tuple_from_iterator_raw_disk {W} (ext : Externals W) D base  :
  inv (disk_phase D base) (fun _ => disk_reads_in_order D base) (btree_seq_scan_get_tuple_from_iterator_raw ext ).
Proof. unfold btree_seq_scan_get_tuple_from_iterator_raw. inv_auto disk_contra disk_leaf. Qed.
#[local] Hint Resolve btree_seq_scan_get_tuple_from_iterator_raw_disk : scan_inv.

Lemma getnext_raw_body_disk {W} (ext : Externals W) D base fuel u :
  inv (disk_phase D base) (fun _ => disk_reads_in_order D base) (getnext_raw_body ext fuel u).
Proof. unfold getnext_raw_body. inv_auto disk_contra disk_leaf. Qed.
#[local] Hint Resolve getnext_raw_body_disk : scan_inv.

Lemma btree_seq_scan_getnext_raw_internal_disk {W} (ext : Externals W) D base fuel :
  inv (disk_phase D base) (fun _ => disk_reads_in_order D base) (btree_seq_scan_getnext_raw_internal ext fuel).
Proof. unfold btree_seq_scan_getnext_raw_internal. inv_auto disk_contra disk_leaf. Qed.
#[local] Hint Resolve btree_seq_scan_getnext_raw_internal_disk : scan_inv.

Lemma btree_seq_scan_getnext_raw_disk {W} (ext : Externals W) D base fuel :
  inv (disk_phase D base) (fun _ => disk_reads_in_order D base) (btree_seq_scan_getnext_raw ext fuel).
Proof. unfold btree_seq_scan_getnext_raw. inv_auto disk_contra disk_leaf. Qed.
#[local] Hint Resolve btree_seq_scan_getnext_raw_disk : scan_inv.

Lemma switch_to_disk_scan_downlinks (s : BTreeSeqScan) :
  downlinksCount s = Z.of_nat (length (diskDownlinks s)) ->
  diskDownlinks (switch_to_disk_scan s) = qsort cmp_downlinks (diskDownlinks s).
Proof.
  intros Hc. unfold switch_to_disk_scan. simpl. rewrite Hc, Nat2Z.id.
  rewrite firstn_all, skipn_all, app_nil_r. reflexivity.
Qed.



(** ** Locators as cursors over the items of a page *)


Lemma page_chunks_split (p : Page) (c : nat) :
  (c < chunksCount p)%nat ->
  p_chunks p = firstn c (p_chunks p) ++ page_chunk p c :: skipn (S c) (p_chunks p).
Proof.
  unfold chunksCount, page_chunk. generalize (p_chunks p) as l.
  induction c as [|c IH]; intros l Hc; destruct l as [|x l]; simpl in *; try lia.
  - reflexivity.
  - f_equal. apply IH. lia.
Qed.

Lemma page_items_split (p : Page) (c : nat) :
  (c < chunksCount p)%nat ->
  page_items p =
    concat (map chunk_items (firstn c (p_chunks p))) ++
    chunk_items (page_chunk p c) ++
    concat (map chunk_items (skipn (S c) (p_chunks p))).
Proof.
  intros Hc. unfold page_items. rewrite (page_chunks_split p c Hc) at 1.
  rewrite map_app, concat_app. simpl. reflexivity.
Qed.

Lemma loc_remaining_valid (p : Page) (loc : BTreePageItemLocator) :
  loc_wf p loc -> BTREE_PAGE_LOCATOR_IS_VALID p loc = true ->
  loc_remaining p loc = rem_from p (chunkOffset loc) (itemOffset loc).
Proof.
  intros [Hc Hn] Hv. unfold loc_remaining. rewrite Hv.
  unfold BTREE_PAGE_LOCATOR_GET_OFFSET, items_before_chunk, rem_from.
  rewrite (page_items_split p _ Hc).
  rewrite skipn_app.
  rewrite skipn_all2 by lia. simpl.
  replace (_ + _ - _)%nat with (itemOffset loc) by lia.
  rewrite skipn_app.
  unfold BTREE_PAGE_LOCATOR_IS_VALID in Hv. apply Nat.ltb_lt in Hv.
  replace (itemOffset loc - _)%nat with 0%nat by lia. reflexivity.
Qed.

Lemma loc_remaining_invalid (p : Page) (loc : BTreePageItemLocator) :
  BTREE_PAGE_LOCATOR_IS_VALID p loc = false -> loc_remaining p loc = [].
Proof. intros Hv. unfold loc_remaining. rewrite Hv. reflexivity. Qed.

Lemma rem_from_chunk_end (p : Page) (c i : nat) :
  (length (chunk_items (page_chunk p c)) <= i)%nat ->
  rem_from p c i = concat (map chunk_items (skipn (S c) (p_chunks p))).
Proof.
  intros Hi. unfold rem_from. rewrite skipn_all2 by lia. reflexivity.
Qed.

Lemma rem_from_next_chunk (p : Page) (c : nat) :
  (S c < chunksCount p)%nat ->
  concat (map chunk_items (skipn (S c) (p_chunks p))) = rem_from p (S c) 0.
Proof.
  intros Hc. unfold rem_from. simpl.
  pose proof (page_chunks_split p (S c) Hc) as Hs.
  assert (Hk : skipn (S c) (p_chunks p) = page_chunk p (S c) :: skipn (S (S c)) (p_chunks p)).
  { rewrite Hs at 1. rewrite skipn_app.
    rewrite skipn_all2 by (rewrite length_firstn; unfold chunksCount in Hc; lia).
    simpl. rewrite length_firstn. unfold chunksCount in Hc.
    replace (S c - _)%nat with 0%nat by lia. reflexivity. }
  rewrite Hk. simpl. reflexivity.
Qed.

Lemma rem_from_last_chunk (p : Page) (c : nat) :
  (chunksCount p <= S c)%nat ->
  concat (map chunk_items (skipn (S c) (p_chunks p))) = [].
Proof.
  intros Hc. unfold chunksCount in Hc.
  rewrite skipn_all2 by lia. reflexivity.
Qed.


Lemma fill_locator_wf (p : Page) (c : nat) :
  (c < chunksCount p)%nat -> loc_wf p (page_chunk_fill_locator p c).
Proof. intros Hc. split; simpl; [exact Hc | reflexivity]. Qed.

Lemma find_real_item_from_spec (p : Page) (n : nat) :
  forall loc,
    loc_wf p loc -> (chunksCount p - S (chunkOffset loc) <= n)%nat ->
    loc_wf p (find_real_item_from n p loc) /\
    rem_at p (find_real_item_from n p loc) = rem_at p loc /\
    settled p (find_real_item_from n p loc).
Proof.
  assert (Hend : forall loc, loc_wf p loc ->
            (itemOffset loc <? chunkItemsCount loc)%nat = false ->
            (chunksCount p <= S (chunkOffset loc))%nat ->
            loc_wf p loc /\ rem_at p loc = rem_at p loc /\ settled p loc).
  { intros loc Hwf Hv Hlast. split; [exact Hwf|]. split; [reflexivity|].
    right. split; [exact Hv|]. apply Nat.ltb_ge in Hv. destruct Hwf as [Hc Hcnt].
    rewrite rem_from_chunk_end by lia. apply rem_from_last_chunk. exact Hlast. }
  induction n as [|n IH]; intros loc Hwf Hn; simpl.
  - destruct (itemOffset loc <? chunkItemsCount loc)%nat eqn:Hv.
    + split; [exact Hwf|]. split; [reflexivity|]. left. exact Hv.
    + apply Hend; [exact Hwf | exact Hv | lia].
  - destruct (itemOffset loc <? chunkItemsCount loc)%nat eqn:Hv.
    + split; [exact Hwf|]. split; [reflexivity|]. left. exact Hv.
    + unfold page_locator_next_chunk.
      destruct (S (chunkOffset loc) <? chunksCount p)%nat eqn:Hnext.
      * apply Nat.ltb_lt in Hnext.
        destruct (IH (page_chunk_fill_locator p (S (chunkOffset loc)))) as (H1 & H2 & H3).
        { apply fill_locator_wf. exact Hnext. }
        { simpl. lia. }
        split; [exact H1|]. split; [|exact H3].
        rewrite H2. unfold rem_at. simpl.
        apply Nat.ltb_ge in Hv. destruct Hwf as [Hc Hcnt].
        rewrite (rem_from_chunk_end p (chunkOffset loc)) by lia.
        symmetry. apply rem_from_next_chunk. exact Hnext.
      * apply Nat.ltb_ge in Hnext. apply Hend; [exact Hwf | exact Hv | exact Hnext].
Qed.

Lemma find_real_item_spec (p : Page) (loc : BTreePageItemLocator) :
  loc_wf p loc ->
  loc_wf p (page_locator_find_real_item p loc) /\
  rem_at p (page_locator_find_real_item p loc) = rem_at p loc /\
  settled p (page_locator_find_real_item p loc).
Proof.
  intros Hwf. apply find_real_item_from_spec; [exact Hwf | lia].
Qed.

Lemma skipn_nth_cons {A} (d : A) (l : list A) (i : nat) :
  (i < length l)%nat -> skipn i l = nth i l d :: skipn (S i) l.
Proof.
  revert i. induction l as [|x l IH]; intros i Hi; simpl in *; [lia|].
  destruct i as [|i]; [reflexivity|]. simpl. apply IH. lia.
Qed.

Lemma locator_next_spec (p : Page) (loc : BTreePageItemLocator) :
  loc_wf p loc -> BTREE_PAGE_LOCATOR_IS_VALID p loc = true ->
  loc_wf p (BTREE_PAGE_LOCATOR_NEXT p loc) /\
  settled p (BTREE_PAGE_LOCATOR_NEXT p loc) /\
  rem_at p loc = page_read_item p loc :: rem_at p (BTREE_PAGE_LOCATOR_NEXT p loc).
Proof.
  intros Hwf Hv. unfold BTREE_PAGE_LOCATOR_NEXT.
  set (loc1 := mkLoc (chunkOffset loc) (S (itemOffset loc)) (chunkItemsCount loc)).
  assert (Hwf1 : loc_wf p loc1) by (destruct Hwf; split; simpl; auto).
  destruct (find_real_item_spec p loc1 Hwf1) as (H1 & H2 & H3).
  split; [exact H1|]. split; [exact H3|].
  rewrite H2. unfold rem_at, rem_from, page_read_item. simpl.
  unfold BTREE_PAGE_LOCATOR_IS_VALID in Hv. apply Nat.ltb_lt in Hv.
  destruct Hwf as [_ Hcnt]. rewrite Hcnt in Hv.
  rewrite (skipn_nth_cons zero_item _ _ Hv). reflexivity.
Qed.

Lemma loc_remaining_settled (p : Page) (loc : BTreePageItemLocator) :
  loc_wf p loc -> settled p loc -> loc_remaining p loc = rem_at p loc.
Proof.
  intros Hwf [Hv | [Hv He]].
  - apply loc_remaining_valid; assumption.
  - unfold rem_at. rewrite He. apply loc_remaining_invalid. exact Hv.
Qed.

Lemma o_btree_cmp_eq (a b : Tuple) : (o_btree_cmp a b =? 0) = (t_key a =? t_key b).
Proof.
  unfold o_btree_cmp. destruct (Z.compare_spec (t_key a) (t_key b)); simpl; symmetry.
  - apply Z.eqb_eq. assumption.
  - apply Z.eqb_neq. lia.
  - apply Z.eqb_neq. lia.
Qed.

Lemma o_btree_cmp_gt (a b : Tuple) : (o_btree_cmp a b >? 0) = (t_key b <? t_key a).
Proof.
  unfold o_btree_cmp. destruct (Z.compare_spec (t_key a) (t_key b)); simpl; symmetry.
  - apply Z.ltb_ge. lia.
  - apply Z.ltb_ge. lia.
  - apply Z.ltb_lt. lia.
Qed.

Lemma chunks_wf_inner (cs : list PageChunk) :
  chunks_wf cs = true ->
  forall c, (S c < length cs)%nat ->
    chunk_items (nth c cs zero_chunk) <> [] /\
    Forall (fun it => item_key it < t_key (chunk_hikey (nth c cs zero_chunk)))
           (chunk_items (nth c cs zero_chunk)).
Proof.
  induction cs as [|x cs IH]; intros Hwf c Hc; simpl in Hc; [lia|].
  simpl in Hwf. destruct cs as [|y cs]; [simpl in Hc; lia|].
  apply andb_true_iff in Hwf as [Hwf Hrest].
  apply andb_true_iff in Hwf as [Hne Hb].
  destruct c as [|c].
  - simpl. split.
    + intros He. rewrite He in Hne. discriminate.
    + apply List.Forall_forall. intros it Hin.
      rewrite forallb_forall in Hb. specialize (Hb it Hin).
      apply Z.ltb_lt in Hb. exact Hb.
  - change (nth (S c) (x :: y :: cs) zero_chunk) with (nth c (y :: cs) zero_chunk).
    apply IH; [exact Hrest | simpl in *; lia].
Qed.

Lemma page_wf_inner (p : Page) (c : nat) :
  page_wf p -> (S c < chunksCount p)%nat ->
  chunk_items (page_chunk p c) <> [] /\
  Forall (fun it => item_key it < t_key (chunk_hikey (page_chunk p c)))
         (chunk_items (page_chunk p c)).
Proof. intros Hwf Hc. apply chunks_wf_inner; assumption. Qed.

Lemma fill_locator_settled (p : Page) (c : nat) :
  page_wf p -> (c < chunksCount p)%nat -> settled p (page_chunk_fill_locator p c).
Proof.
  intros Hwf Hc.
  destruct (chunk_items (page_chunk p c)) as [|it its] eqn:Hits.
  - right. unfold BTREE_PAGE_LOCATOR_IS_VALID. simpl. rewrite Hits. simpl. split; [reflexivity|].
    unfold rem_from. rewrite Hits. simpl.
    destruct (Nat.lt_ge_cases (S c) (chunksCount p)) as [Hlt|Hge].
    + exfalso. destruct (page_wf_inner p c Hwf Hlt) as [Hne _]. apply Hne. exact Hits.
    + apply rem_from_last_chunk. exact Hge.
  - left. unfold BTREE_PAGE_LOCATOR_IS_VALID. simpl. rewrite Hits. reflexivity.
Qed.

Section Adjust.

Variables (k : Tuple) (p : Page).
Hypothesis Hpage : page_wf p.

Lemma adjust_chunk_loop (fuel : nat) :
  forall loc,
    loc_wf p loc -> settled p loc -> (chunksCount p - chunkOffset loc < fuel)%nat ->
    exists loc',
      while_loop fuel (adjust_chunk_body k p) tt loc = Ret (inl tt) loc' /\
      loc_wf p loc' /\ settled p loc' /\
      exists skipped, rem_at p loc = skipped ++ rem_at p loc' /\ all_below (t_key k) skipped.
Proof using Hpage.
  assert (Hstay : forall loc, loc_wf p loc -> settled p loc ->
            loc_wf p loc /\ settled p loc /\
            exists skipped, rem_at p loc = skipped ++ rem_at p loc /\
                            all_below (t_key k) skipped).
  { intros loc Hwf Hset. split; [exact Hwf|]. split; [exact Hset|].
    exists []. split; [reflexivity | constructor]. }
  induction fuel as [|fuel IH]; intros loc Hwf Hset Hfuel; [lia|].
  simpl. unfold bind at 1. unfold adjust_chunk_body at 1.
  unfold bind at 1, get at 1.
  destruct (Z.of_nat (chunkOffset loc) =? Z.of_nat (chunksCount p) - 1) eqn:Hlast.
  { exists loc. split; [reflexivity | apply Hstay; assumption]. }
  destruct (o_btree_cmp (chunk_hikey (page_chunk p (chunkOffset loc))) k >? 0) eqn:Hcmp.
  { exists loc. split; [reflexivity | apply Hstay; assumption]. }
  apply Z.eqb_neq in Hlast. destruct Hwf as [Hc Hcnt].
  assert (Hnext : (S (chunkOffset loc) < chunksCount p)%nat) by lia.
  unfold bind, modify, get, ret. simpl.
  unfold page_locator_next_chunk. simpl.
  apply Nat.ltb_lt in Hnext as Hnextb. rewrite Hnextb. simpl. rewrite Hnextb. simpl.
  destruct (IH (page_chunk_fill_locator p (S (chunkOffset loc))))
    as (loc' & Hrun & Hwf' & Hset' & sk & Hsk & Hbelow).
  { apply fill_locator_wf. exact Hnext. }
  { apply fill_locator_settled; assumption. }
  { simpl. lia. }
  exists loc'. split; [exact Hrun|]. split; [exact Hwf'|]. split; [exact Hset'|].
  exists (skipn (itemOffset loc) (chunk_items (page_chunk p (chunkOffset loc))) ++ sk).
  split.
  - rewrite <- app_assoc. rewrite <- Hsk. unfold rem_at at 1 2. simpl.
    unfold rem_from at 1. f_equal. apply rem_from_next_chunk. exact Hnext.
  - apply List.Forall_app. split; [|exact Hbelow].
    destruct (page_wf_inner p (chunkOffset loc) Hpage Hnext) as [_ Hb].
    rewrite o_btree_cmp_gt in Hcmp. apply Z.ltb_ge in Hcmp.
    apply List.Forall_forall. intros it Hin.
    rewrite List.Forall_forall in Hb.
    assert (Hin' : In it (chunk_items (page_chunk p (chunkOffset loc)))).
    { rewrite <- (firstn_skipn (itemOffset loc)). apply in_or_app. right. exact Hin. }
    specialize (Hb it Hin'). simpl in Hb. lia.
Qed.

Lemma adjust_item_loop (fuel : nat) :
  forall loc,
    loc_wf p loc -> settled p loc -> (length (rem_at p loc) < fuel)%nat ->
    exists r loc',
      while_loop fuel (adjust_item_body k p) tt loc = Ret r loc' /\
      loc_wf p loc' /\ settled p loc' /\
      (exists skipped, rem_at p loc = skipped ++ rem_at p loc' /\
                       all_below (t_key k) skipped) /\
      item_loop_result (t_key k) r (rem_at p loc').
Proof.
  assert (Hstay : forall loc r, loc_wf p loc -> settled p loc ->
            item_loop_result (t_key k) r (rem_at p loc) ->
            loc_wf p loc /\ settled p loc /\
            (exists skipped, rem_at p loc = skipped ++ rem_at p loc /\
                             all_below (t_key k) skipped) /\
            item_loop_result (t_key k) r (rem_at p loc)).
  { intros loc r Hwf Hset Hr. split; [exact Hwf|]. split; [exact Hset|].
    split; [|exact Hr]. exists []. split; [reflexivity | constructor]. }
  induction fuel as [|fuel IH]; intros loc Hwf Hset Hfuel; [lia|].
  simpl. unfold bind at 1. unfold adjust_item_body at 1.
  unfold bind at 1, get at 1.
  destruct (BTREE_PAGE_LOCATOR_IS_VALID p loc) eqn:Hv; simpl.
  2:{ exists (inl tt), loc. split; [reflexivity|]. apply Hstay; auto.
      destruct Hset as [Hv'|[_ He]]; [congruence|]. unfold rem_at. rewrite He. exact I. }
  destruct (locator_next_spec p loc Hwf Hv) as (Hwfn & Hsetn & Hrem).
  rewrite o_btree_cmp_eq, o_btree_cmp_gt.
  unfold BTREE_PAGE_READ_LEAF_TUPLE.
  destruct (t_key (it_tuple (page_read_item p loc)) =? t_key k) eqn:Heq.
  { apply Z.eqb_eq in Heq. exists (inr true), loc. split; [reflexivity|]. apply Hstay; auto.
    simpl. eexists _, _. split; [exact Hrem | exact Heq]. }
  destruct (t_key k <? t_key (it_tuple (page_read_item p loc))) eqn:Hgt.
  { apply Z.ltb_lt in Hgt. exists (inl tt), loc. split; [reflexivity|]. apply Hstay; auto.
    simpl. rewrite Hrem. simpl. unfold item_key. lia. }
  apply Z.eqb_neq in Heq. apply Z.ltb_ge in Hgt.
  unfold bind, modify, ret. simpl.
  destruct (IH (BTREE_PAGE_LOCATOR_NEXT p loc) Hwfn Hsetn)
    as (r & loc' & Hrun & Hwf' & Hset' & (sk & Hsk & Hb) & Hres).
  { rewrite Hrem in Hfuel. simpl in Hfuel. lia. }
  exists r, loc'. split; [exact Hrun|]. split; [exact Hwf'|]. split; [exact Hset'|].
  split; [|exact Hres].
  exists (page_read_item p loc :: sk). split.
  - rewrite Hrem, Hsk. reflexivity.
  - constructor; [unfold item_key; lia | exact Hb].
Qed.

Lemma rem_at_length (loc : BTreePageItemLocator) :
  loc_wf p loc -> (length (rem_at p loc) <= length (page_items p))%nat.
Proof.
  intros [Hc _]. rewrite (page_items_split p _ Hc). unfold rem_at, rem_from.
  rewrite !length_app, length_skipn. lia.
Qed.

(** The search moves the cursor over keys below the sought one only and
    answers [true] exactly on an item that carries it. *)
Lemma adjust_location_spec (fuel : nat) (loc : BTreePageItemLocator) :
  loc_wf p loc ->
  (chunksCount p + length (page_items p) < fuel)%nat ->
  exists b loc',
    adjust_location_with_next_key fuel k p loc = Ret b loc' /\
    loc_wf p loc' /\
    skipped_below (t_key k) p loc loc' /\
    (b = true ->
     exists it rest, loc_remaining p loc' = it :: rest /\ item_key it = t_key k).
Proof using Hpage.
  intros Hwf Hfuel. unfold adjust_location_with_next_key.
  unfold bind at 1, get at 1.
  destruct (BTREE_PAGE_LOCATOR_IS_VALID p loc) eqn:Hv; simpl.
  2:{ exists false, loc. split; [reflexivity|]. split; [exact Hwf|]. split; [|discriminate].
      exists []. rewrite loc_remaining_invalid by exact Hv.
      split; [reflexivity|]. split; constructor. }
  assert (Hset : settled p loc) by (left; exact Hv).
  destruct (locator_next_spec p loc Hwf Hv) as (_ & _ & Hrem).
  rewrite o_btree_cmp_eq, o_btree_cmp_gt. unfold BTREE_PAGE_READ_LEAF_TUPLE.
  pose proof (loc_remaining_valid p loc Hwf Hv) as Hlr. fold (rem_at p loc) in Hlr.
  destruct (t_key (it_tuple (page_read_item p loc)) =? t_key k) eqn:Heq.
  { apply Z.eqb_eq in Heq. exists true, loc. split; [reflexivity|]. split; [exact Hwf|]. split.
    - exists []. rewrite Hlr, Hrem.
      split; [reflexivity|]. split; [constructor | simpl; unfold item_key; lia].
    - intros _. rewrite Hlr, Hrem. eexists _, _. split; [reflexivity | exact Heq]. }
  destruct (t_key k <? t_key (it_tuple (page_read_item p loc))) eqn:Hgt.
  { apply Z.ltb_lt in Hgt. exists false, loc. split; [reflexivity|]. split; [exact Hwf|].
    split; [|discriminate].
    exists []. rewrite Hlr, Hrem.
    split; [reflexivity|]. split; [constructor | simpl; unfold item_key; lia]. }
  destruct (adjust_chunk_loop fuel loc Hwf Hset)
    as (loc1 & Hrun1 & Hwf1 & Hset1 & sk1 & Hsk1 & Hb1).
  { destruct Hwf. lia. }
  unfold bind at 1. rewrite Hrun1.
  destruct (adjust_item_loop fuel loc1 Hwf1 Hset1)
    as (r & loc2 & Hrun2 & Hwf2 & Hset2 & (sk2 & Hsk2 & Hb2) & Hres).
  { pose proof (rem_at_length loc1 Hwf1). lia. }
  unfold bind at 1. rewrite Hrun2.
  assert (Hsb : head_at_least (t_key k) (rem_at p loc2) ->
                skipped_below (t_key k) p loc loc2).
  { intros Hh. exists (sk1 ++ sk2).
    rewrite Hlr, (loc_remaining_settled p loc2 Hwf2 Hset2).
    split; [rewrite Hsk1, Hsk2, app_assoc; reflexivity|].
    split; [apply List.Forall_app; split; assumption | exact Hh]. }
  destruct r as [[]|[|]]; simpl in Hres.
  - exists false, loc2. split; [reflexivity|]. split; [exact Hwf2|].
    split; [apply Hsb; exact Hres | discriminate].
  - destruct Hres as (it & rest & Hr & Hk).
    exists true, loc2. split; [reflexivity|]. split; [exact Hwf2|]. split.
    + apply Hsb. rewrite Hr. simpl. lia.
    + intros _. rewrite (loc_remaining_settled p loc2 Hwf2 Hset2), Hr. eauto.
  - contradiction.
Qed.

End Adjust.

Lemma zoom_ret {W A} getl setl (m : M BTreePageItemLocator A) (st : St W) a l :
  m (getl (scan st)) = Ret a l ->
  zoom getl setl m st = Ret a (mkSt (setl l (scan st)) (world st) (log st) (glob st)).
Proof. intros H. unfold zoom. rewrite H. reflexivity. Qed.



(** ** The fallback iterator after a left-bound mismatch *)

(** A valid locator and the one after it stand at different offsets. *)
Lemma locator_next_offset (p : Page) (loc : BTreePageItemLocator) :
  loc_wf p loc ->
  BTREE_PAGE_LOCATOR_IS_VALID p loc = true ->
  BTREE_PAGE_LOCATOR_IS_VALID p (BTREE_PAGE_LOCATOR_NEXT p loc) = true ->
  BTREE_PAGE_LOCATOR_GET_OFFSET p (BTREE_PAGE_LOCATOR_NEXT p loc) <>
  BTREE_PAGE_LOCATOR_GET_OFFSET p loc.
Proof.
  intros Hwf Hv Hn Heq.
  destruct (locator_next_spec p loc Hwf Hv) as (Hwf' & _ & Hrem).
  unfold rem_at in Hrem.
  rewrite <- (loc_remaining_valid p loc Hwf Hv) in Hrem.
  rewrite <- (loc_remaining_valid p _ Hwf' Hn) in Hrem.
  unfold loc_remaining in Hrem. rewrite Hv, Hn, Heq in Hrem.
  apply (f_equal (@length _)) in Hrem. simpl in Hrem. lia.
Qed.

Lemma get_next_key_eq {W} (ext : Externals W) (page : Page) (s : BTreeSeqScan) :
  get_next_key page s =
    (key_after page (intLoc s), set_intLoc (BTREE_PAGE_LOCATOR_NEXT page (intLoc s)) s).
Proof.
  unfold get_next_key, key_after. cbn [intLoc set_intLoc].
  destruct (BTREE_PAGE_LOCATOR_IS_VALID page _); [reflexivity|].
  destruct (negb (p_rightmost page)); reflexivity.
Qed.

(** The run of [load_next_internal_page] on a mismatch. *)
Lemma load_next_internal_page_mismatch {W} (ext : Externals W) (fuel : nat) (st : St W)
    (pk : Tuple) :
  left_bound_mismatch ext st pk ->
  let c := snd (located ext st) in
  let created := o_btree_iterator_create ext (fst (located ext st)) (desc (scan st))
                   (Some pk) (snapshotCsn (scan st)) in
  load_next_internal_page ext fuel st =
    Ret true
      (mkSt (set_iterEnd (key_after (ctx_img c) (located_loc c))
               (set_haveHistImg false
                  (set_leafLoc BTREE_PAGE_LOCATOR_SET_INVALID
                     (set_iter (Some (snd created))
                        (set_keyRangeHigh (key_after (ctx_img c) (located_loc c))
                           (set_intLoc (BTREE_PAGE_LOCATOR_NEXT (ctx_img c) (located_loc c))
                              (set_intStartOffset
                                 (BTREE_PAGE_LOCATOR_GET_OFFSET (ctx_img c) (located_loc c))
                                 (set_firstPageIsLoaded true
                                    (set_ctx c (set_prevHikey (Some pk) (scan st)))))))))))
            (fst created)
            (log st ++ [EvFindPage (Some pk); EvIteratorCreate (Some pk) (snapshotCsn (scan st))])
            (glob st)).
Proof.
  intros (Hpo & Hhk & Hlvl & it & Hlb & Hcmp). cbv zeta.
  unfold located, left_bound, located_loc in *.
  unfold int_page_hikey, is_first_page_loaded in *. rewrite Hpo in *. rewrite Hhk in *.
  remember (find_page ext (world st) _ (Some pk)) as r eqn:Hr. symmetry in Hr.
  apply Z.eqb_neq in Hcmp. unfold BTREE_PAGE_READ_INTERNAL_TUPLE in Hlb.
  apply sat_eq. unfold load_next_internal_page, int_page_hikey, is_first_page_loaded,
    set_first_page_loaded.
  srun. change (1 =? 1)%positive with true. srun.
  match type of Hlb with (if ?b then _ else _) = _ => destruct b eqn:Hoff end;
    [injection Hlb as Hlb|]; srun; sunfold; srun;
    rewrite !(get_next_key_eq ext); srun;
    (split; [reflexivity|]); rewrite <- app_assoc; reflexivity.
Qed.

(** While the iterator is open, get-next-tuple asks it first: a tuple it
    gives is returned at once, and only when it has none left is it closed
    and the traversal of the pages taken up again. *)
Lemma getnext_asks_iterator_first {W} (ext : Externals W) (fuel : nat) (st : St W) (h : Z) :
  iter (scan st) = Some h ->
  let r := o_btree_iterator_fetch ext (world st) h (iterEnd (scan st)) in
  let after s := mkSt s (fst r) (log st ++ [EvIteratorFetch h (iterEnd (scan st))]) (glob st) in
  btree_seq_scan_getnext_internal ext fuel st =
    match fst (fst (snd r)) with
    | Some t => Ret (Some (t, snd (fst (snd r)), snd (snd r))) (after (scan st))
    | None => btree_seq_scan_getnext_internal ext fuel (after (set_iter None (scan st)))
    end.
Proof.
  intros Hit. cbv zeta.
  unfold btree_seq_scan_getnext_internal, btree_seq_scan_get_tuple_from_iterator.
  unfold bind at 1. unfold get_scan at 1. rewrite Hit.
  unfold bind at 1. unfold bind at 1. unfold get_scan at 1. rewrite Hit.
  unfold bind at 1. unfold call at 1.
  destruct (o_btree_iterator_fetch ext (world st) h (iterEnd (scan st))) as [w [[t c] hn]].
  cbn [fst snd]. destruct t as [t|]; reflexivity.
Qed.

(** With a loaded page and a valid locator away from the start offset,
    [get_next_downlink] gives the downlink under the locator and the key
    of that downlink as the low end of its key range. *)
Lemma get_next_downlink_resumes {W} (ext : Externals W) (fuel : nat) (st : St W) :
  poscan (scan st) = None ->
  firstPageIsLoaded (scan st) = true ->
  BTREE_PAGE_LOCATOR_IS_VALID (ctx_img (ctx (scan st))) (intLoc (scan st)) = true ->
  BTREE_PAGE_LOCATOR_GET_OFFSET (ctx_img (ctx (scan st))) (intLoc (scan st)) <>
    intStartOffset (scan st) ->
  exists st',
    get_next_downlink ext (S fuel) st =
      Ret (Some (it_downlink (page_read_item (ctx_img (ctx (scan st))) (intLoc (scan st))))) st' /\
    keyRangeLow (scan st') =
      Some (it_tuple (page_read_item (ctx_img (ctx (scan st))) (intLoc (scan st)))).
Proof.
  intros Hpo Hfl Hv Hoff. apply Nat.eqb_neq in Hoff.
  cut (sat (get_next_downlink ext (S fuel) st)
         (fun a s' =>
            a = Some (it_downlink (page_read_item (ctx_img (ctx (scan st))) (intLoc (scan st)))) /\
            keyRangeLow (scan s') =
              Some (it_tuple (page_read_item (ctx_img (ctx (scan st))) (intLoc (scan st)))))
         (fun _ _ => False)).
  { intros H. apply sat_returns in H. destruct H as (a & s' & Heq & -> & Hk).
    exists s'. split; assumption. }
  unfold get_next_downlink. srun. unfold get_next_downlink_body. srun.
  unfold get_current_downlink_key. rewrite !(get_next_key_eq ext). srun.
  split; reflexivity.
Qed.

(** On the rightmost page, past its last downlink, there is no downlink
    left and nothing is loaded. *)
Lemma get_next_downlink_at_end {W} (ext : Externals W) (fuel : nat) (st : St W) :
  poscan (scan st) = None ->
  firstPageIsLoaded (scan st) = true ->
  BTREE_PAGE_LOCATOR_IS_VALID (ctx_img (ctx (scan st))) (intLoc (scan st)) = false ->
  p_rightmost (ctx_img (ctx (scan st))) = true ->
  get_next_downlink ext (S fuel) st = Ret None st.
Proof.
  intros Hpo Hfl Hv Hr.
  apply sat_eq. unfold get_next_downlink. srun. unfold get_next_downlink_body. srun.
  split; [reflexivity|]. destruct st; reflexivity.
Qed.



(** ** Scans with a snapshot token that is not normal *)

Ltac nohist_contra :=
  unfold no_hist, quiet in *;
  repeat match goal with H : _ /\ _ |- _ => destruct H end;
  repeat match goal with
         | H : ?a = false, H' : negb ?a = false |- _ => rewrite H in H'; discriminate H'
         | H : ?a = false, H' : ?a = true |- _ => rewrite H in H'; discriminate H'
         end;
  congruence.

Ltac nohist_leaf :=
  idtac;
  unfold not_too_old, no_hist, quiet in *; cbn [scan world log glob] in *;
  repeat match goal with H : _ /\ _ |- _ => destruct H end;
  unfold_scan_updates;
  rewrite ?undo_fetches_app; simpl; rewrite ?app_nil_r;
  split_ifs; intuition (try congruence).

Lemma load_first_historical_page_nohist {W} (ext : Externals W) U fuel :
  inv (no_hist ext U) (not_too_old U) (load_first_historical_page ext fuel).
Proof. unfold load_first_historical_page. inv_auto nohist_contra nohist_leaf. Qed.
#[local] Hint Resolve load_first_historical_page_nohist : scan_inv.

Lemma scan_make_iterator_nohist {W} (ext : Externals W) U lo hi :
  inv (no_hist ext U) (not_too_old U) (scan_make_iterator ext lo hi).
Proof. unfold scan_make_iterator. inv_auto nohist_contra nohist_leaf. Qed.
#[local] Hint Resolve scan_make_iterator_nohist : scan_inv.

Lemma load_next_internal_page_nohist {W} (ext : Externals W) U fuel :
  inv (no_hist ext U) (not_too_old U) (load_next_internal_page ext fuel).
Proof. unfold load_next_internal_page. inv_auto nohist_contra nohist_leaf. Qed.
#[local] Hint Resolve load_next_internal_page_nohist : scan_inv.

Lemma get_next_downlink_body_nohist {W} (ext : Externals W) U fuel b :
  inv (no_hist ext U) (not_too_old U) (get_next_downlink_body ext fuel b).
Proof. unfold get_next_downlink_body. inv_auto nohist_contra nohist_leaf. Qed.
#[local] Hint Resolve get_next_downlink_body_nohist : scan_inv.

Lemma get_next_downlink_nohist {W} (ext : Externals W) U fuel :
  inv (no_hist ext U) (not_too_old U) (get_next_downlink ext fuel).
Proof. unfold get_next_downlink. inv_auto nohist_contra nohist_leaf. Qed.
#[local] Hint Resolve get_next_downlink_nohist : scan_inv.

Lemma check_in_memory_leaf_page_nohist {W} (ext : Externals W) U lo hi :
  inv (no_hist ext U) (not_too_old U) (check_in_memory_leaf_page ext lo hi).
Proof. unfold check_in_memory_leaf_page. inv_auto nohist_contra nohist_leaf. Qed.
#[local] Hint Resolve check_in_memory_leaf_page_nohist : scan_inv.

Lemma iterate_internal_page_body_nohist {W} (ext : Externals W) U fuel u :
  inv (no_hist ext U) (not_too_old U) (iterate_internal_page_body ext fuel u).
Proof. unfold iterate_internal_page_body. inv_auto nohist_contra nohist_leaf. Qed.
#[local] Hint Resolve iterate_internal_page_body_nohist : scan_inv.

Lemma iterate_internal_page_nohist {W} (ext : Externals W) U fuel :
  inv (no_hist ext U) (not_too_old U) (iterate_internal_page ext fuel).
Proof. unfold iterate_internal_page. inv_auto nohist_contra nohist_leaf. Qed.
#[local] Hint Resolve iterate_internal_page_nohist : scan_inv.

Lemma load_next_disk_leaf_page_nohist {W} (ext : Externals W) U fuel :
  inv (no_hist ext U) (not_too_old U) (load_next_disk_leaf_page ext fuel).
Proof. unfold load_next_disk_leaf_page. inv_auto nohist_contra nohist_leaf. Qed.
#[local] Hint Resolve load_next_disk_leaf_page_nohist : scan_inv.

Lemma btree_seq_scan_get_tuple_from_iterator_nohist {W} (ext : Externals W) U  :
  inv (no_hist ext U) (not_too_old U) (btree_seq_scan_get_tuple_from_iterator ext ).
Proof. unfold btree_seq_scan_get_tuple_from_iterator. inv_auto nohist_contra nohist_leaf. Qed.
#[local] Hint Resolve btree_seq_scan_get_tuple_from_iterator_nohist : scan_inv.

Lemma apply_next_key_body_nohist {W} (ext : Externals W) U fuel f u :
  inv (no_hist ext U) (not_too_old U) (apply_next_key_body ext fuel f u).
Proof. unfold apply_next_key_body. inv_auto nohist_contra nohist_leaf. Qed.
#[local] Hint Resolve apply_next_key_body_nohist : scan_inv.

Lemma apply_next_key_nohist {W} (ext : Externals W) U fuel f :
  inv (no_hist ext U) (not_too_old U) (apply_next_key ext fuel f).
Proof. unfold apply_next_key. inv_auto nohist_contra nohist_leaf. Qed.
#[local] Hint Resolve apply_next_key_nohist : scan_inv.

Lemma hist_merge_body_nohist {W} (ext : Externals W) U fuel u :
  inv (no_hist ext U) (not_too_old U) (hist_merge_body ext fuel u).
Proof. unfold hist_merge_body. inv_auto nohist_contra nohist_leaf. Qed.
#[local] Hint Resolve hist_merge_body_nohist : scan_inv.

Lemma next_in_memory_leaf_nohist {W} (ext : Externals W) U fuel :
  inv (no_hist ext U) (not_too_old U) (next_in_memory_leaf ext fuel).
Proof. unfold next_in_memory_leaf. inv_auto nohist_contra nohist_leaf. Qed.
#[local] Hint Resolve next_in_memory_leaf_nohist : scan_inv.

Lemma next_disk_leaf_nohist {W} (ext : Externals W) U fuel :
  inv (no_hist ext U) (not_too_old U) (next_disk_leaf ext fuel).
Proof. unfold next_disk_leaf. inv_auto nohist_contra nohist_leaf. Qed.
#[local] Hint Resolve next_disk_leaf_nohist : scan_inv.

Lemma getnext_body_nohist {W} (ext : Externals W) U fuel u :
  inv (no_hist ext U) (not_too_old U) (getnext_body ext fuel u).
Proof. unfold getnext_body. inv_auto nohist_contra nohist_leaf. Qed.
#[local] Hint Resolve getnext_body_nohist : scan_inv.

Lemma btree_seq_scan_getnext_internal_nohist {W} (ext : Externals W) U fuel :
  inv (no_hist ext U) (not_too_old U) (btree_seq_scan_getnext_internal ext fuel).
Proof. unfold btree_seq_scan_getnext_internal. inv_auto nohist_contra nohist_leaf. Qed.
#[local] Hint Resolve btree_seq_scan_getnext_internal_nohist : scan_inv.

Lemma btree_seq_scan_getnext_nohist {W} (ext : Externals W) U fuel :
  inv (no_hist ext U) (not_too_old U) (btree_seq_scan_getnext ext fuel).
Proof. unfold btree_seq_scan_getnext. inv_auto nohist_contra nohist_leaf. Qed.
#[local] Hint Resolve btree_seq_scan_getnext_nohist : scan_inv.

Lemma btree_seq_scan_get_tuple_from_iterator_raw_nohist {W} (ext : Externals W) U  :
  inv (no_hist ext U) (not_too_old U) (btree_seq_scan_get_tuple_from_iterator_raw ext ).
Proof. unfold btree_seq_scan_get_tuple_from_iterator_raw. inv_auto nohist_contra nohist_leaf. Qed.
#[local] Hint Resolve btree_seq_scan_get_tuple_from_iterator_raw_nohist : scan_inv.

Lemma getnext_raw_body_nohist {W} (ext : Externals W) U fuel u :
  inv (no_hist ext U) (not_too_old U) (getnext_raw_body ext fuel u).
Proof. unfold getnext_raw_body. inv_auto nohist_contra nohist_leaf. Qed.
#[local] Hint Resolve getnext_raw_body_nohist : scan_inv.

Lemma btree_seq_scan_getnext_raw_internal_nohist {W} (ext : Externals W) U fuel :
  inv (no_hist ext U) (not_too_old U) (btree_seq_scan_getnext_raw_internal ext fuel).
Proof. unfold btree_seq_scan_getnext_raw_internal. inv_auto nohist_contra nohist_leaf. Qed.
#[local] Hint Resolve btree_seq_scan_getnext_raw_internal_nohist : scan_inv.

Lemma btree_seq_scan_getnext_raw_nohist {W} (ext : Externals W) U fuel :
  inv (no_hist ext U) (not_too_old U) (btree_seq_scan_getnext_raw ext fuel).
Proof. unfold btree_seq_scan_getnext_raw. inv_auto nohist_contra nohist_leaf. Qed.
#[local] Hint Resolve btree_seq_scan_getnext_raw_nohist : scan_inv.


(** *** Creation with a snapshot token that is not normal *)

Ltac settled_leaf :=
  idtac;
  unfold not_too_old, no_hist_unless_finished, hist_settled, no_hist, quiet,
    single_leaf_page_rel in *;
  cbn [scan world log glob] in *;
  repeat match goal with H : _ /\ _ |- _ => destruct H end;
  repeat match goal with
         | Hp : poscan ?s = None, H : context [poscan ?s] |- _ => rewrite Hp in H
         | H : negb ?b = _ |- _ => destruct b eqn:?; simpl in H; try discriminate H; clear H
         end;
  unfold_scan_updates; scan_fields;
  rewrite ?undo_fetches_app; simpl; rewrite ?app_nil_r;
  split_ifs; intuition (try congruence).

Ltac settled_contra :=
  unfold hist_settled, no_hist, quiet in *;
  repeat match goal with H : _ /\ _ |- _ => destruct H end;
  congruence.

Ltac settled_forget :=
  repeat match goal with
         | H : hist_settled _ _ _ |- _ => clear H
         | H : no_hist _ _ _ |- _ => clear H
         | H : quiet _ _ _ |- _ => clear H
         | H : _ /\ _ |- _ => clear H
         end.

Ltac krun ext U := arun (hist_settled ext U) settled_contra settled_leaf settled_forget.

Lemma load_first_historical_page_settles {W} (ext : Externals W) U fuel :
  hoare (quiet ext U) (load_first_historical_page ext fuel)
    (fun _ => no_hist ext U) (not_too_old U).
Proof.
  intros st (Hpo & Hnn & HU).
  rewrite (load_first_historical_page_noop ext fuel st Hnn).
  repeat split; assumption.
Qed.

Lemma scan_make_iterator_settles {W} (ext : Externals W) U lo hi :
  hoare (quiet ext U) (scan_make_iterator ext lo hi)
    (fun _ => no_hist ext U) (not_too_old U).
Proof.
  intros st (Hpo & Hnn & HU). unfold scan_make_iterator. srun.
  settled_leaf.
Qed.

Lemma load_next_internal_page_settled {W} (ext : Externals W) U fuel :
  hoare (hist_settled ext U) (load_next_internal_page ext fuel)
    (fun b st => if b then hist_settled ext U st else no_hist ext U st)
    (not_too_old U).
Proof.
  intros st HI. unfold load_next_internal_page. krun ext U; try solve [settled_leaf].
  - scall (scan_make_iterator_settles ext U) settled_leaf settled_leaf.
    krun ext U. settled_leaf.
  - scall (load_first_historical_page_settles ext U fuel) settled_leaf settled_leaf.
    krun ext U. settled_leaf.
Qed.

Lemma get_next_downlink_body_settled {W} (ext : Externals W) U fuel b :
  inv (hist_settled ext U) (not_too_old U) (get_next_downlink_body ext fuel b).
Proof.
  intros st HI. unfold get_next_downlink_body. krun ext U; try solve [settled_leaf].
  scall (load_next_internal_page_settled ext U fuel) assumption settled_leaf.
  match goal with H : if ?a then _ else _ |- _ => destruct a end;
    cbn [negb]; krun ext U; solve [settled_leaf].
Qed.

Lemma get_next_downlink_settled {W} (ext : Externals W) U fuel :
  inv (hist_settled ext U) (not_too_old U) (get_next_downlink ext fuel).
Proof.
  intros st HI. unfold get_next_downlink. krun ext U; try solve [settled_leaf].
  apply (sat_while (fun _ => hist_settled ext U)); [exact HI| |intros; settled_leaf].
  intros l s Hs. eapply sat_weaken; [apply get_next_downlink_body_settled; exact Hs | | auto].
  intros [l'|l'|a] s' Hs'; [exact Hs' | |]; krun ext U; solve [settled_leaf].
Qed.

Lemma check_in_memory_leaf_page_settled {W} (ext : Externals W) U lo hi :
  inv (hist_settled ext U) (not_too_old U) (check_in_memory_leaf_page ext lo hi).
Proof.
  intros st HI. unfold check_in_memory_leaf_page. krun ext U; try solve [settled_leaf].
  all: scall (scan_make_iterator_settles ext U) settled_leaf settled_leaf; settled_leaf.
Qed.

Ltac kcall ext U :=
  lazymatch goal with
  | |- sat (scan_make_iterator _ _ _ _) _ _ =>
      scall (scan_make_iterator_settles ext U) settled_leaf settled_leaf
  | |- sat (load_first_historical_page _ ?fuel _) _ _ =>
      scall (load_first_historical_page_settles ext U fuel) settled_leaf settled_leaf
  | |- sat (get_next_downlink _ ?fuel _) _ _ =>
      scall (get_next_downlink_settled ext U fuel) assumption settled_leaf
  | |- sat (check_in_memory_leaf_page _ _ _ _) _ _ =>
      scall (check_in_memory_leaf_page_settled ext U) assumption settled_leaf
  end.

Ltac kauto ext U :=
  repeat (krun ext U; try (solve [settled_leaf]); try kcall ext U).

(** One round of [iterate_internal_page]: when it ends the walk with a
    leaf or an iterator, there is no historical image. *)
Lemma iterate_internal_page_body_settled {W} (ext : Externals W) U fuel u :
  hoare (hist_settled ext U) (iterate_internal_page_body ext fuel u)
    (fun c st => match c with
                 | Return true => no_hist ext U st
                 | _ => hist_settled ext U st
                 end)
    (not_too_old U).
Proof.
  intros st HI. unfold iterate_internal_page_body. kauto ext U.
Qed.

Lemma iterate_internal_page_settled {W} (ext : Externals W) U fuel :
  hoare (hist_settled ext U) (iterate_internal_page ext fuel)
    (fun b st => if b then no_hist ext U st else hist_settled ext U st)
    (not_too_old U).
Proof.
  intros st HI. unfold iterate_internal_page. apply sat_bind.
  apply (sat_while (fun _ => hist_settled ext U)); [exact HI| |intros; settled_leaf].
  intros l s Hs.
  eapply sat_weaken; [apply iterate_internal_page_body_settled; exact Hs | | auto].
  intros [l'|l'|[|]] s' Hs'; [exact Hs' | | |]; kauto ext U.
Qed.

Lemma load_next_disk_leaf_page_settled {W} (ext : Externals W) U fuel :
  hoare (hist_settled ext U) (load_next_disk_leaf_page ext fuel)
    (fun ok st => if ok then no_hist ext U st else hist_settled ext U st)
    (not_too_old U).
Proof.
  intros st HI. unfold load_next_disk_leaf_page. kauto ext U.
Qed.


(** The scan that creation is about to register: a plain one, whose
    snapshot token is not normal and which has no iterator. *)
Lemma pin_checkpoint_body_quiet {W} (ext : Externals W) U d n :
  inv (fun st => quiet ext U st /\ iter (scan st) = None) (not_too_old U)
    (pin_checkpoint_body ext d n).
Proof.
  intros st HI. unfold pin_checkpoint_body.
  arun (fun st : St W => quiet ext U st /\ iter (scan st) = None)
       settled_contra settled_leaf settled_forget; settled_leaf.
Qed.

Lemma make_btree_seq_scan_internal_settled {W} (ext : Externals W) U fuel d c cbs smp :
  COMMITSEQNO_IS_NORMAL ext c = false ->
  hoare (fun st => undo_fetches (log st) = U)
    (make_btree_seq_scan_internal ext fuel d c cbs smp None)
    (fun _ => no_hist_unless_finished ext U) (not_too_old U).
Proof.
  intros Hc st HU. unfold make_btree_seq_scan_internal.
  srun.
  abs_state (fun st : St W => quiet ext U st /\ iter (scan st) = None) settled_leaf idtac.
  arun (fun st : St W => quiet ext U st /\ iter (scan st) = None)
       settled_contra settled_leaf settled_forget.
  all: apply (sat_while (fun _ (st : St W) => quiet ext U st /\ iter (scan st) = None));
    [ assumption
    | intros ? ? Hs'; eapply sat_weaken;
      [ apply pin_checkpoint_body_quiet; exact Hs'
      | intros [?|?|?] ? Hs2; [ exact Hs2 | | ]
      | auto ]
    | intros; settled_leaf ].
  all: apply sat_bind, sat_sync_heap; srun.
  all: scall (iterate_internal_page_settled ext U fuel) settled_leaf settled_leaf.
  all: match goal with H : if ?a then _ else _ |- _ => destruct a end; cbn [negb andb].
  all: krun ext U; try (solve [settled_leaf]).
  all: scall (load_next_disk_leaf_page_settled ext U fuel) assumption settled_leaf.
  all: match goal with H : if ?a then _ else _ |- _ => destruct a end; cbn [negb andb].
  all: krun ext U; solve [settled_leaf].
Qed.


(** *** The operations of a scan with a snapshot token that is not normal *)

Ltac unless_finished_leaf :=
  unfold not_too_old, no_hist_unless_finished, no_hist, quiet in *;
  repeat match goal with H : _ /\ _ |- _ => destruct H end;
  repeat match goal with
         | H : (_ || _) = true |- _ => apply orb_true_iff in H
         | H : (_ || _) = false |- _ => apply orb_false_iff in H; destruct H
         | H : status_eqb ?a _ = _ |- _ =>
             destruct a eqn:?; simpl in H; try discriminate H; clear H
         | H : _ \/ _ |- _ => destruct H
         end;
  intuition (try congruence).

Lemma btree_seq_scan_getnext_unless_finished {W} (ext : Externals W) U fuel :
  inv (no_hist_unless_finished ext U) (not_too_old U) (btree_seq_scan_getnext ext fuel).
Proof.
  intros st HJ. unfold btree_seq_scan_getnext. apply sat_bind, sat_get_scan.
  destruct (status_eqb (status (scan st)) BTreeSeqScanInMemory
            || status_eqb (status (scan st)) BTreeSeqScanDisk) eqn:Hst.
  - eapply sat_weaken;
      [ apply (btree_seq_scan_getnext_internal_nohist ext U fuel) | | auto ];
      cbv beta; intros; unless_finished_leaf.
  - apply sat_ret. exact HJ.
Qed.

Lemma btree_seq_scan_getnext_raw_unless_finished {W} (ext : Externals W) U fuel :
  inv (no_hist_unless_finished ext U) (not_too_old U) (btree_seq_scan_getnext_raw ext fuel).
Proof.
  intros st HJ. unfold btree_seq_scan_getnext_raw. apply sat_bind, sat_get_scan.
  destruct (status_eqb (status (scan st)) BTreeSeqScanInMemory
            || status_eqb (status (scan st)) BTreeSeqScanDisk) eqn:Hst.
  - apply sat_bind. eapply sat_weaken;
      [ apply (btree_seq_scan_getnext_raw_internal_nohist ext U fuel);
        unless_finished_leaf
      | cbv beta | auto ].
    intros o s' Hs'. apply sat_bind, sat_get_scan.
    destruct (status_eqb (status (scan s')) BTreeSeqScanInMemory
              || status_eqb (status (scan s')) BTreeSeqScanDisk);
      apply sat_ret; unless_finished_leaf.
  - apply sat_ret. exact HJ.
Qed.




(** ** Scans of a tree that is a single leaf page *)

Ltac single_contra :=
  unfold on_single_leaf in *;
  repeat match goal with H : _ /\ _ |- _ => destruct H end;
  repeat match goal with
         | H : ?a = false, H' : negb ?a = false |- _ => rewrite H in H'; discriminate H'
         | H : (_ >=? _) = false |- _ => rewrite Z.geb_leb in H; apply Z.leb_gt in H
         end;
  first [ congruence | lia ].

Ltac single_leaf :=
  idtac;
  unfold no_disk_read, on_single_leaf in *; cbn [scan world log glob] in *;
  repeat match goal with H : _ /\ _ |- _ => destruct H end;
  unfold_scan_updates; scan_fields;
  rewrite ?disk_reads_app; simpl; rewrite ?app_nil_r;
  split_ifs; intuition (try congruence; try lia).

Ltac single_forget :=
  repeat match goal with
         | H : on_single_leaf _ _ _ |- _ => clear H
         | H : _ /\ _ |- _ => clear H
         end.

Section SingleLeaf.

Context {W : Type} (ext : Externals W).
Hypothesis Hw : single_leaf_world ext.

Ltac lrun D k := arun (@on_single_leaf W D k) single_contra single_leaf single_forget.

Lemma load_first_historical_page_body_single D k l :
  inv (on_single_leaf D k) (no_disk_read D) (load_first_historical_page_body ext l).
Proof. unfold load_first_historical_page_body. inv_auto single_contra single_leaf. Qed.
#[local] Hint Resolve load_first_historical_page_body_single : scan_inv.

Lemma load_first_historical_page_single D k fuel :
  inv (on_single_leaf D k) (no_disk_read D) (load_first_historical_page ext fuel).
Proof. unfold load_first_historical_page. inv_auto single_contra single_leaf. Qed.
#[local] Hint Resolve load_first_historical_page_single : scan_inv.

Lemma load_next_historical_page_body_single D k pk hd :
  inv (on_single_leaf D k) (no_disk_read D) (load_next_historical_page_body ext pk hd).
Proof. unfold load_next_historical_page_body. inv_auto single_contra single_leaf. Qed.
#[local] Hint Resolve load_next_historical_page_body_single : scan_inv.

Lemma load_next_historical_page_single D k fuel :
  inv (on_single_leaf D k) (no_disk_read D) (load_next_historical_page ext fuel).
Proof. unfold load_next_historical_page. inv_auto single_contra single_leaf. Qed.
#[local] Hint Resolve load_next_historical_page_single : scan_inv.

Lemma load_next_disk_leaf_page_single D k fuel :
  inv (on_single_leaf D k) (no_disk_read D) (load_next_disk_leaf_page ext fuel).
Proof. unfold load_next_disk_leaf_page. inv_auto single_contra single_leaf. Qed.
#[local] Hint Resolve load_next_disk_leaf_page_single : scan_inv.

Lemma btree_seq_scan_get_tuple_from_iterator_single D k  :
  inv (on_single_leaf D k) (no_disk_read D) (btree_seq_scan_get_tuple_from_iterator ext ).
Proof. unfold btree_seq_scan_get_tuple_from_iterator. inv_auto single_contra single_leaf. Qed.
#[local] Hint Resolve btree_seq_scan_get_tuple_from_iterator_single : scan_inv.

Lemma apply_next_key_body_single D k fuel f u :
  inv (on_single_leaf D k) (no_disk_read D) (apply_next_key_body ext fuel f u).
Proof. unfold apply_next_key_body. inv_auto single_contra single_leaf. Qed.
#[local] Hint Resolve apply_next_key_body_single : scan_inv.

Lemma apply_next_key_single D k fuel f :
  inv (on_single_leaf D k) (no_disk_read D) (apply_next_key ext fuel f).
Proof. unfold apply_next_key. inv_auto single_contra single_leaf. Qed.
#[local] Hint Resolve apply_next_key_single : scan_inv.

Lemma hist_page_body_single D k fuel u :
  inv (on_single_leaf D k) (no_disk_read D) (hist_page_body ext fuel u).
Proof. unfold hist_page_body. inv_auto single_contra single_leaf. Qed.
#[local] Hint Resolve hist_page_body_single : scan_inv.

Lemma hist_merge_body_single D k fuel u :
  inv (on_single_leaf D k) (no_disk_read D) (hist_merge_body ext fuel u).
Proof. unfold hist_merge_body. inv_auto single_contra single_leaf. Qed.
#[local] Hint Resolve hist_merge_body_single : scan_inv.

Lemma btree_seq_scan_get_tuple_from_iterator_raw_single D k  :
  inv (on_single_leaf D k) (no_disk_read D) (btree_seq_scan_get_tuple_from_iterator_raw ext ).
Proof. unfold btree_seq_scan_get_tuple_from_iterator_raw. inv_auto single_contra single_leaf. Qed.
#[local] Hint Resolve btree_seq_scan_get_tuple_from_iterator_raw_single : scan_inv.


(** The walk of the internal pages is over: no downlink is found and none
    is looked for. *)
Lemma get_next_downlink_single D k fuel :
  hoare (on_single_leaf D k) (get_next_downlink ext fuel)
    (fun d st => d = None /\ on_single_leaf D k st) (no_disk_read D).
Proof.
  intros st HI. unfold get_next_downlink. lrun D k; try (solve [single_leaf]).
  assert (Hl : firstPageIsLoaded (scan st) = true) by (apply HI).
  rewrite Hl.
  apply (sat_while (fun l (st : St W) => l = true /\ on_single_leaf D k st));
    [ split; [reflexivity | exact HI] | | intros ? ? [_ ?]; single_leaf ].
  intros l s [-> Hs]. unfold get_next_downlink_body. cbn [negb].
  lrun D k; solve [single_leaf].
Qed.

Ltac lcall D k :=
  lazymatch goal with
  | |- sat (get_next_downlink _ ?fuel _) _ _ =>
      scall (get_next_downlink_single D k fuel) assumption single_leaf
  end;
  repeat match goal with
         | H : _ = None /\ _ |- _ => destruct H as [-> H]
         | H : _ = false /\ _ |- _ => destruct H as [-> H]
         | H : _ = Break tt /\ _ |- _ => destruct H as [-> H]
         end.

Lemma iterate_internal_page_single D k fuel :
  hoare (on_single_leaf D k) (iterate_internal_page ext fuel)
    (fun b st => b = false /\ on_single_leaf D k st) (no_disk_read D).
Proof.
  intros st HI. unfold iterate_internal_page. apply sat_bind.
  apply (sat_while (fun _ (st : St W) => on_single_leaf D k st));
    [ exact HI | | intros; single_leaf ].
  intros l s Hs. unfold iterate_internal_page_body.
  lrun D k. lcall D k. lrun D k. lrun D k; solve [single_leaf].
Qed.

Lemma load_next_disk_leaf_page_empty D k fuel :
  hoare (on_single_leaf D k) (load_next_disk_leaf_page ext fuel)
    (fun ok st => ok = false /\ on_single_leaf D k st) (no_disk_read D).
Proof.
  intros st HI. unfold load_next_disk_leaf_page. lrun D k; solve [single_leaf].
Qed.

(** When the leaf is exhausted, get-next finds no further page... *)
Lemma next_in_memory_leaf_single D fuel :
  hoare (on_single_leaf D true) (next_in_memory_leaf ext fuel)
    (fun t st => t = None /\ on_single_leaf D false st) (no_disk_read D).
Proof.
  intros st HI. unfold next_in_memory_leaf. lrun D false; try (solve [single_leaf]).
  scall (iterate_internal_page_single D true fuel) assumption single_leaf.
  match goal with H : _ = false /\ _ |- _ => destruct H as [-> H] end.
  lrun D false; solve [single_leaf].
Qed.

(** ... and the batch of the disk phase is empty: the scan is finished. *)
Lemma next_disk_leaf_single D fuel :
  hoare (on_single_leaf D false) (next_disk_leaf ext fuel)
    (fun _ => on_single_leaf D true) (no_disk_read D).
Proof.
  intros st HI. unfold next_disk_leaf. lrun D false.
  - scall (load_next_disk_leaf_page_empty D false fuel) assumption single_leaf.
    match goal with H : _ = false /\ _ |- _ => destruct H as [-> H] end.
    cbn [negb]. lrun D true. single_leaf.
  - unfold on_single_leaf in *. intuition (try congruence).
    destruct (status (scan st)); simpl in *; congruence.
Qed.

Ltac lcall2 D :=
  lazymatch goal with
  | |- sat (apply_next_key _ ?fuel ?f _) _ _ =>
      scall (apply_next_key_single D true fuel f) assumption single_leaf
  | |- sat (next_in_memory_leaf _ ?fuel _) _ _ =>
      scall (next_in_memory_leaf_single D fuel) assumption single_leaf
  | |- sat (next_disk_leaf _ ?fuel _) _ _ =>
      scall (next_disk_leaf_single D fuel) ltac:(first [assumption | single_leaf]) single_leaf
  | |- sat (iterate_internal_page _ ?fuel _) _ _ =>
      scall (iterate_internal_page_single D true fuel) assumption single_leaf
  | |- sat (btree_seq_scan_get_tuple_from_iterator_raw _ _) _ _ =>
      scall (btree_seq_scan_get_tuple_from_iterator_raw_single D true) assumption single_leaf
  end;
  repeat match goal with
         | H : _ = None /\ _ |- _ => destruct H as [-> H]
         | H : _ = false /\ _ |- _ => destruct H as [-> H]
         end.

Ltac lauto D := repeat (lrun D true; try (solve [single_leaf]); try lcall2 D).

Lemma getnext_body_single D fuel u :
  inv (on_single_leaf D true) (no_disk_read D) (getnext_body ext fuel u).
Proof.
  intros st HI. unfold getnext_body. apply sat_bind.
  eapply sat_weaken;
    [ apply (inv_while (on_single_leaf D true) (no_disk_read D));
      [ intros; single_leaf | intros; apply hist_merge_body_single | exact HI ]
    | cbv beta; intros ? ? ? | auto ].
  lauto D.
Qed.
#[local] Hint Resolve getnext_body_single : scan_inv.

Lemma getnext_raw_body_single D fuel u :
  inv (on_single_leaf D true) (no_disk_read D) (getnext_raw_body ext fuel u).
Proof.
  intros st HI. unfold getnext_raw_body. lauto D.
  arun (@on_single_leaf W D false) single_contra single_leaf single_forget.
  lauto D.
Qed.
#[local] Hint Resolve getnext_raw_body_single : scan_inv.

Lemma btree_seq_scan_getnext_internal_single D fuel :
  inv (on_single_leaf D true) (no_disk_read D) (btree_seq_scan_getnext_internal ext fuel).
Proof. unfold btree_seq_scan_getnext_internal. inv_auto single_contra single_leaf. Qed.
#[local] Hint Resolve btree_seq_scan_getnext_internal_single : scan_inv.

Lemma btree_seq_scan_getnext_single D fuel :
  inv (on_single_leaf D true) (no_disk_read D) (btree_seq_scan_getnext ext fuel).
Proof. unfold btree_seq_scan_getnext. inv_auto single_contra single_leaf. Qed.

Lemma btree_seq_scan_getnext_raw_internal_single D fuel :
  inv (on_single_leaf D true) (no_disk_read D) (btree_seq_scan_getnext_raw_internal ext fuel).
Proof. unfold btree_seq_scan_getnext_raw_internal. inv_auto single_contra single_leaf. Qed.
#[local] Hint Resolve btree_seq_scan_getnext_raw_internal_single : scan_inv.

Lemma btree_seq_scan_getnext_raw_single D fuel :
  inv (on_single_leaf D true) (no_disk_read D) (btree_seq_scan_getnext_raw ext fuel).
Proof. unfold btree_seq_scan_getnext_raw. inv_auto single_contra single_leaf. Qed.

(** *** Creation on a tree of a single leaf *)

Ltac located_contra :=
  unfold leaf_located, being_created in *;
  repeat match goal with H : _ /\ _ |- _ => destruct H end;
  congruence.

Ltac located_leaf :=
  idtac;
  unfold no_disk_read, scans_leaf_directly, on_single_leaf, leaf_located, being_created in *;
  cbn [scan world log glob] in *;
  repeat match goal with H : _ /\ _ |- _ => destruct H end;
  unfold_scan_updates; scan_fields;
  rewrite ?disk_reads_app; simpl; rewrite ?app_nil_r;
  split_ifs; intuition (try congruence; try lia).

Ltac located_forget :=
  repeat match goal with
         | H : leaf_located _ _ |- _ => clear H
         | H : being_created _ _ |- _ => clear H
         | H : _ /\ _ |- _ => clear H
         end.

Lemma load_first_historical_page_body_located D l :
  inv (leaf_located D) (no_disk_read D) (load_first_historical_page_body ext l).
Proof. unfold load_first_historical_page_body. inv_auto located_contra located_leaf. Qed.
#[local] Hint Resolve load_first_historical_page_body_located : scan_inv.

Lemma load_first_historical_page_located D fuel :
  inv (leaf_located D) (no_disk_read D) (load_first_historical_page ext fuel).
Proof. unfold load_first_historical_page. inv_auto located_contra located_leaf. Qed.

Lemma load_next_internal_page_first D fuel :
  hoare (being_created D) (load_next_internal_page ext fuel)
    (fun b st => b = false /\ leaf_located D st) (no_disk_read D).
Proof.
  intros st (Hpo & Hit & Hfl & Hdc & Hdi & Hst & HD).
  unfold load_next_internal_page, set_first_page_loaded. srun.
  match goal with
  | |- context [find_page ext ?w ?c ?key] =>
      destruct (Hw w c key) as [Hlvl Hrm];
      remember (find_page ext w c key) as r eqn:Hr; symmetry in Hr
  end.
  srun.
  scall (load_first_historical_page_located D fuel)
        ltac:(repeat split; scan_fields; rewrite ?disk_reads_app; simpl;
              rewrite ?app_nil_r; auto)
        located_leaf.
  srun. split; [reflexivity | assumption].
Qed.

Lemma get_next_downlink_first D fuel :
  hoare (being_created D) (get_next_downlink ext fuel)
    (fun d st => d = None /\ scans_leaf_directly D st) (no_disk_read D).
Proof.
  intros st HI. unfold get_next_downlink.
  arun (@being_created W D) located_contra located_leaf located_forget;
    try (solve [located_leaf]).
  assert (Hl : firstPageIsLoaded (scan st) = false) by (apply HI).
  rewrite Hl.
  apply (sat_while (fun l (st : St W) => l = false /\ being_created D st));
    [ split; [reflexivity | exact HI] | | intros ? ? [_ ?]; located_leaf ].
  intros l s [-> Hs]. unfold get_next_downlink_body. cbn [negb].
  apply sat_bind, sat_bind.
  scall (load_next_internal_page_first D fuel) assumption located_leaf.
  match goal with H : _ = false /\ _ |- _ => destruct H as [-> H] end.
  cbn [negb]. srun. located_leaf.
Qed.

Lemma iterate_internal_page_first D fuel :
  hoare (being_created D) (iterate_internal_page ext fuel)
    (fun b st => b = false /\ scans_leaf_directly D st) (no_disk_read D).
Proof.
  intros st HI. unfold iterate_internal_page. apply sat_bind.
  destruct fuel as [|fuel]; [ simpl; located_leaf | ].
  cbn [while_loop]. apply sat_bind. unfold iterate_internal_page_body at 1.
  apply sat_bind.
  scall (get_next_downlink_first D (S fuel)) assumption located_leaf.
  match goal with H : _ = None /\ _ |- _ => destruct H as [-> H] end.
  srun.
  assert (Hit : iter (scan s) = None) by (apply H).
  rewrite Hit. srun. split; [reflexivity | assumption].
Qed.

Lemma pin_checkpoint_body_created D d n :
  inv (being_created D) (no_disk_read D) (pin_checkpoint_body ext d n).
Proof.
  intros st HI. unfold pin_checkpoint_body.
  arun (@being_created W D) located_contra located_leaf located_forget; located_leaf.
Qed.

(** Creation on a tree of a single leaf: the leaf is located and the scan
    stays in the in-memory phase; nothing is read from disk. *)
Lemma make_btree_seq_scan_internal_single D fuel d c cbs smp :
  hoare (fun st => disk_reads (log st) = D)
    (make_btree_seq_scan_internal ext fuel d c cbs smp None)
    (fun _ => scans_leaf_directly D) (no_disk_read D).
Proof.
  intros st HD. unfold make_btree_seq_scan_internal.
  srun.
  abs_state (@being_created W D) located_leaf idtac.
  arun (@being_created W D) located_contra located_leaf located_forget.
  all: apply (sat_while (fun _ (st : St W) => being_created D st));
    [ assumption
    | intros ? ? Hs'; eapply sat_weaken;
      [ apply pin_checkpoint_body_created; exact Hs'
      | intros [?|?|?] ? Hs2; [ exact Hs2 | | ]
      | auto ]
    | intros; located_leaf ].
  all: arun (@being_created W D) located_contra located_leaf located_forget.
  all: scall (iterate_internal_page_first D fuel) assumption located_leaf.
  all: match goal with H : _ = false /\ _ |- _ => destruct H as [-> H] end.
  all: srun.
  all: match goal with
       | H : scans_leaf_directly _ ?s |- _ =>
           assert (Hsl : single_leaf_page_rel ext (scan s) = true)
             by (unfold single_leaf_page_rel;
                 destruct H as ((Hpo & _) & His); rewrite Hpo; exact His);
           rewrite Hsl
       end.
  all: srun; assumption.
Qed.

End SingleLeaf.

Lemma scans_leaf_directly_on_single_leaf {W} (D : list Z) (st : St W) :
  scans_leaf_directly D st ->
  on_single_leaf D true st /\ status (scan st) = BTreeSeqScanInMemory.
Proof.
  unfold scans_leaf_directly, leaf_located, on_single_leaf.
  intros ((Hpo & Hit & Hfl & Hdc & Hdi & Hst & HD & Hil & Hrm & _) & His).
  repeat split; try assumption; try lia.
  intros _. rewrite Hst. discriminate.
Qed.




(** * Further properties of the scan *)

(** ** Get-next leaves the registry and the pins alone *)

Ltac registry_contra :=
  unfold registry_kept in *;
  repeat match goal with H : _ /\ _ |- _ => destruct H end;
  congruence.

Ltac registry_leaf :=
  idtac;
  unfold registry_kept in *; cbn [scan world log glob] in *;
  repeat match goal with H : _ /\ _ |- _ => destruct H end;
  unfold_scan_updates; scan_fields; simpl;
  split_ifs; intuition (try congruence).

Lemma load_first_historical_page_body_registry {W} (ext : Externals W) g d cp a l :
  inv (registry_kept g d cp a) (fun _ => registry_kept g d cp a) (load_first_historical_page_body ext l).
Proof. unfold load_first_historical_page_body. inv_auto registry_contra registry_leaf. Qed.
#[local] Hint Resolve load_first_historical_page_body_registry : scan_inv.

Lemma load_first_historical_page_registry {W} (ext : Externals W) g d cp a fuel :
  inv (registry_kept g d cp a) (fun _ => registry_kept g d cp a) (load_first_historical_page ext fuel).
Proof. unfold load_first_historical_page. inv_auto registry_contra registry_leaf. Qed.
#[local] Hint Resolve load_first_historical_page_registry : scan_inv.

Lemma load_next_historical_page_body_registry {W} (ext : Externals W) g d cp a pk hd :
  inv (registry_kept g d cp a) (fun _ => registry_kept g d cp a) (load_next_historical_page_body ext pk hd).
Proof. unfold load_next_historical_page_body. inv_auto registry_contra registry_leaf. Qed.
#[local] Hint Resolve load_next_historical_page_body_registry : scan_inv.

Lemma load_next_historical_page_registry {W} (ext : Externals W) g d cp a fuel :
  inv (registry_kept g d cp a) (fun _ => registry_kept g d cp a) (load_next_historical_page ext fuel).
Proof. unfold load_next_historical_page. inv_auto registry_contra registry_leaf. Qed.
#[local] Hint Resolve load_next_historical_page_registry : scan_inv.

Lemma scan_make_iterator_registry {W} (ext : Externals W) g d cp a lo hi :
  inv (registry_kept g d cp a) (fun _ => registry_kept g d cp a) (scan_make_iterator ext lo hi).
Proof. unfold scan_make_iterator. inv_auto registry_contra registry_leaf. Qed.
#[local] Hint Resolve scan_make_iterator_registry : scan_inv.

Lemma load_next_internal_page_registry {W} (ext : Externals W) g d cp a fuel :
  inv (registry_kept g d cp a) (fun _ => registry_kept g d cp a) (load_next_internal_page ext fuel).
Proof. unfold load_next_internal_page. inv_auto registry_contra registry_leaf. Qed.
#[local] Hint Resolve load_next_internal_page_registry : scan_inv.

Lemma get_next_downlink_body_registry {W} (ext : Externals W) g d cp a fuel b :
  inv (registry_kept g d cp a) (fun _ => registry_kept g d cp a) (get_next_downlink_body ext fuel b).
Proof. unfold get_next_downlink_body. inv_auto registry_contra registry_leaf. Qed.
#[local] Hint Resolve get_next_downlink_body_registry : scan_inv.

Lemma get_next_downlink_registry {W} (ext : Externals W) g d cp a fuel :
  inv (registry_kept g d cp a) (fun _ => registry_kept g d cp a) (get_next_downlink ext fuel).
Proof. unfold get_next_downlink. inv_auto registry_contra registry_leaf. Qed.
#[local] Hint Resolve get_next_downlink_registry : scan_inv.

Lemma check_in_memory_leaf_page_registry {W} (ext : Externals W) g d cp a lo hi :
  inv (registry_kept g d cp a) (fun _ => registry_kept g d cp a) (check_in_memory_leaf_page ext lo hi).
Proof. unfold check_in_memory_leaf_page. inv_auto registry_contra registry_leaf. Qed.
#[local] Hint Resolve check_in_memory_leaf_page_registry : scan_inv.

Lemma iterate_internal_page_body_registry {W} (ext : Externals W) g d cp a fuel u :
  inv (registry_kept g d cp a) (fun _ => registry_kept g d cp a) (iterate_internal_page_body ext fuel u).
Proof. unfold iterate_internal_page_body. inv_auto registry_contra registry_leaf. Qed.
#[local] Hint Resolve iterate_internal_page_body_registry : scan_inv.

Lemma iterate_internal_page_registry {W} (ext : Externals W) g d cp a fuel :
  inv (registry_kept g d cp a) (fun _ => registry_kept g d cp a) (iterate_internal_page ext fuel).
Proof. unfold iterate_internal_page. inv_auto registry_contra registry_leaf. Qed.
#[local] Hint Resolve iterate_internal_page_registry : scan_inv.

Lemma load_next_disk_leaf_page_registry {W} (ext : Externals W) g d cp a fuel :
  inv (registry_kept g d cp a) (fun _ => registry_kept g d cp a) (load_next_disk_leaf_page ext fuel).
Proof. unfold load_next_disk_leaf_page. inv_auto registry_contra registry_leaf. Qed.
#[local] Hint Resolve load_next_disk_leaf_page_registry : scan_inv.

Lemma btree_seq_scan_get_tuple_from_iterator_registry {W} (ext : Externals W) g d cp a  :
  inv (registry_kept g d cp a) (fun _ => registry_kept g d cp a) (btree_seq_scan_get_tuple_from_iterator ext ).
Proof. unfold btree_seq_scan_get_tuple_from_iterator. inv_auto registry_contra registry_leaf. Qed.
#[local] Hint Resolve btree_seq_scan_get_tuple_from_iterator_registry : scan_inv.

Lemma apply_next_key_body_registry {W} (ext : Externals W) g d cp a fuel f u :
  inv (registry_kept g d cp a) (fun _ => registry_kept g d cp a) (apply_next_key_body ext fuel f u).
Proof. unfold apply_next_key_body. inv_auto registry_contra registry_leaf. Qed.
#[local] Hint Resolve apply_next_key_body_registry : scan_inv.

Lemma apply_next_key_registry {W} (ext : Externals W) g d cp a fuel f :
  inv (registry_kept g d cp a) (fun _ => registry_kept g d cp a) (apply_next_key ext fuel f).
Proof. unfold apply_next_key. inv_auto registry_contra registry_leaf. Qed.
#[local] Hint Resolve apply_next_key_registry : scan_inv.

Lemma hist_page_body_registry {W} (ext : Externals W) g d cp a fuel u :
  inv (registry_kept g d cp a) (fun _ => registry_kept g d cp a) (hist_page_body ext fuel u).
Proof. unfold hist_page_body. inv_auto registry_contra registry_leaf. Qed.
#[local] Hint Resolve hist_page_body_registry : scan_inv.

Lemma hist_merge_body_registry {W} (ext : Externals W) g d cp a fuel u :
  inv (registry_kept g d cp a) (fun _ => registry_kept g d cp a) (hist_merge_body ext fuel u).
Proof. unfold hist_merge_body. inv_auto registry_contra registry_leaf. Qed.
#[local] Hint Resolve hist_merge_body_registry : scan_inv.

Lemma next_in_memory_leaf_registry {W} (ext : Externals W) g d cp a fuel :
  inv (registry_kept g d cp a) (fun _ => registry_kept g d cp a) (next_in_memory_leaf ext fuel).
Proof. unfold next_in_memory_leaf. inv_auto registry_contra registry_leaf. Qed.
#[local] Hint Resolve next_in_memory_leaf_registry : scan_inv.

Lemma next_disk_leaf_registry {W} (ext : Externals W) g d cp a fuel :
  inv (registry_kept g d cp a) (fun _ => registry_kept g d cp a) (next_disk_leaf ext fuel).
Proof. unfold next_disk_leaf. inv_auto registry_contra registry_leaf. Qed.
#[local] Hint Resolve next_disk_leaf_registry : scan_inv.

Lemma getnext_body_registry {W} (ext : Externals W) g d cp a fuel u :
  inv (registry_kept g d cp a) (fun _ => registry_kept g d cp a) (getnext_body ext fuel u).
Proof. unfold getnext_body. inv_auto registry_contra registry_leaf. Qed.
#[local] Hint Resolve getnext_body_registry : scan_inv.

Lemma btree_seq_scan_getnext_internal_registry {W} (ext : Externals W) g d cp a fuel :
  inv (registry_kept g d cp a) (fun _ => registry_kept g d cp a) (btree_seq_scan_getnext_internal ext fuel).
Proof. unfold btree_seq_scan_getnext_internal. inv_auto registry_contra registry_leaf. Qed.
#[local] Hint Resolve btree_seq_scan_getnext_internal_registry : scan_inv.

Lemma btree_seq_scan_getnext_registry {W} (ext : Externals W) g d cp a fuel :
  inv (registry_kept g d cp a) (fun _ => registry_kept g d cp a) (btree_seq_scan_getnext ext fuel).
Proof. unfold btree_seq_scan_getnext. inv_auto registry_contra registry_leaf. Qed.
#[local] Hint Resolve btree_seq_scan_getnext_registry : scan_inv.

Lemma btree_seq_scan_get_tuple_from_iterator_raw_registry {W} (ext : Externals W) g d cp a  :
  inv (registry_kept g d cp a) (fun _ => registry_kept g d cp a) (btree_seq_scan_get_tuple_from_iterator_raw ext ).
Proof. unfold btree_seq_scan_get_tuple_from_iterator_raw. inv_auto registry_contra registry_leaf. Qed.
#[local] Hint Resolve btree_seq_scan_get_tuple_from_iterator_raw_registry : scan_inv.

Lemma getnext_raw_body_registry {W} (ext : Externals W) g d cp a fuel u :
  inv (registry_kept g d cp a) (fun _ => registry_kept g d cp a) (getnext_raw_body ext fuel u).
Proof. unfold getnext_raw_body. inv_auto registry_contra registry_leaf. Qed.
#[local] Hint Resolve getnext_raw_body_registry : scan_inv.

Lemma btree_seq_scan_getnext_raw_internal_registry {W} (ext : Externals W) g d cp a fuel :
  inv (registry_kept g d cp a) (fun _ => registry_kept g d cp a) (btree_seq_scan_getnext_raw_internal ext fuel).
Proof. unfold btree_seq_scan_getnext_raw_internal. inv_auto registry_contra registry_leaf. Qed.
#[local] Hint Resolve btree_seq_scan_getnext_raw_internal_registry : scan_inv.

Lemma btree_seq_scan_getnext_raw_registry {W} (ext : Externals W) g d cp a fuel :
  inv (registry_kept g d cp a) (fun _ => registry_kept g d cp a) (btree_seq_scan_getnext_raw ext fuel).
Proof. unfold btree_seq_scan_getnext_raw. inv_auto registry_contra registry_leaf. Qed.
#[local] Hint Resolve btree_seq_scan_getnext_raw_registry : scan_inv.


(** X1: the get-next operations of a plain scan never touch the list of
    registered scans, the descriptors the sweep reads or the pin counters,
    and never change the tree, the checkpoint number or the list node of
    the scan, whether they return, fail or run out of iterations. *)
Theorem getnext_keeps_registry_and_pins {W} (ext : Externals W) (fuel : nat)
    (g : Globals) (d cp a : Z) :
  inv (registry_kept g d cp a) (fun _ => registry_kept g d cp a)
    (btree_seq_scan_getnext ext fuel) /\
  inv (registry_kept g d cp a) (fun _ => registry_kept g d cp a)
    (btree_seq_scan_getnext_raw ext fuel).
Proof.
  split.
  - apply btree_seq_scan_getnext_registry.
  - apply btree_seq_scan_getnext_raw_registry.
Qed.

(** ** Creation pins the checkpoint once, teardown releases it *)

Lemma read_fetch_add (g : Globals) (d slot delta d' s' : Z) :
  read_numSeqScans (pg_atomic_fetch_add_u32 d slot delta g) d' s' =
    if (d' =? d) && (s' =? slot)
    then wrap32 (read_numSeqScans g d' s' + delta)
    else read_numSeqScans g d' s'.
Proof.
  unfold read_numSeqScans, pg_atomic_fetch_add_u32. cbn [numSeqScans].
  destruct (Z.eqb_spec d' d) as [->|Hd]; cbn [andb].
  - destruct (Z.eqb_spec s' slot) as [->|Hs].
    + rewrite lookup_insert_eq. reflexivity.
    + rewrite lookup_insert_ne by congruence. reflexivity.
  - rewrite lookup_insert_ne by congruence. reflexivity.
Qed.

Lemma wrap32_add_sub (x : Z) :
  0 <= x < 4294967296 -> wrap32 (wrap32 (x + 1) + - 1) = x.
Proof.
  intros Hx. unfold wrap32.
  rewrite Zplus_mod_idemp_l.
  replace (x + 1 + -1) with x by lia. apply Z.mod_small. exact Hx.
Qed.

(** One round of the loop that takes the pin: either the checkpoint
    number is confirmed and the pin stays, or it is given back. *)
Lemma pin_checkpoint_body_spec {W} (ext : Externals W) (g0 : Globals) (d n : Z) :
  counters_in_range g0 ->
  hoare (being_registered g0 d true) (pin_checkpoint_body ext d n)
    (fun c st => match c with
                 | Continue _ => being_registered g0 d true st
                 | Break cp => pin_taken ext g0 d cp st
                 | Return _ => False
                 end)
    (fun _ _ => False).
Proof.
  intros Hr st (Hpo & Hd & Hl & Hls & Hc). unfold pin_checkpoint_body. srun.
  match goal with |- context [if ?b then _ else _] => destruct b eqn:Hb end; srun.
  - repeat split; scan_fields; try assumption.
    intros d' s'. rewrite read_fetch_add, Hc. reflexivity.
  - repeat split; scan_fields; try assumption.
    intros d' s'. unfold pg_atomic_fetch_sub_u32. rewrite !read_fetch_add, Hc.
    destruct ((d' =? d) && (s' =? n mod NUM_SEQ_SCANS_ARRAY_SIZE ext)); [|reflexivity].
    apply wrap32_add_sub, Hr.
Qed.

Ltac reg_leaf :=
  idtac;
  unfold failed_but_pinned, being_registered, pin_taken, registry_kept, MemoryContextAlloc,
    dlist_push_tail, heap_store in *;
  cbn [scan world log glob listOfScans scanHeap numSeqScans nextAddr fst snd] in *;
  repeat match goal with H : _ /\ _ |- _ => destruct H end;
  unfold_scan_updates; scan_fields; simpl;
  split_ifs; intuition (try congruence).

Ltac reg_contra :=
  unfold being_registered, pin_taken, registry_kept in *;
  repeat match goal with H : _ /\ _ |- _ => destruct H end;
  congruence.

Ltac reg_forget :=
  repeat match goal with
         | H : being_registered _ _ _ _ |- _ => clear H
         | H : pin_taken _ _ _ _ _ |- _ => clear H
         | H : registry_kept _ _ _ _ _ |- _ => clear H
         | H : _ /\ _ |- _ => clear H
         end.

Lemma make_btree_seq_scan_internal_pins {W} (ext : Externals W) (g0 : Globals)
    (fuel : nat) (d : Z) (c : CommitSeqNo) cbs smp :
  counters_in_range g0 ->
  hoare (fun st => glob st = g0)
    (make_btree_seq_scan_internal ext fuel d c cbs smp None)
    (fun _ => registered_and_pinned ext g0 d) (failed_but_pinned ext g0 d).
Proof.
  intros Hr st Hg. unfold make_btree_seq_scan_internal. srun.
  abs_state (@being_registered W g0 d false)
    ltac:(subst g0; repeat split; reflexivity) idtac.
  arun (@being_registered W g0 d false) reg_contra reg_leaf reg_forget.
  all: arun (@being_registered W g0 d true) reg_contra reg_leaf reg_forget.
  all: apply (sat_while (fun _ (st : St W) => being_registered g0 d true st));
    [ assumption
    | intros ? ? Hs'; eapply sat_weaken;
      [ apply (pin_checkpoint_body_spec ext g0 d _ Hr); exact Hs'
      | intros [?|cp|?] s' Hs2; [ exact Hs2 | | contradiction ]
      | intros ? ? [] ]
    | intros; exact I ].
  all: apply sat_bind, sat_sync_heap.
  all: destruct Hs2 as (Hpo & Hd & Hl & Hls & Hcp & Hc).
  all: set (g1 := heap_store (listNode (scan s')) (scan s') (glob s')).
  all: assert (Hfin : forall st1 : St W,
                 registry_kept g1 d cp (nextAddr g0) st1 ->
                 registered_and_pinned ext g0 d st1)
         by (intros st1 (Hpo1 & Hg1 & Hd1 & Hcp1 & Hl1);
             repeat split; try assumption;
             [ rewrite Hg1; exact Hls
             | rewrite Hg1, Hcp1; exact Hc
             | exists (scan s'); rewrite Hg1; unfold g1, heap_store; cbn [scanHeap];
               rewrite Hl, lookup_insert_eq; repeat split; congruence ]).
  all: abs_state (@registry_kept W g1 d cp (nextAddr g0))
         ltac:(repeat split; assumption) idtac.
  all: clearbody g1.
  all: arun (@registry_kept W g1 d cp (nextAddr g0)) reg_contra reg_leaf reg_forget.
  all: eapply sat_weaken;
    [ apply (iterate_internal_page_registry ext g1 d cp (nextAddr g0) fuel); assumption
    | cbv beta; intros ? ? ?
    | cbv beta; intros [?|] ? ?; [ apply Hfin; assumption | exact I ] ].
  all: arun (@registry_kept W g1 d cp (nextAddr g0)) reg_contra reg_leaf reg_forget.
  all: try (apply Hfin; assumption).
  all: eapply sat_weaken;
    [ apply (load_next_disk_leaf_page_registry ext g1 d cp (nextAddr g0) fuel); assumption
    | cbv beta; intros ? ? ?
    | cbv beta; intros [?|] ? ?; [ apply Hfin; assumption | exact I ] ].
  all: arun (@registry_kept W g1 d cp (nextAddr g0)) reg_contra reg_leaf reg_forget.
  all: apply Hfin; first [ assumption | reg_leaf ].
Qed.

(** X2: the creation of a plain scan, from a registry [g0] whose counters
    hold 32-bit values, appends the scan to the list of registered scans
    under the address the allocator gave and leaves exactly one pin: the
    counter of the checkpoint number the scan records is one higher and
    every other counter reads as before, however often the checkpoint
    number changed while the pin was taken.  When creation fails after
    that (the first leaf cannot be read, the snapshot is too old) the scan
    stays registered and pinned. *)
Theorem creation_registers_and_pins_once {W} (ext : Externals W) (g0 : Globals)
    (fuel : nat) (d : Z) (c : CommitSeqNo) :
  counters_in_range g0 ->
  (forall cbs smp,
     hoare (fun st => glob st = g0)
       (make_btree_seq_scan_internal ext fuel d c cbs smp None)
       (fun _ => registered_and_pinned ext g0 d) (failed_but_pinned ext g0 d)) /\
  hoare (fun st => glob st = g0) (make_btree_seq_scan ext fuel d c None)
    (fun _ => registered_and_pinned ext g0 d) (failed_but_pinned ext g0 d) /\
  (forall cbs,
     hoare (fun st => glob st = g0) (make_btree_seq_scan_cb ext fuel d c cbs)
       (fun _ => registered_and_pinned ext g0 d) (failed_but_pinned ext g0 d)) /\
  (forall smp,
     hoare (fun st => glob st = g0) (make_btree_sampling_scan ext fuel d smp)
       (fun _ => registered_and_pinned ext g0 d) (failed_but_pinned ext g0 d)).
Proof.
  intros Hr. split; [|split; [|split]].
  - intros cbs smp. exact (make_btree_seq_scan_internal_pins ext g0 fuel d c cbs smp Hr).
  - exact (make_btree_seq_scan_internal_pins ext g0 fuel d c None None Hr).
  - intros cbs. exact (make_btree_seq_scan_internal_pins ext g0 fuel d c cbs None Hr).
  - intros smp.
    exact (make_btree_seq_scan_internal_pins ext g0 fuel d (COMMITSEQNO_INPROGRESS ext)
             None smp Hr).
Qed.

Lemma counters_in_range_empty : counters_in_range empty_globals.
Proof.
  intros d s. unfold read_numSeqScans, empty_globals. cbn [numSeqScans].
  rewrite lookup_empty. simpl. lia.
Qed.

Lemma creation_registers_and_pins_once_witness :
  counters_in_range empty_globals /\
  sat (make_btree_seq_scan (static_ext (single_leaf_tree two_tuple_leaf)) 5 1 7 None
         (test_state zero_scan))
      (fun _ => registered_and_pinned (static_ext (single_leaf_tree two_tuple_leaf))
                  empty_globals 1)
      (failed_but_pinned (static_ext (single_leaf_tree two_tuple_leaf)) empty_globals 1).
Proof.
  split; [exact counters_in_range_empty|].
  exact (proj1 (proj2 (creation_registers_and_pins_once
                         (static_ext (single_leaf_tree two_tuple_leaf))
                         empty_globals 5 1 7 counters_in_range_empty))
           (test_state zero_scan) eq_refl).
Defined.

Lemma plain_scan_registered :
  registered_and_pinned (static_ext (single_leaf_tree two_tuple_leaf)) empty_globals 1
    plain_scan.
Proof.
  pose proof (make_btree_seq_scan_internal_pins (static_ext (single_leaf_tree two_tuple_leaf))
                empty_globals 5 1 7 None None counters_in_range_empty
                (test_state zero_scan) eq_refl) as H.
  assert (Hrun : make_btree_seq_scan_internal (static_ext (single_leaf_tree two_tuple_leaf))
                   5 1 7 None None None (test_state zero_scan) = Ret tt plain_scan)
    by (vm_compute; reflexivity).
  rewrite Hrun in H. exact H.
Qed.

Lemma remove_first_last (a : Z) (l : list Z) :
  ~ In a l -> remove_first a (l ++ [a]) = l.
Proof.
  induction l as [|x l IH]; intros Hn; simpl.
  - rewrite Z.eqb_refl. reflexivity.
  - destruct (Z.eqb_spec x a) as [->|Hx].
    + exfalso. apply Hn. left. reflexivity.
    + rewrite IH; [reflexivity|]. intros Hin. apply Hn. right. exact Hin.
Qed.

(** X3: [free_btree_seq_scan] undoes what creation did to the registry:
    run on a scan that is registered and pinned as creation left it, it
    takes the scan off the list, which is again the list from before the
    scan, brings every pin counter back to the value it had then, and
    releases the descriptor; the fields of the scan are not touched. *)
Theorem free_restores_registry_and_pins {W} (ext : Externals W) (g0 : Globals) (d : Z)
    (st : St W) :
  counters_in_range g0 ->
  ~ In (nextAddr g0) (listOfScans g0) ->
  registered_and_pinned ext g0 d st ->
  exists st',
    free_btree_seq_scan ext st = Ret tt st' /\
    scan st' = scan st /\ world st' = world st /\ log st' = log st /\
    listOfScans (glob st') = listOfScans g0 /\
    (forall d' s', read_numSeqScans (glob st') d' s' = read_numSeqScans g0 d' s') /\
    scanHeap (glob st') !! nextAddr g0 = None.
Proof.
  intros Hr Hfresh (Hpo & Hd & Hl & Hls & Hc & _).
  eexists. split; [reflexivity|]. cbn [scan world log glob].
  split; [reflexivity|]. split; [reflexivity|]. split; [reflexivity|].
  split; [|split].
  - cbn [pfree pg_atomic_fetch_sub_u32 pg_atomic_fetch_add_u32 dlist_delete listOfScans].
    rewrite Hl, Hls. apply remove_first_last. exact Hfresh.
  - intros d' s'.
    change (read_numSeqScans (pfree ?a ?g) d' s') with (read_numSeqScans g d' s').
    unfold pg_atomic_fetch_sub_u32. rewrite read_fetch_add.
    change (read_numSeqScans (dlist_delete ?a ?g) d' s') with (read_numSeqScans g d' s').
    rewrite Hd, (Hc d' s').
    destruct ((d' =? d) && (s' =? _)); [|reflexivity].
    apply wrap32_add_sub, Hr.
  - cbn [pfree scanHeap]. rewrite Hl. apply lookup_delete_eq.
Qed.

Lemma free_restores_registry_and_pins_witness :
  exists st',
    free_btree_seq_scan (static_ext (single_leaf_tree two_tuple_leaf)) plain_scan
      = Ret tt st' /\
    listOfScans (glob st') = [] /\
    read_numSeqScans (glob st') 1 0 = 0.
Proof.
  destruct (free_restores_registry_and_pins (static_ext (single_leaf_tree two_tuple_leaf))
              empty_globals 1 plain_scan counters_in_range_empty)
    as (st' & Hrun & _ & _ & _ & Hls & Hc & _).
  - simpl. tauto.
  - exact plain_scan_registered.
  - exists st'. split; [exact Hrun|]. split; [exact Hls|]. rewrite Hc. reflexivity.
Defined.

(** ** The sweep after an error *)

Lemma wrap32_sub_sub (x n m : Z) : wrap32 (wrap32 (x - n) - m) = wrap32 (x - (n + m)).
Proof.
  unfold wrap32. rewrite Zminus_mod_idemp_l. f_equal; lia.
Qed.

(** The loop of the sweep, from a registry whose counters read as
    [wrap32 (R d s)]. *)
Lemma seq_scans_cleanup_loop {W} (ext : Externals W) (l : list Z) :
  forall (fuel : nat) (st : St W) (R : Z -> Z -> Z),
    listOfScans (glob st) = l ->
    List.NoDup l ->
    (forall a, In a l -> exists sc, scanHeap (glob st) !! a = Some sc) ->
    (forall d s, read_numSeqScans (glob st) d s = wrap32 (R d s)) ->
    (length l < fuel)%nat ->
    exists st',
      while_loop fuel (seq_scans_cleanup_body ext) tt st = Ret (inl tt) st' /\
      scan st' = scan st /\ world st' = world st /\ log st' = log st /\
      listOfScans (glob st') = [] /\
      nextAddr (glob st') = nextAddr (glob st) /\
      (forall a, In a l -> scanHeap (glob st') !! a = None) /\
      (forall a, ~ In a l -> scanHeap (glob st') !! a = scanHeap (glob st) !! a) /\
      forall d s, read_numSeqScans (glob st') d s =
                  wrap32 (R d s - pins_held ext (registered_scans (glob st) l) d s).
Proof.
  induction l as [|a l IH]; intros fuel st R Hl Hnd Hh HR Hf.
  - destruct fuel as [|fuel]; [simpl in Hf; lia|].
    exists st. cbn [while_loop]. unfold seq_scans_cleanup_body at 1, bind, get.
    rewrite Hl. cbn. repeat split; try reflexivity; try assumption.
    + intros a [].
    + intros d s. rewrite HR. f_equal; lia.
  - destruct fuel as [|fuel]; [simpl in Hf; lia|].
    destruct (Hh a (or_introl eq_refl)) as [sc Hsc].
    inversion Hnd as [|? ? Hna Hnd']; subst.
    set (g1 := match poscan sc with
               | None => pg_atomic_fetch_sub_u32 (desc sc)
                           (checkpointNumber sc mod NUM_SEQ_SCANS_ARRAY_SIZE ext) 1 (glob st)
               | Some _ => glob st
               end).
    set (st1 := mkSt (scan st) (world st) (log st) (pfree a (dlist_delete a g1))).
    assert (Hstep : seq_scans_cleanup_body ext tt st = Ret (Continue tt) st1).
    { unfold seq_scans_cleanup_body, bind, get. rewrite Hl, Hsc. unfold st1, g1.
      destruct (poscan sc); reflexivity. }
    assert (Hl1 : listOfScans (glob st1) = l).
    { unfold st1, g1. cbn [glob pfree dlist_delete listOfScans].
      destruct (poscan sc); cbn [pg_atomic_fetch_sub_u32 pg_atomic_fetch_add_u32 listOfScans];
        rewrite Hl; cbn; rewrite Z.eqb_refl; reflexivity. }
    assert (Hh1 : scanHeap (glob st1) = delete a (scanHeap (glob st))).
    { unfold st1, g1. cbn [glob pfree dlist_delete scanHeap].
      destruct (poscan sc); reflexivity. }
    assert (Hn1 : nextAddr (glob st1) = nextAddr (glob st)).
    { unfold st1, g1. cbn [glob pfree dlist_delete nextAddr].
      destruct (poscan sc); reflexivity. }
    assert (HR1 : forall d s, read_numSeqScans (glob st1) d s =
                              wrap32 (R d s - pins_held ext [sc] d s)).
    { intros d s. unfold st1. cbn [glob].
      change (read_numSeqScans (pfree a (dlist_delete a g1)) d s)
        with (read_numSeqScans g1 d s).
      unfold g1. cbn [pins_held]. destruct (poscan sc).
      - rewrite HR. f_equal; lia.
      - unfold pg_atomic_fetch_sub_u32. rewrite read_fetch_add, HR.
        destruct ((d =? desc sc) && (s =? _)) eqn:Hk.
        + apply andb_true_iff in Hk. destruct Hk as [Hd Hs].
          apply Z.eqb_eq in Hd. apply Z.eqb_eq in Hs. subst d s.
          rewrite !Z.eqb_refl. cbn [andb].
          unfold wrap32. rewrite Zplus_mod_idemp_l. f_equal; lia.
        + replace ((desc sc =? d) && (_ =? s)) with false.
          * f_equal; lia.
          * symmetry. rewrite <- Hk. rewrite (Z.eqb_sym (desc sc)).
            f_equal. apply Z.eqb_sym. }
    destruct (IH fuel st1 (fun d s => R d s - pins_held ext [sc] d s) Hl1 Hnd')
      as (st' & Hrun & Hs & Hw & Hlog & Hnil & Hnx & Hfree & Hkeep & Hc).
    + intros a' Ha'. rewrite Hh1. rewrite lookup_delete_ne by (intros ->; contradiction).
      apply Hh. right. exact Ha'.
    + exact HR1.
    + simpl in Hf. lia.
    + exists st'. cbn [while_loop]. rewrite (bind_of_ret _ _ _ _ _ Hstep).
      split; [exact Hrun|]. split; [exact Hs|]. split; [exact Hw|]. split; [exact Hlog|].
      split; [exact Hnil|]. split; [rewrite Hnx; exact Hn1|].
      split; [|split].
      * intros a' [<-|Ha']; [|apply Hfree; exact Ha'].
        rewrite Hkeep by exact Hna. rewrite Hh1. apply lookup_delete_eq.
      * intros a' Hn'. rewrite Hkeep by (intros Hin; apply Hn'; right; exact Hin).
        rewrite Hh1. apply lookup_delete_ne. intros ->. apply Hn'. left. reflexivity.
      * intros d s. rewrite Hc.
        assert (Hreg : registered_scans (glob st) (a :: l)
                       = sc :: registered_scans (glob st1) l).
        { unfold registered_scans. cbn [flat_map]. rewrite Hsc. cbn [app]. f_equal.
          clear -Hna Hh1. induction l as [|a' l IHl]; [reflexivity|].
          cbn [flat_map]. rewrite IHl by (intros Hin; apply Hna; right; exact Hin).
          rewrite Hh1. rewrite lookup_delete_ne; [reflexivity|].
          intros ->. apply Hna. left. reflexivity. }
        rewrite Hreg. cbn [pins_held]. f_equal; lia.
Qed.

(** X4: run on a registry in which no node is listed twice and a
    descriptor stands behind each node, with more iterations than there
    are scans, [seq_scans_cleanup] returns with the list of scans empty and
    every listed descriptor freed; each counter has gone down by the
    number of plain scans that held a pin on it, and by nothing for the
    scans that belong to a parallel scan; the scan at hand, the world and
    the log are not touched. *)
Theorem sweep_empties_registry_and_releases_plain_pins {W} (ext : Externals W)
    (fuel : nat) (st : St W) :
  registry_wf (glob st) ->
  counters_in_range (glob st) ->
  (length (listOfScans (glob st)) < fuel)%nat ->
  exists st',
    seq_scans_cleanup ext fuel st = Ret tt st' /\
    scan st' = scan st /\ world st' = world st /\ log st' = log st /\
    listOfScans (glob st') = [] /\
    (forall a, In a (listOfScans (glob st)) -> scanHeap (glob st') !! a = None) /\
    forall d s,
      read_numSeqScans (glob st') d s =
        wrap32 (read_numSeqScans (glob st) d s
                - pins_held ext (registered_scans (glob st) (listOfScans (glob st))) d s).
Proof.
  intros [Hnd Hh] Hr Hf.
  destruct (seq_scans_cleanup_loop ext (listOfScans (glob st)) fuel st
              (fun d s => read_numSeqScans (glob st) d s) eq_refl Hnd Hh)
    as (st1 & Hrun & Hs & Hw & Hlog & Hnil & Hnx & Hfree & _ & Hc).
  - intros d s. unfold wrap32. symmetry. apply Z.mod_small. apply Hr.
  - exact Hf.
  - eexists. split.
    + unfold seq_scans_cleanup. rewrite (bind_of_ret _ _ _ _ _ Hrun). reflexivity.
    + cbn [scan world log glob listOfScans scanHeap].
      split; [exact Hs|]. split; [exact Hw|]. split; [exact Hlog|].
      split; [reflexivity|]. split; [exact Hfree|].
      intros d s. rewrite <- Hc. reflexivity.
Qed.

Lemma sweep_empties_registry_and_releases_plain_pins_witness :
  exists st',
    seq_scans_cleanup (static_ext (single_leaf_tree two_tuple_leaf)) 3
      (mkSt zero_scan (mkTestWorld [] []) [] two_scans_registry) = Ret tt st' /\
    listOfScans (glob st') = [] /\
    read_numSeqScans (glob st') 1 0 = 1.
Proof.
  destruct (sweep_empties_registry_and_releases_plain_pins
              (static_ext (single_leaf_tree two_tuple_leaf)) 3
              (mkSt zero_scan (mkTestWorld [] []) [] two_scans_registry))
    as (st' & Hrun & _ & _ & _ & Hnil & _ & Hc).
  - split.
    + repeat constructor; simpl; intuition discriminate.
    + intros a [<-|[<-|[]]]; eexists; reflexivity.
  - intros d s. unfold read_numSeqScans, two_scans_registry. cbn [glob numSeqScans].
    destruct (decide ((1, 0) = (d, s))) as [<-|Hne].
    + rewrite lookup_insert_eq. simpl. lia.
    + rewrite lookup_insert_ne by exact Hne. rewrite lookup_empty. simpl. lia.
  - simpl. lia.
  - exists st'. split; [exact Hrun|]. split; [exact Hnil|]. rewrite Hc. reflexivity.
Defined.

(** ** The end of a scan *)

Lemma sat_any {T A} (o : Outcome T A) : sat o (fun _ _ => True) (fun _ _ => True).
Proof. destruct o; exact I. Qed.

Lemma status_test_finished (s : BTreeSeqScanStatus) :
  status_eqb s BTreeSeqScanInMemory || status_eqb s BTreeSeqScanDisk = false <->
  s = BTreeSeqScanFinished.
Proof. destruct s; simpl; split; intros H; (reflexivity || discriminate). Qed.

(** X5: whenever get-next-tuple-raw returns, its end flag is set exactly
    when the scan is then Finished, and with the flag set no tuple is
    returned.  A scan that is Finished answers every further call the same
    way, get-next-tuple with no tuple and get-next-tuple-raw with the end
    flag, without a call to any collaborator and without a change to the
    state. *)
Theorem end_flag_tells_finished {W} (ext : Externals W) (fuel : nat) (st : St W) :
  sat (btree_seq_scan_getnext_raw ext fuel st)
      (fun r st' =>
         (snd (fst r) = true <-> status (scan st') = BTreeSeqScanFinished) /\
         (snd (fst r) = true -> fst (fst r) = None))
      (fun _ _ => True) /\
  (status (scan st) = BTreeSeqScanFinished ->
   btree_seq_scan_getnext ext fuel st = Ret None st /\
   exists h, btree_seq_scan_getnext_raw ext fuel st = Ret (None, true, h) st).
Proof.
  split.
  - unfold btree_seq_scan_getnext_raw. apply sat_bind, sat_get_scan.
    destruct (status_eqb (status (scan st)) BTreeSeqScanInMemory
              || status_eqb (status (scan st)) BTreeSeqScanDisk) eqn:Hst.
    + apply sat_bind. eapply sat_weaken; [apply sat_any | cbv beta | auto].
      intros o s' _. apply sat_bind, sat_get_scan.
      destruct (status_eqb (status (scan s')) BTreeSeqScanInMemory
                || status_eqb (status (scan s')) BTreeSeqScanDisk) eqn:Hs';
        apply sat_ret; cbn [fst snd].
      * split; [|discriminate]. split; [discriminate|].
        intros Hf. apply status_test_finished in Hf. congruence.
      * split; [|reflexivity]. split; [|reflexivity].
        intros _. apply status_test_finished. exact Hs'.
    + apply sat_ret. cbn [fst snd]. split; [|reflexivity]. split; [|reflexivity].
      intros _. apply status_test_finished. exact Hst.
  - intros Hf. apply status_test_finished in Hf.
    unfold btree_seq_scan_getnext, btree_seq_scan_getnext_raw, bind, get_scan.
    rewrite Hf. split; [reflexivity | eexists; reflexivity].
Qed.

(** ** One slot at a time *)

(** X6: with the cursor on a slot of the current leaf, no fallback
    iterator and a scan that is not Finished, get-next-tuple-raw hands out
    that slot and nothing else happens: the tuple of the slot unless the
    slot is marked deleted, in which case no tuple, the end flag not set,
    and with a tuple the hint of the leaf; the cursor moves to the next
    slot and no collaborator is called.  When the cursor points into the page, the
    slots still to come were the slot handed out followed by the slots
    that are to come now: every slot of the image is handed out once, in
    order. *)
Theorem raw_hands_out_slot_under_cursor {W} (ext : Externals W) (fuel : nat) (st : St W) :
  status (scan st) <> BTreeSeqScanFinished ->
  iter (scan st) = None ->
  BTREE_PAGE_LOCATOR_IS_VALID (leafImg (scan st)) (leafLoc (scan st)) = true ->
  let item := page_read_item (leafImg (scan st)) (leafLoc (scan st)) in
  let next := BTREE_PAGE_LOCATOR_NEXT (leafImg (scan st)) (leafLoc (scan st)) in
  (exists h,
     btree_seq_scan_getnext_raw ext (S fuel) st =
       Ret (if it_deleted item then None else Some (it_tuple item), false, h)
           (mkSt (set_leafLoc next (scan st)) (world st) (log st) (glob st)) /\
     (it_deleted item = false -> h = hint (scan st))) /\
  (loc_wf (leafImg (scan st)) (leafLoc (scan st)) ->
   loc_remaining (leafImg (scan st)) (leafLoc (scan st)) =
     item :: loc_remaining (leafImg (scan st)) next).
Proof.
  intros Hst Hit Hv. cbv zeta. split.
  - assert (Ht : status_eqb (status (scan st)) BTreeSeqScanInMemory
                 || status_eqb (status (scan st)) BTreeSeqScanDisk = true).
    { destruct (status (scan st)); simpl; congruence. }
    exists (hint (scan st)). split; [|reflexivity].
    apply sat_eq. unfold btree_seq_scan_getnext_raw. srun.
    unfold btree_seq_scan_getnext_raw_internal. srun.
    unfold getnext_raw_body. srun.
    destruct (it_deleted (page_read_item (leafImg (scan st)) (leafLoc (scan st))));
      srun; split; reflexivity.
  - intros Hwf.
    destruct (locator_next_spec _ _ Hwf Hv) as (Hwf' & Hset & Hrem).
    rewrite (loc_remaining_settled _ _ Hwf' Hset).
    rewrite (loc_remaining_valid _ _ Hwf Hv). exact Hrem.
Qed.

Lemma raw_hands_out_slot_under_cursor_witness :
  exists h,
    btree_seq_scan_getnext_raw (static_ext (single_leaf_tree two_tuple_leaf)) 1
      two_tuple_scan =
      Ret (Some (mkTuple 1 10), false, h)
          (mkSt (set_leafLoc
                   (BTREE_PAGE_LOCATOR_NEXT (leafImg (scan two_tuple_scan))
                      (leafLoc (scan two_tuple_scan)))
                   (scan two_tuple_scan))
                (world two_tuple_scan) (log two_tuple_scan) (glob two_tuple_scan)).
Proof.
  destruct (raw_hands_out_slot_under_cursor
              (static_ext (single_leaf_tree two_tuple_leaf)) 0 two_tuple_scan
              ltac:(vm_compute; discriminate) eq_refl eq_refl)
    as ((h & Hrun & _) & _).
  exists h. exact Hrun.
Defined.

(** ** The batch of on-disk downlinks stays within its array *)

Lemma array_store_at_end {A} (zero x : A) (l : list A) (n : Z) :
  Z.of_nat (length l) = n ->
  Z.of_nat (length (array_store zero (Z.to_nat n) x l)) = n + 1.
Proof.
  intros <-. unfold array_store. rewrite Nat2Z.id.
  rewrite (proj2 (Nat.ltb_ge _ _)) by lia.
  rewrite Nat.sub_diag. simpl. rewrite length_app. simpl. lia.
Qed.

Lemma qsort_length {A} (cmp : A -> A -> Z) (l : list A) :
  length (qsort cmp l) = length l.
Proof. symmetry. apply Permutation_length, qsort_perm. Qed.

Lemma sorted_prefix_length {A} (cmp : A -> A -> Z) (n : nat) (l : list A) :
  length (qsort cmp (firstn n l) ++ skipn n l) = length l.
Proof.
  rewrite length_app, qsort_length, <- length_app, firstn_skipn. reflexivity.
Qed.

Ltac fit_contra :=
  unfold downlinks_fit in *;
  repeat match goal with H : _ /\ _ |- _ => destruct H end;
  congruence.

Ltac fit_leaf :=
  idtac;
  unfold downlinks_fit in *; cbn [scan world log glob] in *;
  repeat match goal with H : _ /\ _ |- _ => destruct H end;
  unfold_scan_updates; scan_fields; simpl;
  split_ifs;
  rewrite ?sorted_prefix_length;
  try (erewrite array_store_at_end by eassumption);
  repeat split; try congruence; try lia.

Lemma load_first_historical_page_body_fit {W} (ext : Externals W)  l :
  inv downlinks_fit (fun _ => downlinks_fit) (load_first_historical_page_body ext l).
Proof. unfold load_first_historical_page_body. inv_auto fit_contra fit_leaf. Qed.
#[local] Hint Resolve load_first_historical_page_body_fit : scan_inv.

Lemma load_first_historical_page_fit {W} (ext : Externals W)  fuel :
  inv downlinks_fit (fun _ => downlinks_fit) (load_first_historical_page ext fuel).
Proof. unfold load_first_historical_page. inv_auto fit_contra fit_leaf. Qed.
#[local] Hint Resolve load_first_historical_page_fit : scan_inv.

Lemma load_next_historical_page_body_fit {W} (ext : Externals W)  pk hd :
  inv downlinks_fit (fun _ => downlinks_fit) (load_next_historical_page_body ext pk hd).
Proof. unfold load_next_historical_page_body. inv_auto fit_contra fit_leaf. Qed.
#[local] Hint Resolve load_next_historical_page_body_fit : scan_inv.

Lemma load_next_historical_page_fit {W} (ext : Externals W)  fuel :
  inv downlinks_fit (fun _ => downlinks_fit) (load_next_historical_page ext fuel).
Proof. unfold load_next_historical_page. inv_auto fit_contra fit_leaf. Qed.
#[local] Hint Resolve load_next_historical_page_fit : scan_inv.

Lemma scan_make_iterator_fit {W} (ext : Externals W)  lo hi :
  inv downlinks_fit (fun _ => downlinks_fit) (scan_make_iterator ext lo hi).
Proof. unfold scan_make_iterator. inv_auto fit_contra fit_leaf. Qed.
#[local] Hint Resolve scan_make_iterator_fit : scan_inv.

Lemma load_next_internal_page_fit {W} (ext : Externals W)  fuel :
  inv downlinks_fit (fun _ => downlinks_fit) (load_next_internal_page ext fuel).
Proof. unfold load_next_internal_page. inv_auto fit_contra fit_leaf. Qed.
#[local] Hint Resolve load_next_internal_page_fit : scan_inv.

Lemma get_next_downlink_body_fit {W} (ext : Externals W)  fuel b :
  inv downlinks_fit (fun _ => downlinks_fit) (get_next_downlink_body ext fuel b).
Proof. unfold get_next_downlink_body. inv_auto fit_contra fit_leaf. Qed.
#[local] Hint Resolve get_next_downlink_body_fit : scan_inv.

Lemma get_next_downlink_fit {W} (ext : Externals W)  fuel :
  inv downlinks_fit (fun _ => downlinks_fit) (get_next_downlink ext fuel).
Proof. unfold get_next_downlink. inv_auto fit_contra fit_leaf. Qed.
#[local] Hint Resolve get_next_downlink_fit : scan_inv.

Lemma check_in_memory_leaf_page_fit {W} (ext : Externals W)  lo hi :
  inv downlinks_fit (fun _ => downlinks_fit) (check_in_memory_leaf_page ext lo hi).
Proof. unfold check_in_memory_leaf_page. inv_auto fit_contra fit_leaf. Qed.
#[local] Hint Resolve check_in_memory_leaf_page_fit : scan_inv.

Lemma iterate_internal_page_body_fit {W} (ext : Externals W)  fuel u :
  inv downlinks_fit (fun _ => downlinks_fit) (iterate_internal_page_body ext fuel u).
Proof. unfold iterate_internal_page_body. inv_auto fit_contra fit_leaf. Qed.
#[local] Hint Resolve iterate_internal_page_body_fit : scan_inv.

Lemma iterate_internal_page_fit {W} (ext : Externals W)  fuel :
  inv downlinks_fit (fun _ => downlinks_fit) (iterate_internal_page ext fuel).
Proof. unfold iterate_internal_page. inv_auto fit_contra fit_leaf. Qed.
#[local] Hint Resolve iterate_internal_page_fit : scan_inv.

Lemma load_next_disk_leaf_page_fit {W} (ext : Externals W)  fuel :
  inv downlinks_fit (fun _ => downlinks_fit) (load_next_disk_leaf_page ext fuel).
Proof.
  intros st H. unfold load_next_disk_leaf_page.
  apply sat_bind, sat_get_scan. cbv beta.
  destruct (downlinkIndex (scan st) >=? downlinksCount (scan st)) eqn:Hge.
  { apply sat_ret. exact H. }
  assert (H2 : downlinks_fit st /\ downlinkIndex (scan st) < downlinksCount (scan st))
    by (split; [exact H | lia]).
  clear H Hge.
  arun (fun st : St W => downlinks_fit st /\ downlinkIndex (scan st) < downlinksCount (scan st))
       fit_contra fit_leaf idtac.
  all: try (solve [fit_leaf]).
  all: apply sat_upd; abs_state (@downlinks_fit W) fit_leaf idtac.
  all: arun (@downlinks_fit W) fit_contra fit_leaf idtac.
  all: scall (load_first_historical_page_fit ext fuel) assumption assumption.
  all: apply sat_ret; assumption.
Qed.
#[local] Hint Resolve load_next_disk_leaf_page_fit : scan_inv.

Lemma btree_seq_scan_get_tuple_from_iterator_fit {W} (ext : Externals W)   :
  inv downlinks_fit (fun _ => downlinks_fit) (btree_seq_scan_get_tuple_from_iterator ext ).
Proof. unfold btree_seq_scan_get_tuple_from_iterator. inv_auto fit_contra fit_leaf. Qed.
#[local] Hint Resolve btree_seq_scan_get_tuple_from_iterator_fit : scan_inv.

Lemma apply_next_key_body_fit {W} (ext : Externals W)  fuel f u :
  inv downlinks_fit (fun _ => downlinks_fit) (apply_next_key_body ext fuel f u).
Proof. unfold apply_next_key_body. inv_auto fit_contra fit_leaf. Qed.
#[local] Hint Resolve apply_next_key_body_fit : scan_inv.

Lemma apply_next_key_fit {W} (ext : Externals W)  fuel f :
  inv downlinks_fit (fun _ => downlinks_fit) (apply_next_key ext fuel f).
Proof. unfold apply_next_key. inv_auto fit_contra fit_leaf. Qed.
#[local] Hint Resolve apply_next_key_fit : scan_inv.

Lemma hist_page_body_fit {W} (ext : Externals W)  fuel u :
  inv downlinks_fit (fun _ => downlinks_fit) (hist_page_body ext fuel u).
Proof. unfold hist_page_body. inv_auto fit_contra fit_leaf. Qed.
#[local] Hint Resolve hist_page_body_fit : scan_inv.

Lemma hist_merge_body_fit {W} (ext : Externals W)  fuel u :
  inv downlinks_fit (fun _ => downlinks_fit) (hist_merge_body ext fuel u).
Proof. unfold hist_merge_body. inv_auto fit_contra fit_leaf. Qed.
#[local] Hint Resolve hist_merge_body_fit : scan_inv.

Lemma next_in_memory_leaf_fit {W} (ext : Externals W)  fuel :
  inv downlinks_fit (fun _ => downlinks_fit) (next_in_memory_leaf ext fuel).
Proof. unfold next_in_memory_leaf. inv_auto fit_contra fit_leaf. Qed.
#[local] Hint Resolve next_in_memory_leaf_fit : scan_inv.

Lemma next_disk_leaf_fit {W} (ext : Externals W)  fuel :
  inv downlinks_fit (fun _ => downlinks_fit) (next_disk_leaf ext fuel).
Proof. unfold next_disk_leaf. inv_auto fit_contra fit_leaf. Qed.
#[local] Hint Resolve next_disk_leaf_fit : scan_inv.

Lemma getnext_body_fit {W} (ext : Externals W)  fuel u :
  inv downlinks_fit (fun _ => downlinks_fit) (getnext_body ext fuel u).
Proof. unfold getnext_body. inv_auto fit_contra fit_leaf. Qed.
#[local] Hint Resolve getnext_body_fit : scan_inv.

Lemma btree_seq_scan_getnext_internal_fit {W} (ext : Externals W)  fuel :
  inv downlinks_fit (fun _ => downlinks_fit) (btree_seq_scan_getnext_internal ext fuel).
Proof. unfold btree_seq_scan_getnext_internal. inv_auto fit_contra fit_leaf. Qed.
#[local] Hint Resolve btree_seq_scan_getnext_internal_fit : scan_inv.

Lemma btree_seq_scan_getnext_fit {W} (ext : Externals W)  fuel :
  inv downlinks_fit (fun _ => downlinks_fit) (btree_seq_scan_getnext ext fuel).
Proof. unfold btree_seq_scan_getnext. inv_auto fit_contra fit_leaf. Qed.
#[local] Hint Resolve btree_seq_scan_getnext_fit : scan_inv.

Lemma btree_seq_scan_get_tuple_from_iterator_raw_fit {W} (ext : Externals W)   :
  inv downlinks_fit (fun _ => downlinks_fit) (btree_seq_scan_get_tuple_from_iterator_raw ext ).
Proof. unfold btree_seq_scan_get_tuple_from_iterator_raw. inv_auto fit_contra fit_leaf. Qed.
#[local] Hint Resolve btree_seq_scan_get_tuple_from_iterator_raw_fit : scan_inv.

Lemma getnext_raw_body_fit {W} (ext : Externals W)  fuel u :
  inv downlinks_fit (fun _ => downlinks_fit) (getnext_raw_body ext fuel u).
Proof. unfold getnext_raw_body. inv_auto fit_contra fit_leaf. Qed.
#[local] Hint Resolve getnext_raw_body_fit : scan_inv.

Lemma btree_seq_scan_getnext_raw_internal_fit {W} (ext : Externals W)  fuel :
  inv downlinks_fit (fun _ => downlinks_fit) (btree_seq_scan_getnext_raw_internal ext fuel).
Proof. unfold btree_seq_scan_getnext_raw_internal. inv_auto fit_contra fit_leaf. Qed.
#[local] Hint Resolve btree_seq_scan_getnext_raw_internal_fit : scan_inv.

Lemma btree_seq_scan_getnext_raw_fit {W} (ext : Externals W)  fuel :
  inv downlinks_fit (fun _ => downlinks_fit) (btree_seq_scan_getnext_raw ext fuel).
Proof. unfold btree_seq_scan_getnext_raw. inv_auto fit_contra fit_leaf. Qed.
#[local] Hint Resolve btree_seq_scan_getnext_raw_fit : scan_inv.


Lemma pin_checkpoint_body_fit {W} (ext : Externals W) d n :
  inv downlinks_fit (fun _ => downlinks_fit) (pin_checkpoint_body ext d n).
Proof. unfold pin_checkpoint_body. inv_auto fit_contra fit_leaf. Qed.

Lemma make_btree_seq_scan_internal_fit {W} (ext : Externals W) fuel d c cbs smp :
  hoare (fun _ => True) (make_btree_seq_scan_internal ext fuel d c cbs smp None)
    (fun _ => downlinks_fit) (fun _ => downlinks_fit).
Proof.
  intros st _. unfold make_btree_seq_scan_internal.
  srun.
  abs_state (@downlinks_fit W) fit_leaf idtac.
  arun (@downlinks_fit W) fit_contra fit_leaf idtac.
  all: apply (sat_while (fun _ (st : St W) => downlinks_fit st));
    [ assumption
    | intros ? ? Hs'; eapply sat_weaken;
      [ apply pin_checkpoint_body_fit; exact Hs'
      | intros [?|?|?] ? Hs2; [ exact Hs2 | | ]
      | auto ]
    | intros; assumption ].
  all: arun (@downlinks_fit W) fit_contra fit_leaf idtac.
  all: scall (iterate_internal_page_fit ext fuel) assumption assumption.
  all: arun (@downlinks_fit W) fit_contra fit_leaf idtac; try assumption.
  all: scall (load_next_disk_leaf_page_fit ext fuel) assumption assumption.
  all: arun (@downlinks_fit W) fit_contra fit_leaf idtac; assumption.
Qed.

(** X7: the batch of on-disk downlinks of a plain scan stays within its
    array.  Creation leaves an array with room, no entry collected and the
    read position at its start; get-next-tuple and get-next-tuple-raw,
    whether they return or raise an error, keep the number of entries
    collected within the allocated size, every collected entry written,
    and the read position within the entries collected. *)
Theorem downlink_batch_stays_within_array {W} (ext : Externals W) (fuel : nat) :
  (forall d c cbs smp,
     hoare (fun _ => True) (make_btree_seq_scan_internal ext fuel d c cbs smp None)
       (fun _ => downlinks_fit) (fun _ => downlinks_fit)) /\
  inv downlinks_fit (fun _ => downlinks_fit) (btree_seq_scan_getnext ext fuel) /\
  inv downlinks_fit (fun _ => downlinks_fit) (btree_seq_scan_getnext_raw ext fuel).
Proof.
  split; [|split].
  - intros d c cbs smp. exact (make_btree_seq_scan_internal_fit ext fuel d c cbs smp).
  - exact (btree_seq_scan_getnext_fit ext fuel).
  - exact (btree_seq_scan_getnext_raw_fit ext fuel).
Qed.

(** ** Key ranges of the downlinks of a page *)

(** The locator after a valid one stands one offset further. *)
Lemma locator_next_offset_succ (p : Page) (loc : BTreePageItemLocator) :
  loc_wf p loc ->
  BTREE_PAGE_LOCATOR_IS_VALID p loc = true ->
  BTREE_PAGE_LOCATOR_IS_VALID p (BTREE_PAGE_LOCATOR_NEXT p loc) = true ->
  BTREE_PAGE_LOCATOR_GET_OFFSET p (BTREE_PAGE_LOCATOR_NEXT p loc) =
  S (BTREE_PAGE_LOCATOR_GET_OFFSET p loc).
Proof.
  intros Hwf Hv Hn.
  destruct (locator_next_spec p loc Hwf Hv) as (Hwf' & _ & Hrem).
  unfold rem_at in Hrem.
  rewrite <- (loc_remaining_valid p loc Hwf Hv) in Hrem.
  rewrite <- (loc_remaining_valid p _ Hwf' Hn) in Hrem.
  assert (Hne : loc_remaining p (BTREE_PAGE_LOCATOR_NEXT p loc) <> []).
  { destruct (locator_next_spec p _ Hwf' Hn) as (_ & _ & Hrem').
    unfold rem_at in Hrem'.
    rewrite <- (loc_remaining_valid p _ Hwf' Hn) in Hrem'.
    rewrite Hrem'. discriminate. }
  unfold loc_remaining in Hrem, Hne. rewrite Hv, Hn in Hrem. rewrite Hn in Hne.
  apply (f_equal (@length _)) in Hrem. simpl in Hrem.
  rewrite !length_skipn in Hrem.
  assert (length (skipn (BTREE_PAGE_LOCATOR_GET_OFFSET p (BTREE_PAGE_LOCATOR_NEXT p loc))
                    (page_items p)) <> 0)%nat.
  { intros H0. apply Hne. apply length_zero_iff_nil. exact H0. }
  rewrite length_skipn in H. lia.
Qed.

(** One call on a loaded page with the locator on a downlink. *)
Lemma get_next_downlink_on_page {W} (ext : Externals W) (fuel : nat) (st : St W) :
  poscan (scan st) = None ->
  firstPageIsLoaded (scan st) = true ->
  BTREE_PAGE_LOCATOR_IS_VALID (ctx_img (ctx (scan st))) (intLoc (scan st)) = true ->
  exists st',
    get_next_downlink ext (S fuel) st =
      Ret (Some (it_downlink (page_read_item (ctx_img (ctx (scan st))) (intLoc (scan st))))) st' /\
    keyRangeLow (scan st') = fst (get_current_downlink_key (scan st) (ctx_img (ctx (scan st)))) /\
    keyRangeHigh (scan st') = key_after (ctx_img (ctx (scan st))) (intLoc (scan st)) /\
    intLoc (scan st') = BTREE_PAGE_LOCATOR_NEXT (ctx_img (ctx (scan st))) (intLoc (scan st)) /\
    ctx (scan st') = ctx (scan st) /\
    poscan (scan st') = None /\
    firstPageIsLoaded (scan st') = true /\
    intStartOffset (scan st') = intStartOffset (scan st) /\
    world st' = world st /\ log st' = log st /\ glob st' = glob st.
Proof.
  intros Hpo Hfl Hv.
  cut (sat (get_next_downlink ext (S fuel) st)
         (fun a st' =>
            a = Some (it_downlink (page_read_item (ctx_img (ctx (scan st))) (intLoc (scan st)))) /\
            keyRangeLow (scan st') =
              fst (get_current_downlink_key (scan st) (ctx_img (ctx (scan st)))) /\
            keyRangeHigh (scan st') = key_after (ctx_img (ctx (scan st))) (intLoc (scan st)) /\
            intLoc (scan st') =
              BTREE_PAGE_LOCATOR_NEXT (ctx_img (ctx (scan st))) (intLoc (scan st)) /\
            ctx (scan st') = ctx (scan st) /\
            poscan (scan st') = None /\
            firstPageIsLoaded (scan st') = true /\
            intStartOffset (scan st') = intStartOffset (scan st) /\
            world st' = world st /\ log st' = log st /\ glob st' = glob st)
         (fun _ _ => False)).
  { intros H. apply sat_returns in H. destruct H as (a & s' & Heq & -> & H).
    exists s'. split; assumption. }
  unfold get_next_downlink. srun. unfold get_next_downlink_body. srun.
  rewrite !(get_next_key_eq ext). srun.
  repeat split; try reflexivity; assumption.
Qed.

(** X8: on a loaded internal page of a plain scan, with the locator on a
    downlink at or after the offset the walk of the page started from and
    another downlink after it, two calls of get-next-downlink give the two
    downlinks in page order, and the key range of the second starts where
    the key range of the first ends, at the key of the second downlink.
    Neither call calls a collaborator. *)
Theorem key_ranges_of_neighbour_downlinks_meet {W} (ext : Externals W) (fuel : nat)
    (st : St W) :
  let page := ctx_img (ctx (scan st)) in
  let loc := intLoc (scan st) in
  let next := BTREE_PAGE_LOCATOR_NEXT page loc in
  poscan (scan st) = None ->
  firstPageIsLoaded (scan st) = true ->
  loc_wf page loc ->
  BTREE_PAGE_LOCATOR_IS_VALID page loc = true ->
  BTREE_PAGE_LOCATOR_IS_VALID page next = true ->
  (intStartOffset (scan st) <= BTREE_PAGE_LOCATOR_GET_OFFSET page loc)%nat ->
  exists st1 st2,
    get_next_downlink ext (S fuel) st = Ret (Some (it_downlink (page_read_item page loc))) st1 /\
    get_next_downlink ext (S fuel) st1 =
      Ret (Some (it_downlink (page_read_item page next))) st2 /\
    keyRangeHigh (scan st1) = Some (it_tuple (page_read_item page next)) /\
    keyRangeLow (scan st2) = keyRangeHigh (scan st1) /\
    world st2 = world st /\ log st2 = log st /\ glob st2 = glob st.
Proof.
  intros page loc next Hpo Hfl Hwf Hv Hn Hoff.
  assert (Hsucc := locator_next_offset_succ page loc Hwf Hv Hn).
  fold next in Hsucc.
  destruct (get_next_downlink_on_page ext fuel st Hpo Hfl Hv)
    as (st1 & H1 & _ & Hhi1 & Hloc1 & Hctx1 & Hpo1 & Hfl1 & Hso1 & Hw1 & Hl1 & Hg1).
  fold page loc in H1, Hhi1, Hloc1. fold next in Hloc1.
  assert (Hv1 : BTREE_PAGE_LOCATOR_IS_VALID (ctx_img (ctx (scan st1))) (intLoc (scan st1)) = true).
  { rewrite Hctx1, Hloc1. exact Hn. }
  destruct (get_next_downlink_on_page ext fuel st1 Hpo1 Hfl1 Hv1)
    as (st2 & H2 & Hlo2 & _ & _ & _ & _ & _ & _ & Hw2 & Hl2 & Hg2).
  rewrite Hctx1, Hloc1 in H2. rewrite Hctx1 in Hlo2. fold page in H2, Hlo2.
  exists st1, st2.
  assert (Hkey : key_after page loc = Some (it_tuple (page_read_item page next))).
  { unfold key_after. fold next. rewrite Hn. reflexivity. }
  split; [exact H1|]. split; [exact H2|].
  split; [rewrite Hhi1; exact Hkey|].
  split.
  - rewrite Hlo2, Hhi1, Hkey. unfold get_current_downlink_key. cbn [fst].
    rewrite Hloc1, Hso1.
    replace (BTREE_PAGE_LOCATOR_GET_OFFSET page next =? intStartOffset (scan st))%nat
      with false by (symmetry; apply Nat.eqb_neq; lia).
    reflexivity.
  - repeat split; congruence.
Qed.

Lemma key_ranges_of_neighbour_downlinks_meet_witness :
  exists st1 st2,
    get_next_downlink (static_ext mismatch_tree) 1 two_downlinks_state = Ret (Some 3) st1 /\
    get_next_downlink (static_ext mismatch_tree) 1 st1 = Ret (Some 4) st2 /\
    keyRangeHigh (scan st1) = Some (mkTuple 20 0) /\
    keyRangeLow (scan st2) = Some (mkTuple 20 0).
Proof.
  destruct (key_ranges_of_neighbour_downlinks_meet (static_ext mismatch_tree) 0
              two_downlinks_state eq_refl eq_refl
              ltac:(split; [cbv; lia | reflexivity]) eq_refl eq_refl
              ltac:(cbv; lia))
    as (st1 & st2 & H1 & H2 & H3 & H4 & _).
  exists st1, st2.
  split; [exact H1|]. split; [exact H2|]. split; [exact H3|].
  rewrite H4. exact H3.
Defined.

(** ** The end of the batch and a failed read *)

Lemma sat_raises {T A} (o : Outcome T A) (X : option ErrCode -> T -> Prop) :
  sat o (fun _ _ => False) X -> (forall s, ~ X None s) ->
  exists e s, o = Raise e s /\ X (Some e) s.
Proof.
  destruct o as [a s|e s|s]; simpl; intros H Hn.
  - contradiction.
  - eauto.
  - exfalso. exact (Hn s H).
Qed.

Ltac drun := repeat first [progress srun | progress cbn [status_eqb orb negb andb]].

(** X9: a scan in the disk phase with no iterator, no historical image
    and its leaf exhausted.  When the read position is at the end of the
    batch, get-next-tuple returns no tuple, the scan becomes Finished and
    no collaborator is called.  When the batch has an address left and the
    read of the page at that address fails, get-next-tuple raises the
    error of the unreadable leaf page; the read position is not advanced,
    the scan stays in the disk phase, and the read is the one page read
    that was made. *)
Theorem disk_phase_end_and_failed_read {W} (ext : Externals W) (fuel : nat) (st : St W) :
  status (scan st) = BTreeSeqScanDisk ->
  iter (scan st) = None ->
  haveHistImg (scan st) = false ->
  BTREE_PAGE_LOCATOR_IS_VALID (leafImg (scan st)) (leafLoc (scan st)) = false ->
  let dl := nth (Z.to_nat (downlinkIndex (scan st))) (diskDownlinks (scan st))
              zero_disk_downlink in
  (downlinksCount (scan st) <= downlinkIndex (scan st) ->
   btree_seq_scan_getnext ext (S fuel) st =
     Ret None (mkSt (set_status BTreeSeqScanFinished (scan st)) (world st) (log st) (glob st))) /\
  (downlinkIndex (scan st) < downlinksCount (scan st) ->
   fst (snd (read_page_from_disk ext (world st) (downlink dl))) = false ->
   exists st',
     btree_seq_scan_getnext ext (S fuel) st = Raise ERR_CAN_NOT_READ_LEAF_PAGE st' /\
     downlinkIndex (scan st') = downlinkIndex (scan st) /\
     status (scan st') = BTreeSeqScanDisk /\
     disk_reads (log st') = disk_reads (log st) ++ [downlink dl]).
Proof.
  intros Hst Hit Hh Hv dl. split.
  - intros Hend. apply Z.geb_le in Hend.
    apply sat_eq. unfold btree_seq_scan_getnext. drun.
    unfold btree_seq_scan_getnext_internal. drun.
    unfold getnext_body. drun. unfold hist_merge_body. drun.
    match goal with |- sat (match ?x with _ => _ end st) _ _ => destruct x end.
    all: drun; unfold next_in_memory_leaf; drun; unfold next_disk_leaf; drun.
    all: unfold load_next_disk_leaf_page; drun.
    all: split; reflexivity.
  - intros Hlt Hfail.
    assert (Hge : (downlinkIndex (scan st) >=? downlinksCount (scan st)) = false).
    { rewrite Z.geb_leb. apply Z.leb_gt. exact Hlt. }
    cut (sat (btree_seq_scan_getnext ext (S fuel) st) (fun _ _ => False)
           (fun e st' =>
              e = Some ERR_CAN_NOT_READ_LEAF_PAGE /\
              downlinkIndex (scan st') = downlinkIndex (scan st) /\
              status (scan st') = BTreeSeqScanDisk /\
              disk_reads (log st') = disk_reads (log st) ++ [downlink dl])).
    { intros H. apply sat_raises in H; [|intros ? (? & _); discriminate].
      destruct H as (e & s' & Heq & He & H). injection He as ->.
      exists s'. split; assumption. }
    subst dl.
    unfold btree_seq_scan_getnext. drun.
    unfold btree_seq_scan_getnext_internal. drun.
    unfold getnext_body. drun. unfold hist_merge_body. drun.
    match goal with |- sat (match ?x with _ => _ end st) _ _ => destruct x end.
    all: drun; unfold next_in_memory_leaf; drun; unfold next_disk_leaf; drun.
    all: unfold load_next_disk_leaf_page; drun.
    all: scase; drun.
    all: rewrite ?disk_reads_app; cbn [disk_reads flat_map app]; rewrite ?app_nil_r.
    all: repeat split; reflexivity.
Qed.

Lemma disk_phase_end_and_failed_read_witness :
  btree_seq_scan_getnext (static_ext (single_leaf_tree two_tuple_leaf)) 1
    (one_address_state 1) =
    Ret None
      (mkSt (set_status BTreeSeqScanFinished (scan (one_address_state 1)))
         (world (one_address_state 1)) (log (one_address_state 1))
         (glob (one_address_state 1))) /\
  exists st',
    btree_seq_scan_getnext (static_ext (single_leaf_tree two_tuple_leaf)) 1
      (one_address_state 0) = Raise ERR_CAN_NOT_READ_LEAF_PAGE st' /\
    downlinkIndex (scan st') = 0 /\
    disk_reads (log st') = [1000].
Proof.
  split.
  - exact (proj1 (disk_phase_end_and_failed_read
                    (static_ext (single_leaf_tree two_tuple_leaf)) 0 (one_address_state 1)
                    eq_refl eq_refl eq_refl eq_refl)
             ltac:(cbv; discriminate)).
  - destruct (proj2 (disk_phase_end_and_failed_read
                       (static_ext (single_leaf_tree two_tuple_leaf)) 0 (one_address_state 0)
                       eq_refl eq_refl eq_refl eq_refl)
                ltac:(reflexivity) eq_refl)
      as (st' & Hrun & Hidx & _ & Hreads).
    exists st'. split; [exact Hrun|]. split; [exact Hidx | exact Hreads].
Defined.

(** ** The lookups of the internal pages *)

Lemma find_lookups_app (l1 l2 : list Event) :
  find_lookups (l1 ++ l2) = find_lookups l1 ++ find_lookups l2.
Proof. unfold find_lookups. apply flat_map_app. Qed.

Ltac lookup_contra :=
  unfold looked_up in *;
  repeat match goal with H : _ /\ _ |- _ => destruct H end;
  congruence.

Ltac lookup_leaf :=
  idtac;
  unfold looked_up in *; cbn [scan world log glob] in *;
  repeat match goal with H : _ /\ _ |- _ => destruct H end;
  unfold_scan_updates; scan_fields;
  rewrite ?find_lookups_app; cbn [find_lookups flat_map app]; rewrite ?app_nil_r;
  split_ifs;
  repeat split; try assumption; try congruence.

Lemma load_first_historical_page_body_lookup {W} (ext : Externals W) L k l :
  inv (looked_up L k) (fun _ => looked_up L k) (load_first_historical_page_body ext l).
Proof. unfold load_first_historical_page_body. inv_auto lookup_contra lookup_leaf. Qed.

Lemma load_first_historical_page_lookup {W} (ext : Externals W) L k fuel :
  inv (looked_up L k) (fun _ => looked_up L k) (load_first_historical_page ext fuel).
Proof.
  pose proof (load_first_historical_page_body_lookup ext L k).
  unfold load_first_historical_page. inv_auto lookup_contra lookup_leaf.
Qed.

Lemma scan_make_iterator_lookup {W} (ext : Externals W) L k lo hi :
  inv (looked_up L k) (fun _ => looked_up L k) (scan_make_iterator ext lo hi).
Proof. unfold scan_make_iterator. inv_auto lookup_contra lookup_leaf. Qed.

(** X10: a call of load-next-internal-page by a plain scan makes exactly
    one page lookup.  Its key is the high key of the internal page the
    scan holds, or no key, which asks for the first page of the tree, when
    no page was loaded before or the page held is the rightmost one.
    Whether the call returns or raises an error, the scan then counts its
    first page as loaded and keeps the key of the lookup as the high key
    of the page before. *)
Theorem next_internal_page_is_looked_up_from_high_key {W} (ext : Externals W)
    (fuel : nat) (st : St W) :
  poscan (scan st) = None ->
  sat (load_next_internal_page ext fuel st)
    (fun _ => looked_up (find_lookups (log st))
                (int_page_hikey ext (scan st) (ctx_img (ctx (scan st)))))
    (fun _ => looked_up (find_lookups (log st))
                (int_page_hikey ext (scan st) (ctx_img (ctx (scan st))))).
Proof.
  intros Hpo.
  pose proof (load_first_historical_page_lookup ext (find_lookups (log st))
                (int_page_hikey ext (scan st) (ctx_img (ctx (scan st)))) fuel) as Hh.
  pose proof (scan_make_iterator_lookup ext (find_lookups (log st))
                (int_page_hikey ext (scan st) (ctx_img (ctx (scan st))))) as Hm.
  unfold load_next_internal_page.
  do 14 sstep.
  abs_state (@looked_up W (find_lookups (log st))
               (int_page_hikey ext (scan st) (ctx_img (ctx (scan st)))))
    ltac:(idtac; unfold looked_up, int_page_hikey, is_first_page_loaded, set_first_page_loaded;
          scan_fields; rewrite ?Hpo; scan_fields;
          rewrite ?find_lookups_app; cbn [find_lookups flat_map app];
          repeat split; rewrite ?Hpo; scan_fields; try reflexivity; try assumption)
    idtac.
  refine ((_ : inv _ _ _) s HI).
  inv_auto lookup_contra lookup_leaf.
Qed.

Lemma next_internal_page_is_looked_up_from_high_key_witness :
  sat (load_next_internal_page (static_ext mismatch_tree) 5 mismatch_state)
    (fun _ => looked_up [] (Some (mkTuple 10 0)))
    (fun _ => looked_up [] (Some (mkTuple 10 0))).
Proof.
  exact (next_internal_page_is_looked_up_from_high_key (static_ext mismatch_tree) 5
           mismatch_state eq_refl).
Defined.

(** ** Page reads from disk and the phase of the scan *)

Ltac memreads_contra :=
  unfold memory_phase_reads in *;
  repeat match goal with H : _ /\ _ |- _ => destruct H end;
  congruence.

Ltac memreads_leaf :=
  idtac;
  unfold memory_phase_reads in *; cbn [scan world log glob] in *;
  repeat match goal with H : _ /\ _ |- _ => destruct H end;
  unfold_scan_updates; scan_fields;
  rewrite ?disk_reads_app; cbn [disk_reads flat_map app]; rewrite ?app_nil_r;
  split_ifs;
  repeat split; try assumption; try congruence; try discriminate.

Lemma load_first_historical_page_body_memreads {W} (ext : Externals W) R l :
  inv (memory_phase_reads R) (fun _ => memory_phase_reads R) (load_first_historical_page_body ext l).
Proof. unfold load_first_historical_page_body. inv_auto memreads_contra memreads_leaf. Qed.
#[local] Hint Resolve load_first_historical_page_body_memreads : scan_inv.

Lemma load_first_historical_page_memreads {W} (ext : Externals W) R fuel :
  inv (memory_phase_reads R) (fun _ => memory_phase_reads R) (load_first_historical_page ext fuel).
Proof. unfold load_first_historical_page. inv_auto memreads_contra memreads_leaf. Qed.
#[local] Hint Resolve load_first_historical_page_memreads : scan_inv.

Lemma load_next_historical_page_body_memreads {W} (ext : Externals W) R pk hd :
  inv (memory_phase_reads R) (fun _ => memory_phase_reads R) (load_next_historical_page_body ext pk hd).
Proof. unfold load_next_historical_page_body. inv_auto memreads_contra memreads_leaf. Qed.
#[local] Hint Resolve load_next_historical_page_body_memreads : scan_inv.

Lemma load_next_historical_page_memreads {W} (ext : Externals W) R fuel :
  inv (memory_phase_reads R) (fun _ => memory_phase_reads R) (load_next_historical_page ext fuel).
Proof. unfold load_next_historical_page. inv_auto memreads_contra memreads_leaf. Qed.
#[local] Hint Resolve load_next_historical_page_memreads : scan_inv.

Lemma scan_make_iterator_memreads {W} (ext : Externals W) R lo hi :
  inv (memory_phase_reads R) (fun _ => memory_phase_reads R) (scan_make_iterator ext lo hi).
Proof. unfold scan_make_iterator. inv_auto memreads_contra memreads_leaf. Qed.
#[local] Hint Resolve scan_make_iterator_memreads : scan_inv.

Lemma load_next_internal_page_memreads {W} (ext : Externals W) R fuel :
  inv (memory_phase_reads R) (fun _ => memory_phase_reads R) (load_next_internal_page ext fuel).
Proof. unfold load_next_internal_page. inv_auto memreads_contra memreads_leaf. Qed.
#[local] Hint Resolve load_next_internal_page_memreads : scan_inv.

Lemma get_next_downlink_body_memreads {W} (ext : Externals W) R fuel b :
  inv (memory_phase_reads R) (fun _ => memory_phase_reads R) (get_next_downlink_body ext fuel b).
Proof. unfold get_next_downlink_body. inv_auto memreads_contra memreads_leaf. Qed.
#[local] Hint Resolve get_next_downlink_body_memreads : scan_inv.

Lemma get_next_downlink_memreads {W} (ext : Externals W) R fuel :
  inv (memory_phase_reads R) (fun _ => memory_phase_reads R) (get_next_downlink ext fuel).
Proof. unfold get_next_downlink. inv_auto memreads_contra memreads_leaf. Qed.
#[local] Hint Resolve get_next_downlink_memreads : scan_inv.

Lemma check_in_memory_leaf_page_memreads {W} (ext : Externals W) R lo hi :
  inv (memory_phase_reads R) (fun _ => memory_phase_reads R) (check_in_memory_leaf_page ext lo hi).
Proof. unfold check_in_memory_leaf_page. inv_auto memreads_contra memreads_leaf. Qed.
#[local] Hint Resolve check_in_memory_leaf_page_memreads : scan_inv.

Lemma iterate_internal_page_body_memreads {W} (ext : Externals W) R fuel u :
  inv (memory_phase_reads R) (fun _ => memory_phase_reads R) (iterate_internal_page_body ext fuel u).
Proof. unfold iterate_internal_page_body. inv_auto memreads_contra memreads_leaf. Qed.
#[local] Hint Resolve iterate_internal_page_body_memreads : scan_inv.

Lemma iterate_internal_page_memreads {W} (ext : Externals W) R fuel :
  inv (memory_phase_reads R) (fun _ => memory_phase_reads R) (iterate_internal_page ext fuel).
Proof. unfold iterate_internal_page. inv_auto memreads_contra memreads_leaf. Qed.
#[local] Hint Resolve iterate_internal_page_memreads : scan_inv.

Lemma btree_seq_scan_get_tuple_from_iterator_memreads {W} (ext : Externals W) R  :
  inv (memory_phase_reads R) (fun _ => memory_phase_reads R) (btree_seq_scan_get_tuple_from_iterator ext ).
Proof. unfold btree_seq_scan_get_tuple_from_iterator. inv_auto memreads_contra memreads_leaf. Qed.
#[local] Hint Resolve btree_seq_scan_get_tuple_from_iterator_memreads : scan_inv.

Lemma apply_next_key_body_memreads {W} (ext : Externals W) R fuel f u :
  inv (memory_phase_reads R) (fun _ => memory_phase_reads R) (apply_next_key_body ext fuel f u).
Proof. unfold apply_next_key_body. inv_auto memreads_contra memreads_leaf. Qed.
#[local] Hint Resolve apply_next_key_body_memreads : scan_inv.

Lemma apply_next_key_memreads {W} (ext : Externals W) R fuel f :
  inv (memory_phase_reads R) (fun _ => memory_phase_reads R) (apply_next_key ext fuel f).
Proof. unfold apply_next_key. inv_auto memreads_contra memreads_leaf. Qed.
#[local] Hint Resolve apply_next_key_memreads : scan_inv.

Lemma hist_page_body_memreads {W} (ext : Externals W) R fuel u :
  inv (memory_phase_reads R) (fun _ => memory_phase_reads R) (hist_page_body ext fuel u).
Proof. unfold hist_page_body. inv_auto memreads_contra memreads_leaf. Qed.
#[local] Hint Resolve hist_page_body_memreads : scan_inv.

Lemma hist_merge_body_memreads {W} (ext : Externals W) R fuel u :
  inv (memory_phase_reads R) (fun _ => memory_phase_reads R) (hist_merge_body ext fuel u).
Proof. unfold hist_merge_body. inv_auto memreads_contra memreads_leaf. Qed.
#[local] Hint Resolve hist_merge_body_memreads : scan_inv.

Lemma next_in_memory_leaf_memreads {W} (ext : Externals W) R fuel :
  inv (memory_phase_reads R) (fun _ => memory_phase_reads R) (next_in_memory_leaf ext fuel).
Proof. unfold next_in_memory_leaf. inv_auto memreads_contra memreads_leaf. Qed.
#[local] Hint Resolve next_in_memory_leaf_memreads : scan_inv.

Lemma past_memory_phase_reads {W} (R : list Z) (st : St W) :
  phase_at_least BTreeSeqScanDisk st -> memory_phase_reads R st.
Proof.
  intros [Hp Hs]. split; [exact Hp|]. intros Hm. rewrite Hm in Hs.
  unfold status_le in Hs. simpl in Hs. lia.
Qed.

Lemma next_disk_leaf_memreads {W} (ext : Externals W) R fuel :
  inv (memory_phase_reads R) (fun _ => memory_phase_reads R) (next_disk_leaf ext fuel).
Proof.
  intros st H. unfold next_disk_leaf.
  apply sat_bind, sat_get_scan. cbv beta.
  destruct (status_eqb (status (scan st)) BTreeSeqScanDisk) eqn:Hs.
  - assert (Hp : phase_at_least BTreeSeqScanDisk st).
    { destruct H as [Hpo _]. split; [exact Hpo|].
      destruct (status (scan st)); simpl in Hs; try discriminate Hs.
      unfold status_le. simpl. lia. }
    apply sat_bind.
    eapply sat_weaken;
      [apply (load_next_disk_leaf_page_phase ext BTreeSeqScanDisk fuel); exact Hp | | ].
    + intros ok s' Hp'. cbv beta. destruct ok; cbn [negb].
      * apply sat_ret. apply past_memory_phase_reads. exact Hp'.
      * apply sat_bind, sat_upd. apply sat_ret.
        destruct Hp' as [Hpo' _]. split; [exact Hpo'|]. cbn [scan]. scan_fields. discriminate.
    + intros e s' Hp'. apply past_memory_phase_reads. exact Hp'.
  - apply sat_ret. exact H.
Qed.
#[local] Hint Resolve next_disk_leaf_memreads : scan_inv.

Lemma getnext_body_memreads {W} (ext : Externals W) R fuel u :
  inv (memory_phase_reads R) (fun _ => memory_phase_reads R) (getnext_body ext fuel u).
Proof. unfold getnext_body. inv_auto memreads_contra memreads_leaf. Qed.
#[local] Hint Resolve getnext_body_memreads : scan_inv.

Lemma btree_seq_scan_getnext_internal_memreads {W} (ext : Externals W) R fuel :
  inv (memory_phase_reads R) (fun _ => memory_phase_reads R) (btree_seq_scan_getnext_internal ext fuel).
Proof. unfold btree_seq_scan_getnext_internal. inv_auto memreads_contra memreads_leaf. Qed.
#[local] Hint Resolve btree_seq_scan_getnext_internal_memreads : scan_inv.

Lemma btree_seq_scan_getnext_memreads {W} (ext : Externals W) R fuel :
  inv (memory_phase_reads R) (fun _ => memory_phase_reads R) (btree_seq_scan_getnext ext fuel).
Proof. unfold btree_seq_scan_getnext. inv_auto memreads_contra memreads_leaf. Qed.
#[local] Hint Resolve btree_seq_scan_getnext_memreads : scan_inv.

Lemma btree_seq_scan_get_tuple_from_iterator_raw_memreads {W} (ext : Externals W) R  :
  inv (memory_phase_reads R) (fun _ => memory_phase_reads R) (btree_seq_scan_get_tuple_from_iterator_raw ext ).
Proof. unfold btree_seq_scan_get_tuple_from_iterator_raw. inv_auto memreads_contra memreads_leaf. Qed.
#[local] Hint Resolve btree_seq_scan_get_tuple_from_iterator_raw_memreads : scan_inv.

Lemma getnext_raw_body_memreads {W} (ext : Externals W) R fuel u :
  inv (memory_phase_reads R) (fun _ => memory_phase_reads R) (getnext_raw_body ext fuel u).
Proof. unfold getnext_raw_body. inv_auto memreads_contra memreads_leaf. Qed.
#[local] Hint Resolve getnext_raw_body_memreads : scan_inv.

Lemma btree_seq_scan_getnext_raw_internal_memreads {W} (ext : Externals W) R fuel :
  inv (memory_phase_reads R) (fun _ => memory_phase_reads R) (btree_seq_scan_getnext_raw_internal ext fuel).
Proof. unfold btree_seq_scan_getnext_raw_internal. inv_auto memreads_contra memreads_leaf. Qed.
#[local] Hint Resolve btree_seq_scan_getnext_raw_internal_memreads : scan_inv.

Lemma btree_seq_scan_getnext_raw_memreads {W} (ext : Externals W) R fuel :
  inv (memory_phase_reads R) (fun _ => memory_phase_reads R) (btree_seq_scan_getnext_raw ext fuel).
Proof. unfold btree_seq_scan_getnext_raw. inv_auto memreads_contra memreads_leaf. Qed.
#[local] Hint Resolve btree_seq_scan_getnext_raw_memreads : scan_inv.


Lemma pin_checkpoint_body_memreads {W} (ext : Externals W) R d n :
  inv (memory_phase_reads R) (fun _ => memory_phase_reads R) (pin_checkpoint_body ext d n).
Proof. unfold pin_checkpoint_body. inv_auto memreads_contra memreads_leaf. Qed.

(** Leaving the in-memory phase and loading the first leaf from disk. *)
Lemma enter_disk_phase_memreads {W} (ext : Externals W) R fuel (st : St W) :
  memory_phase_reads R st ->
  sat ((upd switch_to_disk_scan ;;;
        ok <- load_next_disk_leaf_page ext fuel ;;
        if negb ok then upd (set_status BTreeSeqScanFinished) else ret tt) st)
    (fun _ => memory_phase_reads R) (fun _ => memory_phase_reads R).
Proof.
  intros [Hpo _].
  apply sat_bind, sat_upd. apply sat_bind.
  eapply sat_weaken;
    [apply (load_next_disk_leaf_page_phase ext BTreeSeqScanDisk fuel) | | ].
  - split; cbn [scan]; unfold switch_to_disk_scan; scan_fields; [exact Hpo|].
    unfold status_le. simpl. lia.
  - intros ok s' Hp'. cbv beta. destruct ok; cbn [negb].
    + apply sat_ret. apply past_memory_phase_reads. exact Hp'.
    + apply sat_upd. destruct Hp' as [Hpo' _]. split; [exact Hpo'|].
      cbn [scan]. scan_fields. discriminate.
  - intros e s' Hp'. apply past_memory_phase_reads. exact Hp'.
Qed.

Lemma make_btree_seq_scan_internal_memreads {W} (ext : Externals W) R fuel d c cbs smp :
  hoare (fun st => disk_reads (log st) = R)
    (make_btree_seq_scan_internal ext fuel d c cbs smp None)
    (fun _ => memory_phase_reads R) (fun _ => memory_phase_reads R).
Proof.
  intros st HR. unfold make_btree_seq_scan_internal.
  srun.
  abs_state (@memory_phase_reads W R) memreads_leaf idtac.
  arun (@memory_phase_reads W R) memreads_contra memreads_leaf idtac.
  all: apply (sat_while (fun _ (st : St W) => memory_phase_reads R st));
    [ assumption
    | intros ? ? Hs'; eapply sat_weaken;
      [ apply pin_checkpoint_body_memreads; exact Hs'
      | intros [?|?|?] ? Hs2; [ exact Hs2 | | ]
      | auto ]
    | intros; assumption ].
  all: arun (@memory_phase_reads W R) memreads_contra memreads_leaf idtac.
  all: scall (iterate_internal_page_memreads ext R fuel) assumption assumption.
  all: apply sat_bind, sat_get_scan; cbv beta.
  all: match goal with |- sat ((if ?b then _ else _) _) _ _ => destruct b end.
  all: try (apply sat_ret; assumption).
  all: apply enter_disk_phase_memreads; assumption.
Qed.

(** X11: a plain scan reads pages from disk in its disk phase only.  A
    scan that is in its in-memory phase after its creation, or after a
    call of get-next-tuple or get-next-tuple-raw that began in that phase,
    has made no page read from disk in between, whether the call returned
    or raised an error: on-disk downlinks met in the in-memory phase are
    only collected. *)
Theorem in_memory_phase_reads_no_page_from_disk {W} (ext : Externals W) (fuel : nat)
    (R : list Z) :
  (forall d c cbs smp,
     hoare (fun st => disk_reads (log st) = R)
       (make_btree_seq_scan_internal ext fuel d c cbs smp None)
       (fun _ => memory_phase_reads R) (fun _ => memory_phase_reads R)) /\
  inv (memory_phase_reads R) (fun _ => memory_phase_reads R) (btree_seq_scan_getnext ext fuel) /\
  inv (memory_phase_reads R) (fun _ => memory_phase_reads R)
    (btree_seq_scan_getnext_raw ext fuel).
Proof.
  split; [|split].
  - intros d c cbs smp. exact (make_btree_seq_scan_internal_memreads ext R fuel d c cbs smp).
  - exact (btree_seq_scan_getnext_memreads ext R fuel).
  - exact (btree_seq_scan_getnext_raw_memreads ext R fuel).
Qed.
